(** * ps-lite: the key-value worker and server of [include/ps/kv_app.h]

    A shallow embedding of the slicers ([DefaultSlicer], [ModSlicer]), of the
    pull completion closure of [Pull_], of the worker's send and receive
    paths ([Send], [Process], [RunCallback], which runs that closure) and of
    [KVServer::Process], followed by the properties of the specification
    that are settled on them.

    Conventions.  A [CHECK] that fails terminates the process: every function
    that contains one returns [option], and [None] is the fatal failure.
    [size_t] positions that index an array are [nat]; key values, [int]
    lengths and the value offsets computed from them are [Z], with the
    64-bit wrap-around of [size_t] written out where the source adds a
    signed [int] to it. *)

From stdpp Require Import base option list sorting gmap.
From Stdlib Require Import ZArith Lia.

Local Open Scope Z_scope.

(** ** Keys, ranges and shared arrays *)

(** [Key] is [uint64_t]. *)
Abbreviation Key := Z (only parsing).

Definition wrap64 (z : Z) : Z := z mod 2 ^ 64.

(** [Range]: the half-open interval [[begin, end)]. *)
Record Range := mkRange { begin : Key; end_ : Key }.

(** Modelled from the spec: [SArray::segment] is declared in ps/sarray.h,
    which is outside the sources at hand.  [segment l b e] is the view of
    [[b, e)] of [l]; an interval that does not lie inside the buffer is a
    fatal failure. *)
Definition segment {A} (l : list A) (b e : Z) : option (list A) :=
  if decide (0 ≤ b ∧ b ≤ e ∧ e ≤ Z.of_nat (length l))
  then Some (take (Z.to_nat (e - b)) (drop (Z.to_nat b) l))
  else None.

(** [std::lower_bound] on an array partitioned by [< x]: the number of
    leading elements smaller than [x], that is the index of the first
    element that is not. *)
Fixpoint lower_bound (l : list Key) (x : Key) : nat :=
  match l with
  | [] => 0%nat
  | y :: l' => if decide (y < x) then S (lower_bound l' x) else 0%nat
  end.

(** A counted loop [for (i = start; i < start + count; ++i) body], with the
    loop state threaded through and a fatal failure ending it. *)
Fixpoint for_loop {S} (body : S → nat → option S)
    (start count : nat) (st : S) : option S :=
  match count with
  | O => Some st
  | Datatypes.S c => st' ← body st start; for_loop body (Datatypes.S start) c st'
  end.

(** ** Key-value lists *)

Section KVPairs.
Context {Val : Type}.

(** [struct KVPairs]: three parallel arrays; [lens] may be empty. *)
Record KVPairs := mkKVPairs {
  keys : list Key;
  vals : list Val;
  lens : list Z
}.

(** A default-constructed [KVPairs]. *)
Definition empty_kv : KVPairs := mkKVPairs [] [] [].

(** [SlicedKVs]: one [(active, shard)] pair per server. *)
#[local] Abbreviation SlicedKVs := (list (bool * KVPairs)).

(** ** The range slicer, [KVWorker::DefaultSlicer] *)

(** [CHECK_EQ(ranges[i-1].end(), ranges[i].begin())], skipped at [i == 0]. *)
Definition check_adjacent (prev : option Range) (r : Range) : bool :=
  match prev with
  | None => true
  | Some r' => bool_decide (end_ r' = begin r)
  end.

(** The body of the position loop for the ranges from index [i] on: [rest]
    is the part of the keys after the moving [begin] pointer, [p] is
    [pos[i]], [prev] is [ranges[i-1]] when [i > 0].  The result lists
    [pos[i+1], ..., pos[n]]. *)
Fixpoint DefaultSlicer_pos (rest : list Key) (p : nat) (prev : option Range)
    (rs : list Range) : option (list nat) :=
  match rs with
  | [] => Some []
  | r :: rs' =>
      if check_adjacent prev r then
        let len := lower_bound rest (end_ r) in
        tl ← DefaultSlicer_pos (drop len rest) (p + len)%nat (Some r) rs';
        Some ((p + len)%nat :: tl)
      else None
  end.

(** [pos[0]]: the vector is zero-initialised and written only when there is
    a first range. *)
Definition DefaultSlicer_pos0 (ks : list Key) (ranges : list Range) : nat :=
  match ranges with
  | [] => 0%nat
  | r :: _ => lower_bound ks (begin r)
  end.

(** The whole vector [pos[0..n]]. *)
Definition DefaultSlicer_positions (ks : list Key) (ranges : list Range)
    : option (list nat) :=
  let p0 := DefaultSlicer_pos0 ks ranges in
  tl ← DefaultSlicer_pos (drop p0 ks) p0 None ranges;
  Some (p0 :: tl).

(** The flags [sliced->at(i).first = (len != 0)] written by the position
    loop; the shards themselves are still default-constructed. *)
Fixpoint DefaultSlicer_flags (pos : list nat) : SlicedKVs :=
  match pos with
  | p :: ((q :: _) as pos') =>
      (bool_decide (q ≠ p), empty_kv) :: DefaultSlicer_flags pos'
  | _ => []
  end.

(** The slicing loop.  [val_begin] equals [val_end] between two iterations,
    so one offset is threaded. *)
Fixpoint DefaultSlicer_slice (send : KVPairs) (k : nat) (pos : list nat)
    (val_begin : Z) : option SlicedKVs :=
  match pos with
  | p :: ((q :: _) as pos') =>
      if decide (q = p) then
        tl ← DefaultSlicer_slice send k pos' val_begin;
        Some ((false, empty_kv) :: tl)
      else
        ks ← segment (keys send) (Z.of_nat p) (Z.of_nat q);
        if decide (length (lens send) ≠ 0%nat) then
          ls ← segment (lens send) (Z.of_nat p) (Z.of_nat q);
          let val_end := foldl (λ ve l, wrap64 (ve + l)) val_begin ls in
          vs ← segment (vals send) val_begin val_end;
          tl ← DefaultSlicer_slice send k pos' val_end;
          Some ((true, mkKVPairs ks vs ls) :: tl)
        else
          vs ← segment (vals send) (Z.of_nat (p * k)) (Z.of_nat (q * k));
          tl ← DefaultSlicer_slice send k pos' val_begin;
          Some ((true, mkKVPairs ks vs []) :: tl)
  | _ => Some []
  end.

(** [DefaultSlicer(send, ranges, &sliced)]; [sliced] is the fresh vector of
    [Send], so the function returns it. *)
Definition DefaultSlicer (send : KVPairs) (ranges : list Range)
    : option SlicedKVs :=
  pos ← DefaultSlicer_positions (keys send) ranges;
  if decide (last pos = Some (length (keys send))) then
    if decide (keys send = []) then Some (DefaultSlicer_flags pos)
    else if decide (lens send = []) then
      let k := (length (vals send) / length (keys send))%nat in
      if decide ((k * length (keys send))%nat = length (vals send)) then
        DefaultSlicer_slice send k pos 0
      else None
    else
      if decide (length (keys send) = length (lens send)) then
        DefaultSlicer_slice send 0 pos 0
      else None
  else None.

(** ** The modulo slicer, [KVWorker::ModSlicer] *)

(** What one iteration does to the shard it selects. *)
Definition push_shard (key : Key) (seg : list Val) (l : list Z)
    (s : bool * KVPairs) : bool * KVPairs :=
  (true, mkKVPairs (keys s.2 ++ [key]) (vals s.2 ++ seg) (lens s.2 ++ l)).

(** The body of the slicing loop at [key_i]; the state is the sliced
    vector and [val_begin] (equal to [val_end] between iterations). *)
Definition ModSlicer_body (send : KVPairs) (num_servers k len_cnt : nat)
    (st : SlicedKVs * Z) (key_i : nat) : option (SlicedKVs * Z) :=
  if decide (num_servers = 0%nat) then None else
  let id_sliced := (key_i `mod` num_servers)%nat in
  key ← keys send !! key_i;
  if decide (len_cnt ≠ 0%nat) then
    l ← lens send !! key_i;
    let val_end := wrap64 (st.2 + l) in
    seg ← segment (vals send) st.2 val_end;
    Some (alter (push_shard key seg [l]) id_sliced st.1, val_end)
  else
    seg ← segment (vals send) (Z.of_nat (key_i * k))
                  (Z.of_nat ((key_i + 1) * k));
    Some (alter (push_shard key seg []) id_sliced st.1, st.2).

(** [ModSlicer(send, ranges, &sliced)], with [num_servers] the value of
    [Postoffice::Get()->num_servers()]. *)
Definition ModSlicer (num_servers : nat) (send : KVPairs)
    (ranges : list Range) : option SlicedKVs :=
  if decide (num_servers = length ranges) then
    if decide (keys send = []) then Some (replicate num_servers (false, empty_kv))
    else
      let key_cnt := length (keys send) in
      let val_cnt := length (vals send) in
      let len_cnt := length (lens send) in
      let loop k :=
        fst <$> for_loop (ModSlicer_body send num_servers k len_cnt) 0 key_cnt
                  (replicate num_servers (false, empty_kv), 0) in
      if decide (lens send = []) then
        let k := (val_cnt / key_cnt)%nat in
        if decide ((k * key_cnt)%nat = val_cnt) then loop k else None
      else
        if decide (key_cnt = len_cnt) then loop 0%nat else None
  else None.

End KVPairs.

Arguments KVPairs : clear implicits.
Abbreviation SlicedKVs Val := (list (bool * KVPairs Val)).

(** ** Messages *)

(** [Meta], the header of a [Message] (ps/internal/message.h): the fields
    that kv_app.h reads or writes. *)
Module Meta.
Record t := mk {
  app_id : Z;
  customer_id : Z;
  request : bool;
  push : bool;
  head : Z;
  timestamp : Z;
  recver : Z;
  sender : Z;
  simple_app : bool
}.
End Meta.

(** [struct KVMeta]. *)
Module KVMeta.
Record t := mk {
  cmd : Z;
  push : bool;
  sender : Z;
  timestamp : Z;
  customer_id : Z
}.
End KVMeta.

(** ** The completion closure of [KVWorker::Pull_] *)

(** Modelled from the spec: [FindRange] is declared outside the sources at
    hand.  It returns the index interval of the keys that lie in
    [[lower, upper)], found by binary search. *)
Definition FindRange (ks : list Key) (lower upper : Key) : Range :=
  mkRange (Z.of_nat (lower_bound ks lower)) (Z.of_nat (lower_bound ks upper)).

(** [Range::size()], an unsigned difference. *)
Definition Range_size (r : Range) : Z := wrap64 (end_ r - begin r).

(** [memcpy(dst + off, src, |src|)] into an array; a write past its end is
    undefined in the source and a fatal failure here. *)
Definition memcpy {A} (dst : list A) (off : nat) (src : list A)
    : option (list A) :=
  if decide (off + length src ≤ length dst)%nat
  then Some (take off dst ++ src ++ drop (off + length src) dst)
  else None.

(** The [k] elements of [src] from offset [off] on; a read past the end of
    the array is undefined in the source and a fatal failure here. *)
Definition read_block {A} (src : list A) (off : nat) (k : Z)
    : option (list A) :=
  if decide (0 ≤ k ∧ Z.of_nat off + k ≤ Z.of_nat (length src))
  then Some (take (Z.to_nat k) (drop off src))
  else None.

(** The output buffer: resized when the caller passed it empty, otherwise
    checked against the expected size. *)
Definition prepare_buffer {A} (zero : A) (buf : list A) (n : nat)
    : option (list A) :=
  match buf with
  | [] => Some (replicate n zero)
  | _ => if decide (length buf = n) then Some buf else None
  end.

Section Pull.
Context {Val : Type}.

(** [Val()], the value that [resize] fills a fresh buffer with. *)
Variable Val_zero : Val.

(** The checks of the range policy over the received fragments; the result
    is [(total_key, total_val)].  [front()] and [back()] of a fragment
    without keys are undefined in the source and a fatal failure here. *)
Fixpoint Pull_check_range (ks : list Key) (want_lens : bool)
    (kvs : list (KVPairs Val)) (total_key total_val : nat)
    : option (nat * nat) :=
  match kvs with
  | [] => Some (total_key, total_val)
  | s :: kvs' =>
      front ← head (keys s);
      back ← last (keys s);
      let range := FindRange ks front (wrap64 (back + 1)) in
      if decide (Range_size range = Z.of_nat (length (keys s))) then
        if want_lens && negb (bool_decide (length (lens s) = length (keys s)))
        then None
        else Pull_check_range ks want_lens kvs'
               (total_key + length (keys s)) (total_val + length (vals s))
      else None
  end.

(** [keys[i] % num_servers] as an index; the remainder by zero is undefined
    in the source and a fatal failure here. *)
Definition server_of (num_servers : nat) (k : Key) : option nat :=
  if decide (num_servers = 0%nat) then None
  else Some (Z.to_nat (k `mod` Z.of_nat num_servers)).

(** The tallies [cnt_server] of the caller's keys per residue. *)
Fixpoint count_server (num_servers : nat) (ks : list Key)
    (cnt_server : list nat) : option (list nat) :=
  match ks with
  | [] => Some cnt_server
  | k :: ks' =>
      r ← server_of num_servers k;
      count_server num_servers ks' (alter S r cnt_server)
  end.

(** The checks of the modulo policy over the received fragments; the
    result is [(total_key, total_val, total_kvs)]. *)
Fixpoint Pull_check_mod (num_servers : nat) (cnt_server : list nat)
    (kvs : list (KVPairs Val)) (total_key total_val total_kvs : nat)
    : option (nat * nat * nat) :=
  match kvs with
  | [] => Some (total_key, total_val, total_kvs)
  | s :: kvs' =>
      k0 ← keys s !! 0%nat;
      r ← server_of num_servers k0;
      c ← cnt_server !! r;
      if decide (length (keys s) = c) then
        Pull_check_mod num_servers cnt_server kvs'
          (total_key + length (keys s)) (total_val + length (vals s))
          (S total_kvs)
      else None
  end.

(** [std::sort] of the fragments by [keys.front()], as an insertion sort. *)
Definition front (s : KVPairs Val) : Key := default 0 (head (keys s)).

Fixpoint sort_insert (a : KVPairs Val) (l : list (KVPairs Val))
    : list (KVPairs Val) :=
  match l with
  | [] => [a]
  | b :: l' => if decide (front b < front a) then b :: sort_insert a l'
               else a :: b :: l'
  end.

Definition sort_by_front (l : list (KVPairs Val)) : list (KVPairs Val) :=
  foldr sort_insert [] l.

(** The output of the closure: the two buffers and the write positions
    [p_vals] and [p_lens] as offsets into them. *)
Record PullOut := mkPullOut {
  out_vals : list Val;
  p_vals : nat;
  out_lens : option (list Z);
  p_lens : nat
}.

(** The merge of the range policy: the fragments end to end. *)
Fixpoint Pull_merge_range (kvs : list (KVPairs Val)) (o : PullOut)
    : option PullOut :=
  match kvs with
  | [] => Some o
  | s :: kvs' =>
      vs ← memcpy (out_vals o) (p_vals o) (vals s);
      o' ← match out_lens o with
           | Some ol =>
               ls ← memcpy ol (p_lens o) (lens s);
               Some (mkPullOut vs (p_vals o + length (vals s)) (Some ls)
                       (p_lens o + length (lens s)))
           | None =>
               Some (mkPullOut vs (p_vals o + length (vals s)) None (p_lens o))
           end;
      Pull_merge_range kvs' o'
  end.

(** The inner loop of the modulo merge: the first fragment, from index [j]
    on, whose next key that is not consumed yet equals [key]. *)
Fixpoint find_fragment (key : Key) (kvs : list (KVPairs Val))
    (cnt_s : list nat) (j : nat) : option nat :=
  match kvs, cnt_s with
  | s :: kvs', c :: cnt_s' =>
      if decide (length (keys s) ≤ c)%nat then find_fragment key kvs' cnt_s' (S j)
      else if decide (keys s !! c = Some key) then Some j
      else find_fragment key kvs' cnt_s' (S j)
  | _, _ => None
  end.

(** The state of the modulo merge: the cursors [cnt_s] and [cnt_sv] and the
    output. *)
Record ModMerge := mkModMerge {
  cnt_s : list nat;
  cnt_sv : list nat;
  mm_out : PullOut
}.

(** The body of the outer loop of the modulo merge at caller key [i]. *)
Definition Pull_merge_mod_body (ks : list Key) (kvs : list (KVPairs Val))
    (st : ModMerge) (i : nat) : option ModMerge :=
  key ← ks !! i;
  j ← find_fragment key kvs (cnt_s st) 0;
  s ← kvs !! j;
  vector_id ← cnt_s st !! j;
  sv ← cnt_sv st !! j;
  k ← (if decide (lens s = [])
       then Some (Z.of_nat (length (vals s) / length (keys s)))
       else wrap64 <$> lens s !! vector_id);
  block ← read_block (vals s) sv k;
  vs ← memcpy (out_vals (mm_out st)) (p_vals (mm_out st)) block;
  o' ← match out_lens (mm_out st) with
       | Some ol =>
           l ← lens s !! vector_id;
           ls ← memcpy ol (p_lens (mm_out st)) [l];
           Some (mkPullOut vs (p_vals (mm_out st) + length block) (Some ls)
                   (p_lens (mm_out st) + 1))
       | None =>
           Some (mkPullOut vs (p_vals (mm_out st) + length block) None
                   (p_lens (mm_out st)))
       end;
  Some (mkModMerge (<[j := S vector_id]> (cnt_s st))
                   (<[j := (sv + length block)%nat]> (cnt_sv st)) o').

(** The closure that [Pull_] registers, run on the fragments [kvs] received
    for its timestamp, in the order of their arrival.  [slicer_kind] is the
    value of [PS_SLICER]; [vals] is the caller's buffer and [lens] the
    optional one.  The result is the content of the two buffers. *)
Definition Pull_callback (slicer_kind : Z) (num_servers : nat)
    (ks : list Key) (kvs : list (KVPairs Val))
    (vals_buf : list Val) (lens_buf : option (list Z))
    : option (list Val * option (list Z)) :=
  let keys_cnt := length ks in
  totals ←
    (if decide (slicer_kind = 0) then
       t ← Pull_check_range ks (bool_decide (is_Some lens_buf)) kvs 0 0;
       Some (t.1, t.2, 0%nat)
     else
       cnt_server ← count_server num_servers ks (replicate num_servers 0%nat);
       Pull_check_mod num_servers cnt_server kvs 0 0 0);
  let '(total_key, total_val, total_kvs) := totals in
  if decide (total_key = keys_cnt) then
    let kvs := sort_by_front kvs in
    ov ← prepare_buffer Val_zero vals_buf total_val;
    ol ← match lens_buf with
         | Some b => Some <$> prepare_buffer 0 b keys_cnt
         | None => Some None
         end;
    let o := mkPullOut ov 0 ol 0 in
    o' ←
      (if decide (slicer_kind = 0) then Pull_merge_range kvs o
       else
         mm_out <$>
           for_loop (Pull_merge_mod_body ks kvs) 0 keys_cnt
             (mkModMerge (replicate total_kvs 0%nat)
                         (replicate total_kvs 0%nat) o));
    Some (out_vals o', out_lens o')
  else None.

End Pull.

(** ** The worker, [KVWorker] *)

Section Worker.
Context {Val : Type}.

(** A data segment of a message is an untyped [SArray<char>]; the typed
    views that [AddData] and the converting constructor of [SArray] give are
    declared in ps/sarray.h and are parameters here. *)
Context {Segment : Type}.
Variable seg_of_keys : list Key → Segment.
Variable seg_of_vals : list Val → Segment.
Variable seg_of_lens : list Z → Segment.
Variable keys_of_seg : Segment → list Key.
Variable vals_of_seg : Segment → list Val.
Variable lens_of_seg : Segment → list Z.

(** The process-wide values that the closure of a pull reads: [Val()], the
    value of [PS_SLICER] and [Postoffice::Get()->num_servers()]. *)
Variable Val_zero : Val.
Variable slicer_kind : Z.
Variable num_servers : nat.

(** [struct Message]. *)
Record Message := mkMessage {
  meta : Meta.t;
  data : list Segment
}.

(** A registered callback.  A user callback is user code and is kept as a
    name.  The closure that [Pull_] registers carries what it captures: the
    caller's keys, the caller's two buffers and the user callback, if there
    is one.  A buffer is a pointer in the source: [None] is the null
    pointer, and [Some] holds what the buffer contains when the closure
    runs, which the caller is to leave untouched until then. *)
Context {UserCallback : Type}.

Inductive Callback :=
  | UserCb (cb : UserCallback)
  | PullCb (pull_keys : list Key) (vals : option (list Val))
      (lens : option (list Z)) (cb : option UserCallback).

(** What the worker does to the outside, in order: a message handed to
    [Van::Send], and a callback of a timestamp that has run to its end. *)
Inductive Event :=
  | EvSend (msg : Message)
  | EvCallback (ts : Z) (cb : Callback).

(** The worker with its [Customer].

    Modelled from the spec: the class [Customer] (ps/internal/customer.h) is
    outside the sources at hand.  It allocates strictly increasing
    timestamps and keeps, for each one, the number of responses accounted
    for ([tracker]).

    [filled] is the memory that the closures of the pulls write: for the
    timestamp of a pull, what its closure has left in the caller's two
    buffers. *)
Record Worker := mkWorker {
  next_timestamp : Z;
  tracker : gmap Z Z;
  recv_kvs_ : gmap Z (list (KVPairs Val));
  callbacks_ : gmap Z Callback;
  log : list Event;
  filled : gmap Z (list Val * option (list Z))
}.

(** Modelled from the spec: [Customer::NewRequest], a fresh timestamp whose
    count starts at zero. *)
Definition NewRequest (w : Worker) : Z * Worker :=
  (next_timestamp w,
   mkWorker (next_timestamp w + 1) (<[next_timestamp w := 0]> (tracker w))
            (recv_kvs_ w) (callbacks_ w) (log w) (filled w)).

(** Modelled from the spec: [Customer::NumResponse]. *)
Definition NumResponse (ts : Z) (w : Worker) : Z :=
  default 0 (tracker w !! ts).

(** Modelled from the spec: [Customer::AddResponse], which adds [num] to the
    count of the timestamp. *)
Definition AddResponse (ts : Z) (num : Z) (w : Worker) : Worker :=
  mkWorker (next_timestamp w) (<[ts := NumResponse ts w + num]> (tracker w))
           (recv_kvs_ w) (callbacks_ w) (log w) (filled w).

(** [KVWorker::AddCallback]: a null callback is not stored. *)
Definition AddCallback (ts : Z) (cb : option Callback) (w : Worker) : Worker :=
  match cb with
  | None => w
  | Some c =>
      mkWorker (next_timestamp w) (tracker w) (recv_kvs_ w)
               (<[ts := c]> (callbacks_ w)) (log w) (filled w)
  end.

(** The closure that [Pull_] registers for the timestamp [ts], run on the
    worker: it takes the fragments stored for [ts], checks and merges them
    into the caller's buffers ([Pull_callback]) and erases the entry of
    [ts].  The result is the worker and the content of the two buffers; the
    user's callback, which the closure calls last, is user code. *)
Definition Pull_closure (ts : Z) (ks : list Key) (vals_buf : list Val)
    (lens_buf : option (list Z)) (w : Worker)
    : option (Worker * (list Val * option (list Z))) :=
  let kvs := default [] (recv_kvs_ w !! ts) in
  out ← Pull_callback Val_zero slicer_kind num_servers ks kvs vals_buf lens_buf;
  Some (mkWorker (next_timestamp w) (tracker w) (delete ts (recv_kvs_ w))
                 (callbacks_ w) (log w) (<[ts := out]> (filled w)), out).

(** [KVWorker::RunCallback]: run and delete the callback, if one is
    registered.  The closure of a pull is run on the worker, with
    [CHECK_NOTNULL(vals)], and a check of it that fails is fatal for the
    caller of [RunCallback].  A user callback, registered by a push or
    carried by the closure of a pull, is user code: that it has run is
    recorded with the callback in the log, and it is taken not to call back
    into the worker. *)
Definition RunCallback (ts : Z) (w : Worker) : option Worker :=
  match callbacks_ w !! ts with
  | Some c =>
      w1 ← match c with
           | UserCb _ => Some w
           | PullCb ks vals lens _ =>
               vals_buf ← vals; fst <$> Pull_closure ts ks vals_buf lens w
           end;
      Some (mkWorker (next_timestamp w1) (tracker w1) (recv_kvs_ w1)
                     (delete ts (callbacks_ w1)) (log w1 ++ [EvCallback ts c])
                     (filled w1))
  | None => Some w
  end.

(** [Van::Send], recorded in the log. *)
Definition van_send (msg : Message) (w : Worker) : Worker :=
  mkWorker (next_timestamp w) (tracker w) (recv_kvs_ w) (callbacks_ w)
           (log w ++ [EvSend msg]) (filled w).

(** The process-wide values that [Send] reads from [Postoffice] and from
    the [Customer]. *)
Variable ranges : list Range.
Variable ServerRankToID : nat → Z.
Variable my_node_id : Z.
Variable obj_app_id : Z.
Variable obj_customer_id : Z.

(** The installed slicer, [slicer_]. *)
Variable slicer_ : KVPairs Val → list Range → option (SlicedKVs Val).

(** The data segments attached to a request or to a response. *)
Definition kv_data (kvs : KVPairs Val) : list Segment :=
  if decide (length (keys kvs) ≠ 0%nat) then
    [seg_of_keys (keys kvs); seg_of_vals (vals kvs)]
    ++ (if decide (length (lens kvs) ≠ 0%nat) then [seg_of_lens (lens kvs)] else [])
  else [].

(** The message that [Send] builds for the shard of server rank [i]. *)
Definition request_msg (ts : Z) (push : bool) (cmd : Z) (i : nat)
    (kvs : KVPairs Val) : Message :=
  mkMessage
    (Meta.mk obj_app_id obj_customer_id true push cmd ts
             (ServerRankToID i) my_node_id false)
    (kv_data kvs).

(** The second loop of [Send], from server rank [i] on. *)
Fixpoint Send_shards (ts : Z) (push : bool) (cmd : Z) (i : nat)
    (sliced : SlicedKVs Val) (w : Worker) : Worker :=
  match sliced with
  | [] => w
  | s :: sliced' =>
      Send_shards ts push cmd (S i) sliced'
        (if s.1 then van_send (request_msg ts push cmd i s.2) w else w)
  end.

(** The first loop of [Send]: the number of inactive shards. *)
Definition count_skipped (sliced : SlicedKVs Val) : nat :=
  length (filter (λ s, s.1 = false) sliced).

(** [KVWorker::Send]. *)
Definition Send (ts : Z) (push : bool) (cmd : Z) (kvs : KVPairs Val)
    (w : Worker) : option Worker :=
  sliced ← slicer_ kvs ranges;
  let skipped := count_skipped sliced in
  let w1 := AddResponse ts (Z.of_nat skipped) w in
  w2 ← (if decide (skipped = length sliced) then RunCallback ts w1
        else Some w1);
  Some (Send_shards ts push cmd 0 sliced w2).

(** [KVWorker::ZPush]. *)
Definition ZPush (kvs : KVPairs Val) (cmd : Z) (cb : option UserCallback)
    (w : Worker) : option (Z * Worker) :=
  let '(ts, w1) := NewRequest w in
  w2 ← Send ts true cmd kvs (AddCallback ts (UserCb <$> cb) w1);
  Some (ts, w2).

(** [KVWorker::Pull_]: the completion closure is registered whether or not
    the user gave a callback. *)
Definition Pull_ (ks : list Key) (vals : option (list Val))
    (lens : option (list Z)) (cmd : Z) (cb : option UserCallback)
    (w : Worker) : option (Z * Worker) :=
  let '(ts, w1) := NewRequest w in
  w2 ← Send ts false cmd (mkKVPairs ks [] [])
          (AddCallback ts (Some (PullCb ks vals lens cb)) w1);
  Some (ts, w2).

(** [SimpleApp::Process] is declared in ps/simple_app.h. *)
Variable SimpleApp_Process : Message → Worker → option Worker.

(** [KVWorker::Process]. *)
Definition Process (msg : Message) (w : Worker) : option Worker :=
  if Meta.simple_app (meta msg) then SimpleApp_Process msg w else
  let ts := Meta.timestamp (meta msg) in
  w1 ←
    (if negb (Meta.push (meta msg)) && bool_decide (length (data msg) ≠ 0%nat) then
       match data msg with
       | d0 :: d1 :: rest =>
           let kvs := mkKVPairs (keys_of_seg d0) (vals_of_seg d1)
                        (match rest with d2 :: _ => lens_of_seg d2 | [] => [] end) in
           Some (mkWorker (next_timestamp w) (tracker w)
                   (<[ts := default [] (recv_kvs_ w !! ts) ++ [kvs]]> (recv_kvs_ w))
                   (callbacks_ w) (log w) (filled w))
       | _ => None
       end
     else Some w);
  if decide (NumResponse ts w1 = Z.of_nat num_servers - 1)
  then RunCallback ts w1 else Some w1.

(** Modelled from the spec: the dispatcher of the [Customer] hands an
    inbound message to the handler and, for a response, counts it once the
    handler has returned, so that the handler of the last response observes
    [expected - 1]. *)
Definition Customer_deliver (msg : Message) (w : Worker) : option Worker :=
  w1 ← Process msg w;
  Some (if Meta.request (meta msg) then w1
        else AddResponse (Meta.timestamp (meta msg)) 1 w1).

(** The dispatcher delivers the messages of its queue in order. *)
Fixpoint Customer_deliver_all (msgs : list Message) (w : Worker)
    : option Worker :=
  match msgs with
  | [] => Some w
  | msg :: msgs' => w1 ← Customer_deliver msg w; Customer_deliver_all msgs' w1
  end.

(** How often the callback of [ts] has been invoked. *)
Definition is_callback_of (ts : Z) (e : Event) : bool :=
  match e with
  | EvCallback ts' _ => bool_decide (ts' = ts)
  | EvSend _ => false
  end.

Definition callback_count (ts : Z) (l : list Event) : nat :=
  length (filter (λ e, is_callback_of ts e = true) l).

(** The messages handed to the transport. *)
Definition sent (l : list Event) : list Message :=
  omap (λ e, match e with EvSend m => Some m | _ => None end) l.

(** What the completion of the request [ts] depends on: its response
    count, its callback, and how often that callback has run. *)
Definition completion (ts : Z) (w : Worker) : Z * option Callback * nat :=
  (NumResponse ts w, callbacks_ w !! ts, callback_count ts (log w)).

(** A response to a key-value request as the dispatcher hands it to
    [Process]: not a simple-app message, not a request, and with no, two or
    more data segments when it answers a pull. *)
Definition kv_response (msg : Message) : Prop :=
  Meta.simple_app (meta msg) = false
  ∧ Meta.request (meta msg) = false
  ∧ (Meta.push (meta msg) = false → length (data msg) ≠ 1%nat).

(** The responses to the request [ts] among the messages [msgs]. *)
Definition responses_to (ts : Z) (msgs : list Message) : nat :=
  length (filter (λ m, Meta.timestamp (meta m) = ts) msgs).

(** ** The server, [KVServer::Process] *)

(** What [KVServer::Process] ends in: the message goes to
    [SimpleApp::Process], or the request handle is called. *)
Inductive ServerCall {ReqHandle : Type} :=
  | CallSimpleApp (msg : Message)
  | CallRequestHandle (h : ReqHandle) (req_meta : KVMeta.t)
      (req_data : KVPairs Val).

(** [KVServer::Process], with [request_handle_] empty or set. *)
Definition KVServer_Process {ReqHandle : Type}
    (request_handle_ : option ReqHandle) (msg : Message)
    : option (@ServerCall ReqHandle) :=
  if Meta.simple_app (meta msg) then Some (CallSimpleApp msg) else
  let m := KVMeta.mk (Meta.head (meta msg)) (Meta.push (meta msg))
             (Meta.sender (meta msg)) (Meta.timestamp (meta msg))
             (Meta.customer_id (meta msg)) in
  let n := length (data msg) in
  kvs ←
    (if decide (n ≠ 0%nat) then
       if decide (2 ≤ n)%nat then
         match data msg with
         | d0 :: d1 :: rest =>
             if decide (2 < n)%nat then
               if decide (n = 3%nat) then
                 match rest with
                 | d2 :: _ =>
                     if decide (length (lens_of_seg d2) = length (keys_of_seg d0))
                     then Some (mkKVPairs (keys_of_seg d0) (vals_of_seg d1)
                                  (lens_of_seg d2))
                     else None
                 | [] => None
                 end
               else None
             else Some (mkKVPairs (keys_of_seg d0) (vals_of_seg d1) [])
         | _ => None
         end
       else None
     else Some empty_kv);
  h ← request_handle_;
  Some (CallRequestHandle h m kvs).

End Worker.



(** ** Vocabulary of the properties *)

(** The sum of a list of lengths. *)
Definition Zsum (l : list Z) : Z := foldr Z.add 0 l.

Section Vocabulary.
Context {Val : Type}.

(** The sum of a size over the active shards. *)
Definition sum_active (f : KVPairs Val → nat) (sliced : SlicedKVs Val) : nat :=
  sum_list ((λ s : bool * KVPairs Val, if s.1 then f s.2 else 0%nat) <$> sliced).

(** The value block of the [i]-th pair of a key-value list: [k] values from
    [i * k] on when [lens] is empty, and [lens[i]] values from
    [lens[0] + ... + lens[i-1]] on otherwise. *)
Definition block_of (send : KVPairs Val) (i : nat) : list Val :=
  if decide (lens send = []) then
    let k := (length (vals send) / length (keys send))%nat in
    take k (drop (i * k) (vals send))
  else
    take (Z.to_nat (lens send !!! i))
         (drop (Z.to_nat (Zsum (take i (lens send)))) (vals send)).

(** The input positions below [m] that are congruent to [s]. *)
Definition positions_of (num_servers s m : nat) : list nat :=
  filter (λ i, (i `mod` num_servers)%nat = s) (seq 0 m).

(** The pairs of a key-value list at the positions [is], in that order. *)
Definition select (send : KVPairs Val) (positions : list nat) : KVPairs Val :=
  mkKVPairs ((λ i, keys send !!! i) <$> positions)
            (concat (block_of send <$> positions))
            (if decide (lens send = []) then []
             else (λ i, lens send !!! i) <$> positions).

(** The shard of server [s] by position: the pairs at the positions
    congruent to [s]. *)
Definition shard_by_position (num_servers : nat) (send : KVPairs Val)
    (s : nat) : bool * KVPairs Val :=
  let positions := positions_of num_servers s (length (keys send)) in
  (bool_decide (positions ≠ []), select send positions).

(** The state of the slicing loop of the modulo slicer after [m]
    iterations. *)
Definition ModSlicer_state (n : nat) (send : KVPairs Val) (m : nat)
    : SlicedKVs Val :=
  (λ s, (bool_decide (positions_of n s m ≠ []),
         select send (positions_of n s m))) <$> seq 0 n.

(** A shard and the keys it should hold: it is active when there are
    some, and default-constructed when there are none. *)
Definition shard_holds (ks : list Key) (sh : bool * KVPairs Val) : Prop :=
  sh.1 = bool_decide (ks ≠ []) ∧ keys sh.2 = ks ∧ (ks = [] → sh.2 = empty_kv).

End Vocabulary.

(** The keys that the range slicer gives to the servers of [rs], from the
    keys [rest] that are left: each server takes the leading keys below the
    end of its range. *)
Fixpoint range_shards (rest : list Key) (rs : list Range) : list (list Key) :=
  match rs with
  | [] => []
  | r :: rs' =>
      let len := lower_bound rest (end_ r) in
      take len rest :: range_shards (drop len rest) rs'
  end.

Section Preconditions.
Context {Val : Type}.

(** The shape that the slicers check or rely on: without [lens] the values
    divide evenly among the keys; with [lens] there is one length for each
    key, no length is negative, and the lengths do not add up to more than
    the values that are there. *)
Definition sliceable (send : KVPairs Val) : Prop :=
  if decide (lens send = []) then
    (length (vals send) `mod` length (keys send))%nat = 0%nat
  else
    length (keys send) = length (lens send)
    ∧ Forall (λ l, 0 ≤ l) (lens send)
    ∧ Zsum (lens send) ≤ Z.of_nat (length (vals send)) < 2 ^ 64.

(** [ranges[i-1].end() == ranges[i].begin()] for every [i]. *)
Definition adjacent (ranges : list Range) : Prop :=
  ∀ i r r', ranges !! i = Some r → ranges !! S i = Some r' → end_ r = begin r'.

(** The ranges touch and every key lies between the beginning of the
    first and the end of the last. *)
Definition ranges_cover (ranges : list Range) (ks : list Key) : Prop :=
  adjacent ranges
  ∧ match ranges with
    | [] => ks = []
    | r0 :: _ => Forall (λ k, begin r0 ≤ k) ks
    end
  ∧ ∀ r, last ranges = Some r → Forall (λ k, k < end_ r) ks.

(** The preconditions on a key-value list in the words of the
    specification: the keys are unique and increase, the values divide
    evenly among the keys when there are no lengths, and there is one
    length for each key otherwise. *)
Definition KVPairs_precondition (send : KVPairs Val) : Prop :=
  StronglySorted Z.lt (keys send)
  ∧ (lens send = [] →
     (length (vals send) `mod` length (keys send))%nat = 0%nat)
  ∧ (lens send ≠ [] → length (lens send) = length (keys send)).

End Preconditions.

(** ** Vocabulary of the reassembly *)

Section Reassembly.
Context {Val : Type}.

(** The answer of a server to a pull of the keys [ks], when [block k] is
    the value it holds for the key [k]: the keys, their blocks end to end
    and, when [with_lens], the length of each block. *)
Definition response (block : Key → list Val) (with_lens : bool)
    (ks : list Key) : KVPairs Val :=
  mkKVPairs ks (concat (block <$> ks))
    (if with_lens then (λ k, Z.of_nat (length (block k))) <$> ks else []).

(** The shards that are sent. *)
Definition active_shards (sliced : SlicedKVs Val) : list (KVPairs Val) :=
  snd <$> filter (λ sh : bool * KVPairs Val, sh.1 = true) sliced.

(** The order that the fragments are sorted by. *)
Definition front_lt (a b : KVPairs Val) : Prop := front a < front b.

(** What the range policy checks on one fragment. *)
Definition range_fragment_ok (ks : list Key) (want_lens : bool)
    (s : KVPairs Val) : Prop :=
  ∃ first_key last_key,
    head (keys s) = Some first_key ∧ last (keys s) = Some last_key
    ∧ Range_size (FindRange ks first_key (wrap64 (last_key + 1)))
      = Z.of_nat (length (keys s))
    ∧ (want_lens = true → length (lens s) = length (keys s)).

(** The keys of the fragment [s] among the first [i] keys of the caller:
    what the cursor walk has consumed of [s] after [i] iterations. *)
Definition consumed (ks : list Key) (i : nat) (s : KVPairs Val) : list Key :=
  filter (λ k, k ∈ keys s) (take i ks).

(** The lengths of the blocks of some keys. *)
Definition block_lens (block : Key → list Val) (ks : list Key) : list Z :=
  (λ k, Z.of_nat (length (block k))) <$> ks.

(** The state of the modulo merge after [i] iterations over the fragments
    [kvs]: the cursors count the consumed keys and their values, and the
    buffers hold the blocks and the lengths of the first [i] keys. *)
Definition ModMerge_state (block : Key → list Val) (ks : list Key)
    (kvs : list (KVPairs Val)) (buf : list Val) (lbuf : option (list Z))
    (i : nat) : ModMerge :=
  let written := concat (block <$> take i ks) in
  mkModMerge
    ((λ s, length (consumed ks i s)) <$> kvs)
    ((λ s, length (concat (block <$> consumed ks i s))) <$> kvs)
    (mkPullOut (written ++ drop (length written) buf) (length written)
       ((λ lb, block_lens block (take i ks) ++ drop i lb) <$> lbuf)
       (match lbuf with Some _ => i | None => 0%nat end)).

(** What the cursor walk needs of a fragment: it answers its keys with
    their blocks, its keys are keys of the caller in the caller's order,
    and the blocks have one length when the fragment carries no lengths,
    and lengths that fit [size_t] otherwise. *)
Definition walk_fragment_ok (block : Key → list Val) (with_lens : bool)
    (ks : list Key) (s : KVPairs Val) : Prop :=
  s = response block with_lens (keys s)
  ∧ keys s ≠ []
  ∧ keys s = filter (λ k, k ∈ keys s) ks
  ∧ if with_lens
    then Forall (λ k, Z.of_nat (length (block k)) < 2 ^ 64) (keys s)
    else ∃ len, Forall (λ k, length (block k) = len) (keys s).

(** What the modulo policy checks on one fragment. *)
Definition mod_fragment_ok (n : nat) (ks : list Key) (s : KVPairs Val) : Prop :=
  ∃ k0, keys s !! 0%nat = Some k0
    ∧ length (keys s)
      = length (filter (λ k, k `mod` Z.of_nat n = k0 `mod` Z.of_nat n) ks).

End Reassembly.

(** ** The scenarios of the specification *)

(** Three servers that own [[0,10)], [[10,20)] and [[20,30)]. *)
Definition range3 : list Range := [mkRange 0 10; mkRange 10 20; mkRange 20 30].


(** A worker of the scenarios: values are integers, a data segment is the
    array it was made from, the request 0 has just been issued with the
    user callback 7. *)
Definition scenario_worker : @Worker Z (list Z) nat :=
  mkWorker 1 {[0 := 0]} ∅ {[0 := UserCb 7%nat]} [] ∅.

(** A response without payload to the request [ts], as a server sends it
    for a push. *)
Definition push_response (ts : Z) (sender : Z) : @Message (list Z) :=
  mkMessage (Meta.mk 0 0 false true 0 ts 9 sender false) [].

(** The batch of an empty push. *)
Definition empty_batch : KVPairs Z := mkKVPairs [] [] [].

(** * The rest of the key-value application *)

(** ** The server's answer, [KVServer::Response] *)

Section Server.
Context {Val Segment : Type}.
Variable seg_of_keys : list Key → Segment.
Variable seg_of_vals : list Val → Segment.
Variable seg_of_lens : list Z → Segment.

(** [obj_->app_id()] of the server's [Customer]. *)
Variable obj_app_id : Z.

(** [Response] does not write [sender]: the field keeps what the constructor
    of [Meta], declared in ps/internal/message.h, gave it. *)
Variable Meta_sender_default : Z.

(** [KVServer::Response]: the message that it hands to [Van::Send]. *)
Definition KVServer_Response (req : KVMeta.t) (res : KVPairs Val)
    : @Message Segment :=
  mkMessage
    (Meta.mk obj_app_id (KVMeta.customer_id req) false (KVMeta.push req)
             (KVMeta.cmd req) (KVMeta.timestamp req) (KVMeta.sender req)
             Meta_sender_default false)
    (kv_data seg_of_keys seg_of_vals seg_of_lens res).

End Server.

(** ** The example handle, [KVServerDefaultHandle] *)

Section DefaultHandle.
Context {Val : Type}.

(** [Val()] and [operator+=] of the value type. *)
Variable Val_zero : Val.
Variable Val_add : Val → Val → Val.

(** [store[key]] as a value: [operator[]] of the map inserts [Val()] for a
    key that is not there. *)
Definition store_ref (store : gmap Key Val) (key : Key) : Val :=
  default Val_zero (store !! key).

(** The body of the loop at [i]; the state is [store] and [res].  A read or
    a write past the end of an array is undefined in the source and a fatal
    failure here. *)
Definition KVServerDefaultHandle_body (push : bool) (req_data : KVPairs Val)
    (st : gmap Key Val * KVPairs Val) (i : nat)
    : option (gmap Key Val * KVPairs Val) :=
  key ← keys req_data !! i;
  if push then
    v ← vals req_data !! i;
    Some (<[key := Val_add (store_ref st.1 key) v]> st.1, st.2)
  else
    if decide (i < length (vals st.2))%nat then
      Some (<[key := store_ref st.1 key]> st.1,
            mkKVPairs (keys st.2) (<[i := store_ref st.1 key]> (vals st.2))
                      (lens st.2))
    else None.

(** [KVServerDefaultHandle::operator()]: the result is the store and the
    [res] that the handle passes to [server->Response]. *)
Definition KVServerDefaultHandle (req_meta : KVMeta.t) (req_data : KVPairs Val)
    (store : gmap Key Val) : option (gmap Key Val * KVPairs Val) :=
  let n := length (keys req_data) in
  res ← (if KVMeta.push req_meta then
           if decide (n = length (vals req_data)) then Some empty_kv else None
         else Some (mkKVPairs (keys req_data) (replicate n Val_zero) []));
  for_loop (KVServerDefaultHandle_body (KVMeta.push req_meta) req_data) 0 n
           (store, res).

(** The values that a request carries for [key], in the order of the
    request. *)
Definition pushed_to (req_data : KVPairs Val) (key : Key) : list Val :=
  snd <$> filter (λ kv : Key * Val, kv.1 = key)
                 (zip (keys req_data) (vals req_data)).

End DefaultHandle.

(** ** The two halves of the worker's receive path *)

Section Receive.
Context {Val Segment UserCallback : Type}.
Variable keys_of_seg : Segment → list Key.
Variable vals_of_seg : Segment → list Val.
Variable lens_of_seg : Segment → list Z.

(** The first half of [KVWorker::Process] on a message that is not a
    simple-app message: the data of an answer to a pull are stored for its
    timestamp, after those that are stored already. *)
Definition Process_store (msg : @Message Segment)
    (w : @Worker Val Segment UserCallback)
    : option (@Worker Val Segment UserCallback) :=
  let ts := Meta.timestamp (meta msg) in
  if negb (Meta.push (meta msg)) && bool_decide (length (data msg) ≠ 0%nat) then
    match data msg with
    | d0 :: d1 :: rest =>
        let kvs := mkKVPairs (keys_of_seg d0) (vals_of_seg d1)
                     (match rest with d2 :: _ => lens_of_seg d2 | [] => [] end) in
        Some (mkWorker (next_timestamp w) (tracker w)
                (<[ts := default [] (recv_kvs_ w !! ts) ++ [kvs]]> (recv_kvs_ w))
                (callbacks_ w) (log w) (filled w))
    | _ => None
    end
  else Some w.

(** The first half of [Process] on the messages [msgs], one after the
    other. *)
Fixpoint Process_store_all (msgs : list (@Message Segment))
    (w : @Worker Val Segment UserCallback)
    : option (@Worker Val Segment UserCallback) :=
  match msgs with
  | [] => Some w
  | msg :: msgs' => w1 ← Process_store msg w; Process_store_all msgs' w1
  end.

(** The key-value list that [Process] reads from a message with two or
    more data segments. *)
Definition received_kvs (msg : @Message Segment) : KVPairs Val :=
  match data msg with
  | d0 :: d1 :: rest =>
      mkKVPairs (keys_of_seg d0) (vals_of_seg d1)
                (match rest with d2 :: _ => lens_of_seg d2 | [] => [] end)
  | _ => empty_kv
  end.

(** The fragments that [Process] stores for [ts] from the messages [msgs],
    in their order: those of the answers to a pull that carry data. *)
Definition fragments_of (ts : Z) (msgs : list (@Message Segment))
    : list (KVPairs Val) :=
  received_kvs
  <$> filter (λ m, Meta.timestamp (meta m) = ts ∧ Meta.push (meta m) = false
                   ∧ data m ≠ []) msgs.

(** The messages [msgs] up to and with the [k]-th response to [ts]; all of
    them when there are fewer. *)
Fixpoint until_response (ts : Z) (k : nat) (msgs : list (@Message Segment))
    : list (@Message Segment) :=
  match k, msgs with
  | S k', m :: msgs' =>
      m :: until_response ts
             (if decide (Meta.timestamp (meta m) = ts) then k' else k) msgs'
  | _, _ => []
  end.

(** [Val()], the value of [PS_SLICER] and the number of servers. *)
Variable Val_zero : Val.
Variable slicer_kind : Z.
Variable num_servers : nat.

(** The callback [c] does not fail when it runs on the fragments [kvs]: a
    user callback is user code, and the closure of a pull has a buffer for
    the values and passes its checks. *)
Definition Callback_passes (c : @Callback Val UserCallback)
    (kvs : list (KVPairs Val)) : Prop :=
  match c with
  | UserCb _ => True
  | PullCb ks vals lens _ =>
      ∃ vals_buf, vals = Some vals_buf
        ∧ is_Some (Pull_callback Val_zero slicer_kind num_servers ks kvs
                     vals_buf lens)
  end.

(** The state of the worker as far as the completion of [ts] goes, while
    the responses to [ts] come in: [k] responses are still due before the
    callback [c] runs, on the fragments that are stored and those that the
    next messages bring; or the callback has run ([k = 0]). *)
Definition delivery_state (ts : Z) (c : @Callback Val UserCallback) (k : nat)
    (msgs : list (@Message Segment)) (w : @Worker Val Segment UserCallback)
    : Prop :=
  match k with
  | O => callbacks_ w !! ts = None
  | S _ =>
      NumResponse ts w = Z.of_nat num_servers - Z.of_nat k
      ∧ callbacks_ w !! ts = Some c
      ∧ ((k ≤ responses_to ts msgs)%nat →
         Callback_passes c (default [] (recv_kvs_ w !! ts)
                            ++ fragments_of ts (until_response ts k msgs)))
  end.

(** The other requests that the messages answer have user callbacks. *)
Definition others_user (ts : Z) (msgs : list (@Message Segment))
    (w : @Worker Val Segment UserCallback) : Prop :=
  ∀ m c', m ∈ msgs → Meta.timestamp (meta m) ≠ ts →
    callbacks_ w !! Meta.timestamp (meta m) = Some c' → ∃ u, c' = UserCb u.

End Receive.

(** ** Vocabulary of the further properties *)

Section Vocabulary2.
Context {Val : Type}.

(** The shards of consecutive runs of a key-value list: the run of
    [pieces[0]] starts at position [p], each run has the length of its
    piece, and an empty run gives an inactive, default-constructed
    shard. *)
Fixpoint run_shards (send : KVPairs Val) (p : nat) (pieces : list (list Key))
    : SlicedKVs Val :=
  match pieces with
  | [] => []
  | piece :: pieces' =>
      (if decide (piece = []) then (false, empty_kv)
       else (true, select send (seq p (length piece))))
      :: run_shards send (p + length piece) pieces'
  end.

End Vocabulary2.

Section Requests.
Context {Val Segment : Type}.
Variable seg_of_keys : list Key → Segment.
Variable seg_of_vals : list Val → Segment.
Variable seg_of_lens : list Z → Segment.
Variable keys_of_seg : Segment → list Key.
Variable vals_of_seg : Segment → list Val.
Variable lens_of_seg : Segment → list Z.
Variable ServerRankToID : nat → Z.
Variable my_node_id : Z.
Variable obj_app_id : Z.
Variable obj_customer_id : Z.

(** One request for each active shard of a sliced vector, in the order of
    the server ranks. *)
Definition requests_of (ts : Z) (push : bool) (cmd : Z)
    (sliced : SlicedKVs Val) : list (@Message Segment) :=
  concat (imap (λ i (s : bool * KVPairs Val),
                  if s.1
                  then [request_msg seg_of_keys seg_of_vals seg_of_lens
                          ServerRankToID my_node_id obj_app_id obj_customer_id
                          ts push cmd i s.2]
                  else []) sliced).

(** The typed views of a data segment give back the array that the segment
    was made from. *)
Definition segments_round_trip : Prop :=
  (∀ l, keys_of_seg (seg_of_keys l) = l)
  ∧ (∀ l, vals_of_seg (seg_of_vals l) = l)
  ∧ (∀ l, lens_of_seg (seg_of_lens l) = l).

(** A server whose request handle answers a pull with the blocks that it
    holds for the keys of the request: what it sends back for the message
    [msg], through [KVServer::Process] and [KVServer::Response]. *)
Definition server_answer (server_app_id sender_default : Z)
    (block : Key → list Val) (with_lens : bool) (msg : @Message Segment)
    : option (@Message Segment) :=
  match KVServer_Process keys_of_seg vals_of_seg lens_of_seg (Some ()) msg with
  | Some (CallRequestHandle _ req_meta req_data) =>
      Some (KVServer_Response seg_of_keys seg_of_vals seg_of_lens
              server_app_id sender_default req_meta
              (response block with_lens (keys req_data)))
  | _ => None
  end.

End Requests.

(** * The stress test, [tests/stress_test_benchmark.cc] *)

(** The macros [DIVUP] and [ROUNDUP] on [size_t] operands, as
    [aligned_memory_alloc] uses them; a division by zero is undefined in the
    source and a fatal failure here. *)
Definition DIVUP (x y : Z) : option Z :=
  if decide (y = 0) then None else Some (wrap64 (wrap64 (x + y) - 1) / y).

Definition ROUNDUP (x y : Z) : option Z :=
  d ← DIVUP x y; Some (wrap64 (d * y)).

(** The conversion of a [size_t] to [int]: the low 32 bits, read as a
    signed number. *)
Definition int_of_size_t (z : Z) : Z := (z + 2 ^ 31) `mod` 2 ^ 32 - 2 ^ 31.

(** [size_aligned] of [aligned_memory_alloc(ptr, size)], where [page_size]
    is [sysconf(_SC_PAGESIZE)]: the number of bytes that it asks
    [posix_memalign] for, before it writes [size] bytes. *)
Definition size_aligned (size page_size : Z) : option Z :=
  r ← ROUNDUP size page_size; Some (int_of_size_t r).

(** An [int] result; signed overflow is undefined in the source and a fatal
    failure here. *)
Definition int_checked (z : Z) : option Z :=
  if decide (- 2 ^ 31 ≤ z < 2 ^ 31) then Some z else None.

(** [enum COMM_TYPE]: [SCATTER] and [GATHER] are the same value. *)
Definition SCATTER : Z := 0.
Definition GATHER : Z := 0.
Definition DATA_SCATTER : Z := 1.
Definition DENSE : Z := 2.

(** [GetKeyIndex]; the [default] of the [switch] is [CHECK(0)]. *)
Definition GetKeyIndex (type global_session_rank tgt_global_gpu_id
    global_gpu_size num_servers : Z) : option Z :=
  if decide (type = SCATTER) then
    m ← int_checked (global_session_rank * global_gpu_size);
    int_checked (m + tgt_global_gpu_id)
  else if decide (type = DATA_SCATTER) then
    m ← int_checked (global_session_rank * global_gpu_size);
    int_checked (m + tgt_global_gpu_id)
  else if decide (type = DENSE) then
    m ← int_checked (global_session_rank * num_servers);
    int_checked (m + tgt_global_gpu_id)
  else None.

Section FloatSum.
Context {Float : Type}.

(** The addition of two [float]s. *)
Variable float_add : Float → Float → Float.

(** The body of the loop of [float_sum] at [i]; an access past the end of
    an array is undefined in the source and a fatal failure here. *)
Definition float_sum_body (src : list Float) (dst : list Float) (i : nat)
    : option (list Float) :=
  x ← dst !! i; y ← src !! i; Some (<[i := float_add x y]> dst).

(** [float_sum(dst, src, len)]: [len] counts bytes and [sizeof(float)] is
    4.  The result is the array [dst]. *)
Definition float_sum (dst src : list Float) (len : nat)
    : option (list Float) :=
  if decide (len = 0%nat) then Some dst
  else for_loop (float_sum_body src) 0 (len / 4) dst.

End FloatSum.

(** * Properties *)

(** ** Arrays and loops *)

Lemma for_loop_snoc {S} (body : S → nat → option S) count start st :
  for_loop body start (Datatypes.S count) st
  = for_loop body start count st ≫= λ st', body st' (start + count)%nat.
Proof.
  revert start st. induction count as [|c IH]; intros start st.
  - simpl. rewrite Nat.add_0_r. by destruct (body st start).
  - change (for_loop body start (Datatypes.S (Datatypes.S c)) st)
      with (body st start ≫= for_loop body (Datatypes.S start) (Datatypes.S c)).
    change (for_loop body start (Datatypes.S c) st)
      with (body st start ≫= for_loop body (Datatypes.S start) c).
    destruct (body st start) as [st1|]; [|done].
    change (for_loop body (Datatypes.S start) (Datatypes.S c) st1
            = for_loop body (Datatypes.S start) c st1
              ≫= λ st', body st' (start + Datatypes.S c)%nat).
    rewrite IH. by replace (Datatypes.S start + c)%nat with (start + Datatypes.S c)%nat by lia.
Qed.

Lemma segment_Some {A} (l : list A) (b e : Z) x :
  segment l b e = Some x →
  0 ≤ b ∧ b ≤ e ∧ e ≤ Z.of_nat (length l)
  ∧ x = take (Z.to_nat (e - b)) (drop (Z.to_nat b) l).
Proof.
  unfold segment. destruct (decide _) as [(? & ? & ?)|]; [|done].
  intros [= <-]. done.
Qed.

Lemma segment_nat {A} (l : list A) (p q : nat) x :
  segment l (Z.of_nat p) (Z.of_nat q) = Some x →
  (p ≤ q ≤ length l)%nat ∧ x = take (q - p) (drop p l).
Proof.
  intros (? & ? & ? & ->)%segment_Some. split; [lia|].
  by rewrite Nat2Z.id, <- Nat2Z.inj_sub, Nat2Z.id by lia.
Qed.

Lemma segment_is_Some {A} (l : list A) (b e : Z) :
  0 ≤ b → b ≤ e → e ≤ Z.of_nat (length l) →
  segment l b e = Some (take (Z.to_nat (e - b)) (drop (Z.to_nat b) l)).
Proof. intros. unfold segment. by rewrite decide_True. Qed.

Lemma segment_length {A} (l : list A) (b e : Z) x :
  segment l b e = Some x → Z.of_nat (length x) = e - b.
Proof.
  intros (? & ? & ? & ->)%segment_Some.
  rewrite length_take, length_drop. lia.
Qed.

Lemma wrap64_range z : 0 ≤ wrap64 z < 2 ^ 64.
Proof. unfold wrap64. apply Z.mod_pos_bound. lia. Qed.

Lemma wrap64_small z : 0 ≤ z < 2 ^ 64 → wrap64 z = z.
Proof. intros. unfold wrap64. by apply Z.mod_small. Qed.

Lemma wrap64_add_no_wrap a l :
  0 ≤ a < 2 ^ 64 → 0 ≤ l < 2 ^ 64 → a ≤ wrap64 (a + l) →
  wrap64 (a + l) = a + l.
Proof.
  intros Ha Hl Hle. destruct (decide (a + l < 2 ^ 64)) as [Hlt|Hge].
  - apply wrap64_small. lia.
  - assert (wrap64 (a + l) = a + l - 2 ^ 64) as Hw; [|lia].
    unfold wrap64. symmetry. apply (Z.mod_unique_pos _ _ 1); lia.
Qed.

Lemma Zsum_app l1 l2 : Zsum (l1 ++ l2) = Zsum l1 + Zsum l2.
Proof. unfold Zsum. induction l1 as [|x l1 IH]; simpl; lia. Qed.

Lemma Zsum_nonneg l : Forall (λ x, 0 ≤ x) l → 0 ≤ Zsum l.
Proof. unfold Zsum. induction 1; simpl; lia. Qed.

Lemma Zsum_take_S l i x :
  l !! i = Some x → Zsum (take (S i) l) = Zsum (take i l) + x.
Proof.
  intros Hx. rewrite (take_S_r _ _ _ Hx), Zsum_app. unfold Zsum. simpl. lia.
Qed.

Lemma Zsum_take_le l i :
  Forall (λ x, 0 ≤ x) l → Zsum (take i l) ≤ Zsum l.
Proof.
  intros Hl. rewrite <- (take_drop i l) at 2. rewrite Zsum_app.
  assert (0 ≤ Zsum (drop i l)); [|lia].
  apply Zsum_nonneg. by apply Forall_drop.
Qed.

Lemma sum_list_fmap_alter {A} (f : A → nat) (g : A → A) (d : nat) l j :
  (j < length l)%nat → (∀ x, f (g x) = (f x + d)%nat) →
  sum_list (f <$> alter g j l) = (sum_list (f <$> l) + d)%nat.
Proof.
  intros Hj Hg. revert j Hj. induction l as [|x l IH]; intros j Hj; simpl in *.
  - lia.
  - destruct j as [|j]; csimpl.
    + rewrite Hg. lia.
    + rewrite IH by lia. lia.
Qed.

Lemma segment_nat_is_Some {A} (l : list A) (p q : nat) :
  (p ≤ q ≤ length l)%nat →
  segment l (Z.of_nat p) (Z.of_nat q) = Some (take (q - p) (drop p l)).
Proof.
  intros. rewrite segment_is_Some by lia.
  by rewrite Nat2Z.id, <- Nat2Z.inj_sub, Nat2Z.id by lia.
Qed.

Lemma Zsum_take_add l n m :
  Zsum (take (n + m) l) = Zsum (take n l) + Zsum (take m (drop n l)).
Proof. by rewrite <- take_take_drop, Zsum_app. Qed.

Lemma foldl_wrap64 ls vb :
  Forall (λ l, 0 ≤ l) ls → 0 ≤ vb → vb + Zsum ls < 2 ^ 64 →
  foldl (λ ve l, wrap64 (ve + l)) vb ls = vb + Zsum ls.
Proof.
  intros Hls. revert vb. induction Hls as [|l ls Hl Hls IH]; intros vb Hvb Hlt.
  - unfold Zsum. simpl. lia.
  - change (Zsum (l :: ls)) with (l + Zsum ls) in *.
    pose proof (Zsum_nonneg _ Hls).
    simpl. rewrite wrap64_small by lia. rewrite IH by lia. lia.
Qed.

(** ** The modulo slicer *)

Section ModSlicer_properties.
Context {Val : Type}.
Implicit Types (send : KVPairs Val) (sliced : SlicedKVs Val).

Lemma positions_of_S n s m :
  positions_of n s (S m)
  = positions_of n s m ++ (if decide ((m `mod` n)%nat = s) then [m] else []).
Proof.
  unfold positions_of. by rewrite seq_S, filter_app.
Qed.

Lemma select_nil send : select send [] = empty_kv.
Proof. unfold select, empty_kv. simpl. by destruct (decide _). Qed.

Lemma select_snoc send positions i key :
  keys send !! i = Some key →
  select send (positions ++ [i])
  = mkKVPairs (keys (select send positions) ++ [key])
              (vals (select send positions) ++ block_of send i)
              (lens (select send positions)
               ++ (if decide (lens send = []) then [] else [lens send !!! i])).
Proof.
  intros Hkey. unfold select. simpl. rewrite !fmap_app, concat_app. simpl.
  rewrite (list_lookup_total_correct _ _ _ Hkey), app_nil_r.
  by destruct (decide _).
Qed.

Lemma ModSlicer_state_0 n send :
  ModSlicer_state n send 0 = replicate n (false, empty_kv).
Proof.
  unfold ModSlicer_state. apply list_eq. intros s.
  rewrite list_lookup_fmap. destruct (decide (s < n)%nat) as [Hs|Hs].
  - rewrite lookup_seq_lt, lookup_replicate_2 by done. simpl.
    unfold positions_of. simpl. by rewrite select_nil.
  - rewrite lookup_seq_ge by lia.
    rewrite lookup_ge_None_2; [done|]. rewrite length_replicate. lia.
Qed.

Lemma ModSlicer_state_S n send m key :
  n ≠ 0%nat → keys send !! m = Some key →
  alter (push_shard key (block_of send m)
           (if decide (lens send = []) then [] else [lens send !!! m]))
        (m `mod` n)%nat (ModSlicer_state n send m)
  = ModSlicer_state n send (S m).
Proof.
  intros Hn Hkey. unfold ModSlicer_state. apply list_eq. intros s.
  destruct (decide (s < n)%nat) as [Hs|Hs].
  - destruct (decide ((m `mod` n)%nat = s)) as [Heq|Hne].
    + subst s. rewrite list_lookup_alter_eq, !list_lookup_fmap.
      rewrite (lookup_seq_lt _ _ _ Hs). simpl.
      rewrite positions_of_S.
      destruct (decide ((m `mod` n)%nat = (m `mod` n)%nat)) as [_|]; [|done].
      unfold push_shard. simpl.
      rewrite (select_snoc _ _ _ _ Hkey). f_equal.
      rewrite bool_decide_true; [done|].
      by destruct (positions_of n (m `mod` n) m).
    + rewrite list_lookup_alter_ne by done. rewrite !list_lookup_fmap.
      rewrite (lookup_seq_lt _ _ _ Hs). simpl.
      rewrite positions_of_S.
      destruct (decide ((m `mod` n)%nat = s)) as [|_]; [done|].
      by rewrite app_nil_r.
  - rewrite (lookup_ge_None_2 (alter _ _ _)), (lookup_ge_None_2 (_ <$> _));
      [done|..]; rewrite ?length_alter, !length_fmap, length_seq; lia.
Qed.

(** The invariant of the slicing loop: after [m] iterations every shard
    holds the pairs at its positions below [m]. *)
Lemma ModSlicer_loop_spec n send k m st :
  (lens send = [] → k = (length (vals send) / length (keys send))%nat) →
  Forall (λ l, 0 ≤ l < 2 ^ 64) (lens send) →
  for_loop (ModSlicer_body send n k (length (lens send))) 0 m
    (replicate n (false, empty_kv), 0) = Some st →
  st.1 = ModSlicer_state n send m
  ∧ st.2 = (if decide (lens send = []) then 0 else Zsum (take m (lens send)))
  ∧ 0 ≤ st.2 < 2 ^ 64
  ∧ (m ≠ 0%nat → n ≠ 0%nat)
  ∧ (m ≤ length (keys send))%nat.
Proof.
  intros Hk Hlens. revert st. induction m as [|m IH]; intros st.
  - simpl. intros [= <-]. simpl. rewrite ModSlicer_state_0.
    repeat split; try done; try lia. by destruct (decide _).
  - rewrite for_loop_snoc. simpl.
    destruct (for_loop _ 0 m _) as [[sl vb]|] eqn:Hloop; [|done]. simpl.
    destruct (IH _ eq_refl) as (Hsl & Hvb & Hrange & _ & Hm). simpl in *.
    unfold ModSlicer_body. destruct (decide (n = 0%nat)) as [|Hn]; [done|].
    destruct (keys send !! m) as [key|] eqn:Hkey; [|done]. simpl.
    apply lookup_lt_Some in Hkey as Hlt.
    destruct (decide (length (lens send) ≠ 0%nat)) as [Hl|Hl].
    + destruct (lens send !! m) as [l|] eqn:Hlm; [|done]. simpl.
      destruct (segment _ _ _) as [seg|] eqn:Hseg; [|done]. simpl.
      intros [= <-]. simpl.
      assert (lens send ≠ []) as Hne by (by destruct (lens send)).
      rewrite decide_False in Hvb |- * by done.
      apply segment_Some in Hseg as (_ & Hle & _ & ->).
      assert (0 ≤ l < 2 ^ 64) as Hlr.
      { eapply (Forall_lookup_1 _ _ _ _ Hlens Hlm). }
      pose proof (wrap64_range (vb + l)) as Hwr.
      rewrite wrap64_add_no_wrap in * by done.
      rewrite (Zsum_take_S _ _ _ Hlm), <- Hvb.
      rewrite <- (ModSlicer_state_S n send m key) by done.
      rewrite decide_False by done. subst sl.
      repeat split; try done; try lia.
      rewrite (list_lookup_total_correct _ _ _ Hlm).
      f_equal. f_equal. unfold block_of. rewrite decide_False by done.
      rewrite (list_lookup_total_correct _ _ _ Hlm), <- Hvb.
      f_equal. f_equal. lia.
    + destruct (segment _ _ _) as [seg|] eqn:Hseg; [|done]. simpl.
      intros [= <-]. simpl.
      assert (lens send = []) as He by (destruct (lens send); [done|simpl in *; lia]).
      rewrite decide_True in Hvb |- * by done.
      apply segment_nat in Hseg as (_ & ->).
      rewrite <- (ModSlicer_state_S n send m key) by done.
      rewrite decide_True by done. subst sl.
      repeat split; try done; try lia.
      f_equal. f_equal. unfold block_of. rewrite decide_True by done.
      rewrite <- (Hk He). f_equal. lia.
Qed.

Lemma Zsum_lookup_le l i x :
  Forall (λ x, 0 ≤ x) l → l !! i = Some x → x ≤ Zsum l.
Proof.
  intros Hl Hx. rewrite <- (take_drop_middle _ _ _ Hx), Zsum_app.
  assert (0 ≤ Zsum (take i l)) by (by apply Zsum_nonneg, Forall_take).
  assert (0 ≤ Zsum (drop (S i) l)) by (by apply Zsum_nonneg, Forall_drop).
  change (Zsum (x :: drop (S i) l)) with (x + Zsum (drop (S i) l)). lia.
Qed.

Lemma sliceable_lens_range send :
  sliceable send → Forall (λ l, 0 ≤ l < 2 ^ 64) (lens send).
Proof.
  unfold sliceable. destruct (decide (lens send = [])) as [He|Hne].
  { rewrite He. done. }
  intros (_ & Hl & Hs). apply Forall_lookup_2. intros i x Hx.
  pose proof (Forall_lookup_1 _ _ _ _ Hl Hx). simpl in *.
  pose proof (Zsum_lookup_le _ _ _ Hl Hx). lia.
Qed.

Lemma sliceable_uniform send :
  sliceable send → lens send = [] →
  ((length (vals send) / length (keys send)) * length (keys send))%nat
  = length (vals send).
Proof.
  unfold sliceable. intros Hs He. rewrite decide_True in Hs by done.
  destruct (decide (length (keys send) = 0%nat)) as [H0|H0].
  - rewrite H0 in *. simpl in *. lia.
  - pose proof (Nat.div_mod (length (vals send)) (length (keys send)) H0). lia.
Qed.

(** The slicing loop does not fail on a well-shaped list. *)
Lemma ModSlicer_loop_total n send m :
  n ≠ 0%nat → sliceable send → (m ≤ length (keys send))%nat →
  is_Some (for_loop (ModSlicer_body send n
                       (if decide (lens send = []) then
                          (length (vals send) / length (keys send))%nat
                        else 0%nat)
                       (length (lens send))) 0 m
             (replicate n (false, empty_kv), 0)).
Proof.
  intros Hn Hs. induction m as [|m IH]; intros Hm; [by eexists|].
  rewrite for_loop_snoc. destruct IH as [[sl vb] Hloop]; [lia|].
  rewrite Hloop. simpl.
  apply ModSlicer_loop_spec in Hloop as (_ & Hvb & Hr & _);
    [|by intros ->|by apply sliceable_lens_range]. simpl in *.
  unfold ModSlicer_body. rewrite decide_False by done.
  destruct (lookup_lt_is_Some_2 (keys send) m) as [key ->]; [lia|]. simpl.
  destruct (decide (lens send = [])) as [He|Hne].
  - rewrite He. simpl. pose proof (sliceable_uniform _ Hs He) as Hk.
    rewrite segment_is_Some; [by eexists|lia|nia|].
    assert ((m + 1) * (length (vals send) / length (keys send))
            ≤ length (vals send) / length (keys send) * length (keys send))%nat
      by (rewrite Nat.mul_comm; apply Nat.mul_le_mono_l; lia).
    lia.
  - rewrite decide_True by (by destruct (lens send)).
    unfold sliceable in Hs. rewrite decide_False in Hs by done.
    destruct Hs as (Hlen & Hl & Hsum).
    destruct (lookup_lt_is_Some_2 (lens send) m) as [l Hlm]; [lia|].
    rewrite Hlm. simpl.
    pose proof (Forall_lookup_1 _ _ _ _ Hl Hlm) as Hl0. simpl in Hl0.
    pose proof (Zsum_take_le (lens send) (S m) Hl) as Hle.
    rewrite (Zsum_take_S _ _ _ Hlm), <- Hvb in Hle.
    rewrite wrap64_small by lia.
    rewrite segment_is_Some; [by eexists|lia..].
Qed.

Lemma ModSlicer_returns n send ranges :
  keys send ≠ [] → n = length ranges → n ≠ 0%nat → sliceable send →
  ModSlicer n send ranges = Some (shard_by_position n send <$> seq 0 n).
Proof.
  intros Hkeys Hranges Hn Hs. unfold ModSlicer.
  rewrite decide_True, decide_False by done.
  pose proof (ModSlicer_loop_total n send (length (keys send)) Hn Hs
                ltac:(lia)) as [st Hst].
  destruct (decide (lens send = [])) as [He|Hne].
  - rewrite decide_True by (by apply sliceable_uniform).
    rewrite Hst. simpl. f_equal.
    by apply ModSlicer_loop_spec in Hst as (-> & _);
      [|by intros _|by apply sliceable_lens_range].
  - assert (length (keys send) = length (lens send)) as Hlen.
    { unfold sliceable in Hs. rewrite decide_False in Hs by done. tauto. }
    rewrite decide_True by done. rewrite Hst. simpl. f_equal.
    by apply ModSlicer_loop_spec in Hst as (-> & _);
      [|by intros ?|by apply sliceable_lens_range].
Qed.

Lemma elem_of_positions_of n i m :
  (i < m)%nat → i ∈ positions_of n (i `mod` n) m.
Proof.
  intros Hi. unfold positions_of. apply list_elem_of_filter. split; [done|].
  apply elem_of_seq. lia.
Qed.

(** C9: on a batch with keys, the modulo slicer returns, for every server
    [s], exactly the pairs at the input positions [i] with
    [i mod num_servers = s], in input order, each with its value block; the
    key at position [i] goes to shard [i mod num_servers], whatever its
    value. *)
Theorem ModSlicer_slices_by_position n (send : KVPairs Val) ranges :
  keys send ≠ [] → n = length ranges → n ≠ 0%nat → sliceable send →
  ModSlicer n send ranges = Some (shard_by_position n send <$> seq 0 n)
  ∧ ∀ i key, keys send !! i = Some key →
      ∃ sh, (shard_by_position n send <$> seq 0 n) !! (i `mod` n)%nat = Some sh
            ∧ sh.1 = true ∧ key ∈ keys sh.2.
Proof.
  intros Hkeys Hranges Hn Hs. split; [by apply ModSlicer_returns|].
  intros i key Hkey. eexists. split.
  - rewrite list_lookup_fmap, lookup_seq_lt; [done|].
    by apply Nat.mod_upper_bound.
  - apply lookup_lt_Some in Hkey as Hi.
    pose proof (elem_of_positions_of n i _ Hi) as Hin.
    unfold shard_by_position. simpl. split.
    + apply bool_decide_eq_true. intros Hnil. rewrite Hnil in Hin.
      by apply not_elem_of_nil in Hin.
    + apply list_elem_of_fmap. exists i. split; [|done].
      by rewrite (list_lookup_total_correct _ _ _ Hkey).
Qed.

Lemma sum_active_all (f : KVPairs Val → nat) sliced :
  Forall (λ sh : bool * KVPairs Val, sh.1 = false → f sh.2 = 0%nat) sliced →
  sum_active f sliced = sum_list ((λ sh : bool * KVPairs Val, f sh.2) <$> sliced).
Proof.
  unfold sum_active. induction 1 as [|[[] kv] sliced H0 _ IH]; csimpl in *;
    [done|by rewrite IH|by rewrite IH, H0].
Qed.

Lemma ModSlicer_state_inactive n send m :
  Forall (λ sh : bool * KVPairs Val, sh.1 = false → sh.2 = empty_kv)
         (ModSlicer_state n send m).
Proof.
  apply Forall_fmap, Forall_forall. intros s _. simpl.
  intros Hnil%bool_decide_eq_false. apply dec_stable in Hnil.
  rewrite Hnil. apply select_nil.
Qed.

Lemma ModSlicer_state_length n send m : length (ModSlicer_state n send m) = n.
Proof. unfold ModSlicer_state. by rewrite length_fmap, length_seq. Qed.

Lemma ModSlicer_state_keys_sum n send m :
  n ≠ 0%nat → (m ≤ length (keys send))%nat →
  sum_list ((λ sh : bool * KVPairs Val, length (keys sh.2))
              <$> ModSlicer_state n send m) = m.
Proof.
  intros Hn. induction m as [|m IH]; intros Hm.
  - rewrite ModSlicer_state_0. clear. induction n; csimpl; [done|lia].
  - destruct (lookup_lt_is_Some_2 (keys send) m) as [key Hkey]; [lia|].
    rewrite <- (ModSlicer_state_S n send m key) by done.
    rewrite (sum_list_fmap_alter _ _ 1).
    + rewrite IH; lia.
    + rewrite ModSlicer_state_length. by apply Nat.mod_upper_bound.
    + intros sh. unfold push_shard. simpl. rewrite length_app. simpl. lia.
Qed.

(** The length of a value block of a well-shaped list. *)
Lemma block_of_length send i :
  sliceable send → (i < length (keys send))%nat →
  length (block_of send i)
  = (if decide (lens send = [])
     then (length (vals send) / length (keys send))%nat
     else Z.to_nat (lens send !!! i)).
Proof.
  intros Hs Hi. unfold block_of.
  destruct (decide (lens send = [])) as [He|Hne].
  - pose proof (sliceable_uniform _ Hs He) as Hk.
    rewrite length_take, length_drop.
    assert ((i + 1) * (length (vals send) / length (keys send))
            ≤ length (vals send) / length (keys send) * length (keys send))%nat
      by (rewrite Nat.mul_comm; apply Nat.mul_le_mono_l; lia).
    lia.
  - unfold sliceable in Hs. rewrite decide_False in Hs by done.
    destruct Hs as (Hlen & Hl & Hsum).
    destruct (lookup_lt_is_Some_2 (lens send) i) as [l Hli]; [lia|].
    rewrite (list_lookup_total_correct _ _ _ Hli).
    pose proof (Forall_lookup_1 _ _ _ _ Hl Hli) as Hl0. simpl in Hl0.
    pose proof (Zsum_take_le (lens send) (S i) Hl) as Hle.
    rewrite (Zsum_take_S _ _ _ Hli) in Hle.
    assert (0 ≤ Zsum (take i (lens send)))
      by (by apply Zsum_nonneg, Forall_take).
    rewrite length_take, length_drop. lia.
Qed.

Lemma ModSlicer_state_vals_sum n send m :
  n ≠ 0%nat → sliceable send → (m ≤ length (keys send))%nat →
  sum_list ((λ sh : bool * KVPairs Val, length (vals sh.2))
              <$> ModSlicer_state n send m)
  = (if decide (lens send = [])
     then (m * (length (vals send) / length (keys send)))%nat
     else Z.to_nat (Zsum (take m (lens send)))).
Proof.
  intros Hn Hs. induction m as [|m IH]; intros Hm.
  - rewrite ModSlicer_state_0.
    replace (sum_list _) with 0%nat by (clear; induction n; csimpl; [done|lia]).
    by destruct (decide _).
  - destruct (lookup_lt_is_Some_2 (keys send) m) as [key Hkey]; [lia|].
    rewrite <- (ModSlicer_state_S n send m key) by done.
    rewrite (sum_list_fmap_alter _ _ (length (block_of send m))).
    + rewrite IH, block_of_length by (done || lia).
      destruct (decide (lens send = [])) as [He|Hne]; [lia|].
      unfold sliceable in Hs. rewrite decide_False in Hs by done.
      destruct Hs as (Hlen & Hl & Hsum).
      destruct (lookup_lt_is_Some_2 (lens send) m) as [l Hlm]; [lia|].
      rewrite (list_lookup_total_correct _ _ _ Hlm), (Zsum_take_S _ _ _ Hlm).
      pose proof (Forall_lookup_1 _ _ _ _ Hl Hlm) as Hl0. simpl in Hl0.
      assert (0 ≤ Zsum (take m (lens send)))
        by (by apply Zsum_nonneg, Forall_take).
      lia.
    + rewrite ModSlicer_state_length. by apply Nat.mod_upper_bound.
    + intros sh. unfold push_shard. simpl. by rewrite length_app.
Qed.

(** The modulo slicer covers a well-shaped batch whose lengths add up to
    its values. *)
Lemma ModSlicer_coverage n send ranges :
  n = length ranges → (keys send ≠ [] → n ≠ 0%nat) → sliceable send →
  (lens send ≠ [] → Zsum (lens send) = Z.of_nat (length (vals send))) →
  ∃ sliced, ModSlicer n send ranges = Some sliced
    ∧ sum_active (λ kv, length (keys kv)) sliced = length (keys send)
    ∧ sum_active (λ kv, length (vals kv)) sliced = length (vals send).
Proof.
  intros Hranges Hn Hs Hsum. destruct (decide (keys send = [])) as [He|Hne].
  - exists (replicate n (false, empty_kv)). unfold ModSlicer.
    rewrite !decide_True by done. split; [done|].
    assert (length (vals send) = 0%nat) as ->.
    { unfold sliceable in Hs. rewrite He in *. simpl in *.
      destruct (decide (lens send = [])) as [|Hl]; [done|].
      destruct Hs as (Hlen & _). by destruct (lens send). }
    rewrite He. simpl. unfold sum_active.
    split; clear; induction n; csimpl; done.
  - eexists. split; [by apply ModSlicer_returns; auto|].
    change (shard_by_position n send <$> seq 0 n)
      with (ModSlicer_state n send (length (keys send))).
    rewrite !sum_active_all.
    + rewrite ModSlicer_state_keys_sum, ModSlicer_state_vals_sum by auto.
      split; [done|]. destruct (decide (lens send = [])) as [Hl|Hl].
      * pose proof (sliceable_uniform _ Hs Hl). lia.
      * unfold sliceable in Hs. rewrite decide_False in Hs by done.
        destruct Hs as (Hlen & _). rewrite Hlen, firstn_all, Hsum by done. lia.
    + eapply Forall_impl; [apply ModSlicer_state_inactive|].
      intros sh H ?. by rewrite H.
    + eapply Forall_impl; [apply ModSlicer_state_inactive|].
      intros sh H ?. by rewrite H.
Qed.

(** Without keys the modulo slicer marks every shard inactive. *)
Lemma ModSlicer_empty n send ranges :
  keys send = [] → n = length ranges →
  ModSlicer n send ranges = Some (replicate n (false, empty_kv)).
Proof. intros He Hn. unfold ModSlicer. by rewrite !decide_True. Qed.

End ModSlicer_properties.

(** ** The range slicer *)

Lemma lower_bound_le l x : (lower_bound l x ≤ length l)%nat.
Proof. induction l as [|y l IH]; simpl; [lia|]. destruct (decide _); simpl; lia. Qed.

Lemma lower_bound_take l x : Forall (λ k, k < x) (take (lower_bound l x) l).
Proof.
  induction l as [|y l IH]; simpl; [done|].
  destruct (decide _); simpl; by constructor.
Qed.

Lemma lower_bound_drop l x :
  StronglySorted Z.le l → Forall (λ k, x ≤ k) (drop (lower_bound l x) l).
Proof.
  induction 1 as [|y l Hl IH Hy]; simpl; [done|].
  destruct (decide _); simpl; [done|]. constructor; [lia|].
  eapply Forall_impl; [exact Hy|]. simpl. lia.
Qed.

Lemma lower_bound_all l x :
  Forall (λ k, k < x) l → lower_bound l x = length l.
Proof. induction 1; simpl; [done|]. rewrite decide_True by done. lia. Qed.

Lemma lower_bound_pos l x k :
  StronglySorted Z.le l → k ∈ l → k < x → (0 < lower_bound l x)%nat.
Proof.
  intros Hl Hk Hlt. destruct Hl as [|y l Hl Hy]; [by apply not_elem_of_nil in Hk|].
  simpl. rewrite decide_True; [lia|].
  apply elem_of_cons in Hk as [->|Hk]; [done|].
  pose proof (proj1 (Forall_forall _ _) Hy _ Hk). simpl in *. lia.
Qed.

Lemma StronglySorted_drop {A} (R : relation A) l n :
  StronglySorted R l → StronglySorted R (drop n l).
Proof.
  intros Hl. revert n. induction Hl as [|x l Hl IH Hx]; intros [|n]; simpl;
    [constructor..|apply IH]; done.
Qed.

Lemma StronglySorted_lt_le l : StronglySorted Z.lt l → StronglySorted Z.le l.
Proof.
  induction 1 as [|y l Hl IH Hy]; constructor; [done|].
  eapply Forall_impl; [exact Hy|]. simpl. lia.
Qed.

(** *** The keys of the shards *)

Lemma range_shards_length rest rs : length (range_shards rest rs) = length rs.
Proof. revert rest. induction rs; intros; simpl; auto. Qed.

Lemma range_shards_upper rest rs :
  Forall2 (λ r ks, Forall (λ k, k < end_ r) ks) rs (range_shards rest rs).
Proof.
  revert rest. induction rs as [|r rs IH]; intros rest; simpl; constructor;
    [apply lower_bound_take|apply IH].
Qed.

Lemma adjacent_tail r rs : adjacent (r :: rs) → adjacent rs.
Proof. intros H i r1 r2 H1 H2. by apply (H (S i)). Qed.

Lemma range_shards_lower rest rs :
  StronglySorted Z.le rest → adjacent rs →
  (∀ r, head rs = Some r → Forall (λ k, begin r ≤ k) rest) →
  Forall2 (λ r ks, Forall (λ k, begin r ≤ k) ks) rs (range_shards rest rs).
Proof.
  revert rest. induction rs as [|r rs IH]; intros rest Hs Ha Hb; simpl;
    constructor.
  - by apply Forall_take, Hb.
  - apply IH; [by apply StronglySorted_drop|by eapply adjacent_tail|].
    intros r' Hr'. destruct rs as [|r2 rs]; simplify_eq/=.
    rewrite <- (Ha 0%nat r r' eq_refl eq_refl). by apply lower_bound_drop.
Qed.

(** The shards are consecutive pieces of the keys. *)
Lemma range_shards_concat rest rs :
  ∃ suffix, rest = concat (range_shards rest rs) ++ suffix.
Proof.
  revert rest. induction rs as [|r rs IH]; intros rest; simpl; [by exists rest|].
  destruct (IH (drop (lower_bound rest (end_ r)) rest)) as [suffix Hs].
  exists suffix. rewrite <- app_assoc, <- Hs. by rewrite take_drop.
Qed.

Lemma range_shards_concat_all rest rs r :
  last rs = Some r → Forall (λ k, k < end_ r) rest →
  concat (range_shards rest rs) = rest.
Proof.
  revert rest. induction rs as [|r1 rs IH]; intros rest Hlast Hall; [done|].
  simpl. destruct rs as [|r2 rs].
  - simplify_eq/=. rewrite lower_bound_all by done.
    by rewrite firstn_all, app_nil_r.
  - rewrite IH; [by rewrite take_drop|done|by apply Forall_drop].
Qed.

Lemma range_shards_nil rs : Forall (λ ks, ks = []) (range_shards [] rs).
Proof. induction rs; simpl; constructor; auto. Qed.

Lemma elem_of_concat_lookup {A} (ls : list (list A)) x :
  x ∈ concat ls → ∃ i l, ls !! i = Some l ∧ x ∈ l.
Proof.
  induction ls as [|l ls IH]; simpl; [by intros ?%not_elem_of_nil|].
  intros [Hx|Hx]%elem_of_app.
  - by exists 0%nat, l.
  - destruct (IH Hx) as (i & l' & ? & ?). by exists (S i), l'.
Qed.

Lemma elem_of_concat_2 {A} (ls : list (list A)) i l x :
  ls !! i = Some l → x ∈ l → x ∈ concat ls.
Proof.
  revert i. induction ls as [|l' ls IH]; intros [|i] Hl Hx; simplify_eq/=;
    apply elem_of_app; [by left|right; by eapply IH].
Qed.

Lemma adjacent_cons r r2 rs :
  end_ r = begin r2 → adjacent (r2 :: rs) → adjacent (r :: r2 :: rs).
Proof.
  intros He Ha [|i] r1 r1' H1 H2; simplify_eq/=; [done|].
  by apply (Ha i).
Qed.

(** The boundaries of touching, well-formed ranges increase. *)
Lemma ranges_monotone ranges i j ri rj :
  adjacent ranges → Forall (λ r, begin r ≤ end_ r) ranges →
  ranges !! i = Some ri → ranges !! j = Some rj → (i < j)%nat →
  end_ ri ≤ begin rj.
Proof.
  intros Ha Hwf Hi Hj Hlt. revert rj Hj. induction Hlt as [|j Hlt IH];
    intros rj Hj.
  - by rewrite (Ha i ri rj).
  - destruct (lookup_lt_is_Some_2 ranges j) as [rj' Hj'].
    { apply lookup_lt_Some in Hj. lia. }
    specialize (IH _ Hj'). rewrite <- (Ha j rj' rj) by done.
    pose proof (Forall_lookup_1 _ _ _ _ Hwf Hj'). simpl in *. lia.
Qed.

Lemma range_shards_pos_last rest p prev rs tl :
  DefaultSlicer_pos rest p prev rs = Some tl →
  last (p :: tl) = Some (p + length (concat (range_shards rest rs)))%nat.
Proof.
  revert rest p prev tl. induction rs as [|r rs IH]; intros rest p prev tl Hpos.
  { simpl in *. simplify_eq. simpl. f_equal. lia. }
  simpl in Hpos. destruct (check_adjacent prev r); [|done].
  destruct (DefaultSlicer_pos _ _ _ rs) as [tl'|] eqn:Htl; [|done].
  simplify_eq/=. apply IH in Htl.
  change (last (p :: ?q :: tl')) with (last (q :: tl')). rewrite Htl.
  pose proof (lower_bound_le rest (end_ r)).
  rewrite length_app, length_take. f_equal. lia.
Qed.

Lemma DefaultSlicer_pos_adjacent rest p prev rs tl :
  DefaultSlicer_pos rest p prev rs = Some tl →
  adjacent (option_list prev ++ rs).
Proof.
  revert rest p prev tl. induction rs as [|r rs IH]; intros rest p prev tl Hpos.
  { destruct prev; intros [|i] ????; simplify_eq/=. }
  simpl in Hpos. destruct (check_adjacent prev r) eqn:Hc; [|done].
  destruct (DefaultSlicer_pos _ _ _ rs) as [tl'|] eqn:Htl; [|done].
  apply IH in Htl. destruct prev as [r'|]; [|exact Htl].
  apply adjacent_cons; [|exact Htl]. by apply bool_decide_eq_true in Hc.
Qed.

Section DefaultSlicer_properties.
Context {Val : Type}.
Implicit Types (send : KVPairs Val) (sliced : SlicedKVs Val).

(** *** The position loop *)

Lemma DefaultSlicer_pos_total rest p prev rs :
  adjacent (option_list prev ++ rs) →
  is_Some (DefaultSlicer_pos rest p prev rs).
Proof.
  revert rest p prev. induction rs as [|r rs IH]; intros rest p prev Ha;
    simpl; [by eexists|].
  assert (check_adjacent prev r = true) as ->.
  { destruct prev as [r'|]; simpl; [|done].
    apply bool_decide_eq_true. by apply (Ha 0%nat). }
  assert (adjacent (option_list (Some r) ++ rs)) as Ha'.
  { destruct prev as [r'|]; [|exact Ha]. exact (adjacent_tail r' _ Ha). }
  destruct (IH (drop (lower_bound rest (end_ r)) rest)
              (p + lower_bound rest (end_ r))%nat (Some r) Ha') as [tl ->].
  by eexists.
Qed.

Lemma DefaultSlicer_pos_last rest p prev rs r tl :
  DefaultSlicer_pos rest p prev rs = Some tl →
  last rs = Some r → Forall (λ k, k < end_ r) rest →
  last tl = Some (p + length rest)%nat.
Proof.
  revert rest p prev tl. induction rs as [|r1 rs IH];
    intros rest p prev tl Hpos Hlast Hall; [done|].
  simpl in Hpos. destruct (check_adjacent prev r1); [|done].
  destruct (DefaultSlicer_pos _ _ _ rs) as [tl'|] eqn:Htl; [|done].
  simplify_eq/=. destruct rs as [|r2 rs].
  - simplify_eq/=. by rewrite lower_bound_all.
  - specialize (IH _ _ _ _ Htl Hlast (Forall_drop _ _ _ Hall)).
    pose proof (lower_bound_le rest (end_ r1)).
    rewrite length_drop in IH.
    destruct tl' as [|q tl']; [done|].
    change (last (_ :: q :: tl')) with (last (q :: tl')). rewrite IH.
    f_equal. lia.
Qed.

Lemma DefaultSlicer_pos_nil p prev rs tl :
  DefaultSlicer_pos [] p prev rs = Some tl → tl = replicate (length rs) p.
Proof.
  revert p prev tl. induction rs as [|r rs IH]; intros p prev tl Hpos;
    simpl in *; [by simplify_eq|].
  destruct (check_adjacent prev r); [|done].
  destruct (DefaultSlicer_pos _ _ _ rs) as [tl'|] eqn:Htl; [|done].
  apply IH in Htl. simplify_eq/=. by rewrite Nat.add_0_r.
Qed.

Lemma DefaultSlicer_flags_replicate n p :
  DefaultSlicer_flags (Val:=Val) (p :: replicate n p)
  = replicate n (false, empty_kv).
Proof.
  induction n as [|n IH]; [done|].
  change (DefaultSlicer_flags (p :: replicate (S n) p))
    with ((bool_decide (p ≠ p), empty_kv (Val:=Val))
          :: DefaultSlicer_flags (p :: replicate n p)).
  rewrite IH, bool_decide_false by (by intros []). done.
Qed.

(** *** The slicing loop *)

Lemma DefaultSlicer_slice_one send k p vb :
  DefaultSlicer_slice send k [p] vb = Some [].
Proof. done. Qed.

Lemma DefaultSlicer_slice_cons send k p q tl vb :
  DefaultSlicer_slice send k (p :: q :: tl) vb
  = if decide (q = p) then
      tl ← DefaultSlicer_slice send k (q :: tl) vb;
      Some ((false, empty_kv) :: tl)
    else
      ks ← segment (keys send) (Z.of_nat p) (Z.of_nat q);
      if decide (length (lens send) ≠ 0%nat) then
        ls ← segment (lens send) (Z.of_nat p) (Z.of_nat q);
        let val_end := foldl (λ ve l, wrap64 (ve + l)) vb ls in
        vs ← segment (vals send) vb val_end;
        tl ← DefaultSlicer_slice send k (q :: tl) val_end;
        Some ((true, mkKVPairs ks vs ls) :: tl)
      else
        vs ← segment (vals send) (Z.of_nat (p * k)) (Z.of_nat (q * k));
        tl ← DefaultSlicer_slice send k (q :: tl) vb;
        Some ((true, mkKVPairs ks vs []) :: tl).
Proof. done. Qed.

#[local] Arguments DefaultSlicer_slice : simpl never.
#[local] Arguments DefaultSlicer_flags : simpl never.

Lemma DefaultSlicer_slice_keys send k rs :
  ∀ rest p prev tl vb out,
    DefaultSlicer_pos rest p prev rs = Some tl →
    DefaultSlicer_slice send k (p :: tl) vb = Some out →
    rest = drop p (keys send) →
    Forall2 shard_holds (range_shards rest rs) out.
Proof.
  induction rs as [|r rs IH]; intros rest p prev tl vb out Hpos Hout Hrest.
  { simpl in Hpos. simplify_eq. rewrite DefaultSlicer_slice_one in Hout.
    simplify_eq. constructor. }
  simpl in Hpos. destruct (check_adjacent prev r); [|done].
  destruct (DefaultSlicer_pos _ _ _ rs) as [tl'|] eqn:Htl; [|done].
  simplify_eq/=. rewrite DefaultSlicer_slice_cons in Hout.
  set (len := lower_bound (drop p (keys send)) (end_ r)) in *.
  pose proof (lower_bound_le (drop p (keys send)) (end_ r)) as Hlen.
  fold len in Hlen.
  assert (drop len (drop p (keys send)) = drop (p + len) (keys send)) as Hdrop
    by (by rewrite drop_drop).
  destruct (decide ((p + len)%nat = p)) as [H0|H0].
  - simpl in Hout.
    destruct (DefaultSlicer_slice _ _ _ _) as [out'|] eqn:Hout'; [|done].
    simplify_eq/=. constructor; [|by eapply IH].
    assert (len = 0%nat) as -> by lia. by rewrite take_0.
  - simpl in Hout.
    destruct (segment (keys send) _ _) as [ks|] eqn:Hks; [|done].
    apply segment_nat in Hks as (_ & ->). simpl in Hout.
    replace (p + len - p)%nat with len in * by lia.
    assert (take len (drop p (keys send)) ≠ []) as Hne.
    { intros Hnil%(f_equal length). rewrite length_take in Hnil.
      simpl in Hnil. lia. }
    destruct (decide (length (lens send) ≠ 0%nat)).
    + destruct (segment (lens send) _ _) as [ls|]; [|done]. simpl in Hout.
      destruct (segment (vals send) _ _) as [vs|]; [|done]. simpl in Hout.
      destruct (DefaultSlicer_slice _ _ _ _) as [out'|] eqn:Hout'; [|done].
      simplify_eq/=. constructor; [|by eapply IH].
      split_and!; [by rewrite bool_decide_true|done..].
    + destruct (segment (vals send) _ _) as [vs|]; [|done]. simpl in Hout.
      destruct (DefaultSlicer_slice _ _ _ _) as [out'|] eqn:Hout'; [|done].
      simplify_eq/=. constructor; [|by eapply IH].
      split_and!; [by rewrite bool_decide_true|done..].
Qed.

Lemma range_shards_nil_holds rs :
  Forall2 (shard_holds (Val:=Val)) (range_shards [] rs)
          (replicate (length rs) (false, empty_kv)).
Proof.
  induction rs as [|r rs IH]; simpl; constructor; [|done].
  by split_and!.
Qed.

(** Whatever the range slicer returns holds, server by server, the keys of
    [range_shards]. *)
Lemma DefaultSlicer_Some_keys send ranges sliced :
  DefaultSlicer send ranges = Some sliced →
  Forall2 shard_holds
    (range_shards (drop (DefaultSlicer_pos0 (keys send) ranges) (keys send))
                  ranges)
    sliced.
Proof.
  unfold DefaultSlicer, DefaultSlicer_positions. intros Hs.
  destruct (DefaultSlicer_pos _ _ _ _) as [tl|] eqn:Htl; [|done].
  simpl in Hs. destruct (decide (last _ = _)) as [Hlast|]; [|done].
  destruct (decide (keys send = [])) as [He|Hne].
  - simplify_eq. rewrite He in *. rewrite drop_nil in *.
    apply DefaultSlicer_pos_nil in Htl as ->.
    rewrite DefaultSlicer_flags_replicate. apply range_shards_nil_holds.
  - destruct (decide (lens send = [])).
    + destruct (decide (_ = length (vals send))); [|done].
      by eapply DefaultSlicer_slice_keys.
    + destruct (decide (length (keys send) = _)); [|done].
      by eapply DefaultSlicer_slice_keys.
Qed.

Lemma DefaultSlicer_length send ranges sliced :
  DefaultSlicer send ranges = Some sliced → length sliced = length ranges.
Proof.
  intros Hs%DefaultSlicer_Some_keys%Forall2_length.
  by rewrite range_shards_length in Hs.
Qed.

Lemma DefaultSlicer_pos0_le ks ranges :
  (DefaultSlicer_pos0 ks ranges ≤ length ks)%nat.
Proof. destruct ranges; simpl; [lia|apply lower_bound_le]. Qed.

(** When the range slicer returns, the ranges touch and the shards are all
    the keys from [pos[0]] on. *)
Lemma DefaultSlicer_Some_pos send ranges sliced :
  DefaultSlicer send ranges = Some sliced →
  adjacent ranges
  ∧ concat (range_shards
              (drop (DefaultSlicer_pos0 (keys send) ranges) (keys send)) ranges)
    = drop (DefaultSlicer_pos0 (keys send) ranges) (keys send).
Proof.
  unfold DefaultSlicer, DefaultSlicer_positions. intros Hs.
  destruct (DefaultSlicer_pos _ _ _ _) as [tl|] eqn:Htl; [|done].
  simpl in Hs. destruct (decide (last _ = _)) as [Hlast|]; [|done].
  split; [by apply DefaultSlicer_pos_adjacent in Htl|].
  apply range_shards_pos_last in Htl. rewrite Htl in Hlast.
  pose proof (DefaultSlicer_pos0_le (keys send) ranges) as Hle.
  set (rest := drop _ (keys send)) in *.
  destruct (range_shards_concat rest ranges) as [suffix Hsuf].
  assert (length rest = (length (concat (range_shards rest ranges))
                         + length suffix)%nat) as Hlen
    by (by rewrite Hsuf at 1; rewrite length_app).
  assert (length rest = (length (keys send)
                         - DefaultSlicer_pos0 (keys send) ranges)%nat)
    by (unfold rest; by rewrite length_drop).
  assert (suffix = []) as -> by (apply nil_length_inv; simplify_eq; lia).
  by rewrite app_nil_r in Hsuf.
Qed.

Lemma DefaultSlicer_shard_range send ranges sliced s r sh key :
  StronglySorted Z.le (keys send) →
  DefaultSlicer send ranges = Some sliced →
  ranges !! s = Some r → sliced !! s = Some sh → key ∈ keys sh.2 →
  begin r ≤ key < end_ r.
Proof.
  intros Hsorted Hs Hr Hsh Hkey.
  pose proof (DefaultSlicer_Some_keys _ _ _ Hs) as Hkeys.
  destruct (DefaultSlicer_Some_pos _ _ _ Hs) as [Hadj _].
  set (rest := drop _ (keys send)) in *.
  destruct (Forall2_lookup_r _ _ _ _ _ Hkeys Hsh) as (ks & Hks & _ & Heq & _).
  rewrite Heq in Hkey. split.
  - assert (Forall2 (λ r ks, Forall (λ k, begin r ≤ k) ks) ranges
                    (range_shards rest ranges)) as Hlow.
    { apply range_shards_lower; [by apply StronglySorted_drop|done|].
      intros r0 Hr0. destruct ranges as [|r1 ranges]; simplify_eq/=.
      by apply lower_bound_drop. }
    pose proof (Forall2_lookup_lr _ _ _ _ _ _ Hlow Hr Hks) as Hall.
    by apply (proj1 (Forall_forall _ _) Hall).
  - pose proof (Forall2_lookup_lr _ _ _ _ _ _
                  (range_shards_upper rest ranges) Hr Hks) as Hall.
    by apply (proj1 (Forall_forall _ _) Hall).
Qed.

(** C6: on sorted keys, every key of the shard that the range slicer
    returns for server [s] lies in [[ranges[s].begin, ranges[s].end)]; and a
    key of the batch that equals the boundary shared by the ranges of [s]
    and [s + 1] is in the shard of [s + 1], the higher server, and not in
    that of [s]. *)
Theorem DefaultSlicer_containment send ranges sliced :
  StronglySorted Z.le (keys send) →
  DefaultSlicer send ranges = Some sliced →
  (∀ s r sh key,
     ranges !! s = Some r → sliced !! s = Some sh → key ∈ keys sh.2 →
     begin r ≤ key < end_ r)
  ∧ (∀ s r r' key,
       Forall (λ r, begin r ≤ end_ r) ranges →
       ranges !! s = Some r → ranges !! S s = Some r' →
       key ∈ keys send → key = end_ r → key < end_ r' →
       (∃ sh', sliced !! S s = Some sh' ∧ sh'.1 = true ∧ key ∈ keys sh'.2)
       ∧ (∀ sh, sliced !! s = Some sh → key ∉ keys sh.2)).
Proof.
  intros Hsorted Hs. split.
  { intros s r sh key. by apply (DefaultSlicer_shard_range send ranges sliced). }
  intros s r r' key Hwf Hr Hr' Hkey He Hlt. split.
  2:{ intros sh Hsh Hin.
      pose proof (DefaultSlicer_shard_range _ _ _ _ _ _ _ Hsorted Hs Hr Hsh Hin).
      lia. }
  pose proof (DefaultSlicer_Some_keys _ _ _ Hs) as Hkeys.
  destruct (DefaultSlicer_Some_pos _ _ _ Hs) as [Hadj Hcat].
  set (rest := drop _ (keys send)) in *.
  assert (key ∈ rest) as Hrest.
  { rewrite <- (take_drop (DefaultSlicer_pos0 (keys send) ranges) (keys send))
      in Hkey.
    apply elem_of_app in Hkey as [Hkey|Hkey]; [|done]. exfalso.
    destruct ranges as [|r0 ranges]; [done|]. simpl in Hkey.
    pose proof (proj1 (Forall_forall _ _)
                  (lower_bound_take (keys send) (begin r0)) _ Hkey) as Hb.
    simpl in Hb. destruct s as [|s].
    - simplify_eq/=. pose proof (Forall_lookup_1 _ _ 0%nat _ Hwf eq_refl).
      simpl in *. lia.
    - pose proof (ranges_monotone (r0 :: ranges) 0 (S s) r0 r Hadj Hwf
                    eq_refl Hr ltac:(lia)).
      pose proof (Forall_lookup_1 _ _ 0%nat _ Hwf eq_refl).
      pose proof (Forall_lookup_1 _ _ _ _ Hwf Hr). simpl in *. lia. }
  rewrite <- Hcat in Hrest.
  apply elem_of_concat_lookup in Hrest as (j & ks & Hks & Hin).
  destruct (Forall2_lookup_l _ _ _ _ _ Hkeys Hks) as (sh' & Hsh' & Hfl & Heq & _).
  assert (key ∈ keys sh'.2) as Hin' by (by rewrite Heq).
  destruct (lookup_lt_is_Some_2 ranges j) as [rj Hrj].
  { apply lookup_lt_Some in Hks. by rewrite range_shards_length in Hks. }
  pose proof (DefaultSlicer_shard_range _ _ _ _ _ _ _ Hsorted Hs Hrj Hsh' Hin')
    as Hj.
  assert (j = S s) as ->.
  { destruct (decide (j = S s)) as [|Hne]; [done|]. exfalso.
    destruct (decide (j < S s)%nat).
    - destruct (decide (j = s)) as [->|]; [simplify_eq; lia|].
      pose proof (ranges_monotone ranges j s rj r Hadj Hwf Hrj Hr ltac:(lia)).
      pose proof (Forall_lookup_1 _ _ _ _ Hwf Hr). simpl in *. lia.
    - pose proof (ranges_monotone ranges (S s) j r' rj Hadj Hwf Hr' Hrj
                    ltac:(lia)). lia. }
  exists sh'. split_and!; [done| |done].
  rewrite Hfl. apply bool_decide_eq_true. intros ->.
  by apply not_elem_of_nil in Hin.
Qed.

(** On a well-shaped batch the slicing loop does not fail, and the values
    of its shards add up to those of the keys it covers. *)
Lemma DefaultSlicer_slice_total send k rs :
  sliceable send →
  (lens send = [] → (k * length (keys send))%nat = length (vals send)) →
  ∀ rest p prev tl vb,
    DefaultSlicer_pos rest p prev rs = Some tl →
    rest = drop p (keys send) → (p ≤ length (keys send))%nat →
    (lens send ≠ [] → vb = Zsum (take p (lens send))) →
    ∃ out, DefaultSlicer_slice send k (p :: tl) vb = Some out
      ∧ sum_list ((λ sh : bool * KVPairs Val, length (vals sh.2)) <$> out)
        = if decide (lens send = [])
          then (k * length (concat (range_shards rest rs)))%nat
          else Z.to_nat
                 (Zsum (take (p + length (concat (range_shards rest rs)))
                             (lens send))
                  - Zsum (take p (lens send))).
Proof.
  intros Hshape Hk.
  induction rs as [|r rs IH]; intros rest p prev tl vb Hpos Hrest Hp Hvb.
  { simpl in Hpos. simplify_eq. exists []. split; [done|]. simpl.
    rewrite Nat.add_0_r. destruct (decide _); lia. }
  simpl in Hpos. destruct (check_adjacent prev r); [|done].
  destruct (DefaultSlicer_pos _ _ _ rs) as [tl'|] eqn:Htl; [|done].
  simplify_eq/=. rewrite DefaultSlicer_slice_cons.
  set (len := lower_bound (drop p (keys send)) (end_ r)) in *.
  pose proof (lower_bound_le (drop p (keys send)) (end_ r)) as Hlen.
  fold len in Hlen. rewrite length_drop in Hlen.
  assert (drop len (drop p (keys send)) = drop (p + len) (keys send)) as Hdrop
    by (by rewrite drop_drop).
  set (rest' := drop len (drop p (keys send))) in *.
  rewrite length_app, length_take, length_drop.
  replace (len `min` (length (keys send) - p))%nat with len by lia.
  destruct (decide ((p + len)%nat = p)) as [H0|H0].
  - assert (len = 0%nat) as Hl0 by lia.
    destruct (IH rest' (p + len)%nat (Some r) tl' vb Htl Hdrop ltac:(lia))
      as (out' & -> & Hsum).
    { intros Hne. rewrite Hl0, Nat.add_0_r. by apply Hvb. }
    eexists. split; [done|]. csimpl. rewrite Hsum, Hl0, !Nat.add_0_r. done.
  - rewrite (segment_nat_is_Some (keys send)) by lia. simpl.
    destruct (decide (lens send = [])) as [He|Hne].
    + rewrite decide_False by (rewrite He; simpl; lia).
      assert ((p + len) * k ≤ k * length (keys send))%nat
        by (rewrite (Nat.mul_comm k); apply Nat.mul_le_mono_r; lia).
      rewrite (segment_nat_is_Some (vals send)) by (specialize (Hk He); nia).
      simpl.
      destruct (IH rest' (p + len)%nat (Some r) tl' vb Htl Hdrop ltac:(lia)
                  ltac:(done)) as (out' & -> & Hsum).
      eexists. split; [done|]. csimpl. rewrite Hsum.
      rewrite length_take, length_drop. specialize (Hk He). nia.
    + rewrite decide_True by (by destruct (lens send)).
      specialize (Hvb Hne). unfold sliceable in Hshape.
      rewrite decide_False in Hshape by done.
      destruct Hshape as (Hlk & Hnn & Hsum).
      rewrite (segment_nat_is_Some (lens send)) by lia. simpl.
      replace (p + len - p)%nat with len by lia.
      set (ls := take len (drop p (lens send))).
      assert (Forall (λ l, 0 ≤ l) ls) as Hls
        by (by apply Forall_take, Forall_drop).
      assert (Zsum (take (p + len) (lens send)) = vb + Zsum ls) as Hq
        by (by rewrite Zsum_take_add, Hvb).
      pose proof (Zsum_take_le (lens send) (p + len) Hnn) as Hle.
      assert (0 ≤ Zsum (take p (lens send))) as Hp0
        by (by apply Zsum_nonneg, Forall_take).
      pose proof (Zsum_nonneg _ Hls) as Hls0.
      rewrite foldl_wrap64 by (done || lia).
      rewrite segment_is_Some by lia. simpl.
      destruct (IH rest' (p + len)%nat (Some r) tl' (vb + Zsum ls) Htl Hdrop
                  ltac:(lia) ltac:(by intros _)) as (out' & -> & Hsum').
      eexists. split; [done|]. csimpl.
      rewrite Hsum'.
      rewrite length_take, length_drop, Nat.add_assoc.
      set (c := length (concat (range_shards rest' rs))) in *.
      assert (Zsum (take (p + len) (take (p + len + c) (lens send)))
              ≤ Zsum (take (p + len + c) (lens send))) as Hmono
        by (by apply Zsum_take_le, Forall_take).
      rewrite take_take in Hmono.
      replace ((p + len) `min` (p + len + c))%nat with (p + len)%nat
        in Hmono by lia.
      lia.
Qed.

Lemma shard_holds_sum_keys shards sliced :
  Forall2 shard_holds shards sliced →
  sum_active (λ kv, length (keys kv)) sliced = length (concat shards).
Proof.
  unfold sum_active.
  induction 1 as [|ks [fl kv] shards sliced (Hfl & Hks & _) _ IH]; [done|].
  csimpl in *. rewrite length_app, IH, Hfl. subst ks.
  case_bool_decide as Hne; [done|]. by rewrite Hne.
Qed.

Lemma shard_holds_inactive shards sliced :
  Forall2 shard_holds shards sliced →
  Forall (λ sh : bool * KVPairs Val, sh.1 = false → sh.2 = empty_kv) sliced.
Proof.
  induction 1 as [|ks sh shards sliced (Hfl & _ & He) _ IH]; constructor;
    [|done].
  rewrite Hfl. intros Hnil%bool_decide_eq_false. apply He.
  by apply dec_stable in Hnil.
Qed.

Lemma lower_bound_0 l x : Forall (λ k, x ≤ k) l → lower_bound l x = 0%nat.
Proof. destruct 1; simpl; [done|]. rewrite decide_False; [done|lia]. Qed.

Lemma sliceable_nil send :
  sliceable send → keys send = [] → length (vals send) = 0%nat.
Proof.
  unfold sliceable. intros Hs He. rewrite He in Hs. simpl in Hs.
  destruct (decide (lens send = [])) as [|Hl]; [done|].
  destruct Hs as (Hlen & _). by destruct (lens send).
Qed.

(** The range slicer covers a well-shaped batch whose lengths add up to
    its values, when the ranges contain its keys. *)
Lemma DefaultSlicer_coverage send ranges :
  sliceable send →
  (lens send ≠ [] → Zsum (lens send) = Z.of_nat (length (vals send))) →
  ranges_cover ranges (keys send) →
  ∃ sliced, DefaultSlicer send ranges = Some sliced
    ∧ sum_active (λ kv, length (keys kv)) sliced = length (keys send)
    ∧ sum_active (λ kv, length (vals kv)) sliced = length (vals send).
Proof.
  intros Hshape Hsum (Hadj & Hfirst & Hlast).
  assert (DefaultSlicer_pos0 (keys send) ranges = 0%nat) as Hp0.
  { destruct ranges as [|r0 ranges]; [done|]. by apply lower_bound_0. }
  destruct (DefaultSlicer_pos_total (keys send) 0 None ranges Hadj)
    as [tl Htl].
  assert (last (0%nat :: tl) = Some (length (keys send))) as Hl.
  { destruct (last ranges) as [r|] eqn:Hr.
    - pose proof (DefaultSlicer_pos_last _ _ _ _ _ _ Htl Hr (Hlast _ eq_refl))
        as Hl.
      destruct tl as [|q tl]; [done|]. exact Hl.
    - destruct ranges as [|r0 ranges _] using rev_ind;
        [|by rewrite last_snoc in Hr].
      simpl in Htl. simplify_eq. by rewrite Hfirst. }
  unfold DefaultSlicer, DefaultSlicer_positions. rewrite Hp0, drop_0, Htl.
  simpl. rewrite decide_True by done.
  destruct (decide (keys send = [])) as [He|Hne].
  - eexists. split; [done|]. rewrite (sliceable_nil _ Hshape He), He in *.
    apply DefaultSlicer_pos_nil in Htl as ->.
    rewrite DefaultSlicer_flags_replicate. unfold sum_active.
    split; clear; induction (length ranges); csimpl; done.
  - destruct (last ranges) as [r|] eqn:Hr.
    2:{ destruct ranges as [|r0 ranges _] using rev_ind;
          [done|by rewrite last_snoc in Hr]. }
    pose proof (range_shards_concat_all _ _ _ Hr (Hlast _ eq_refl)) as Hcat.
    assert (∀ k, (lens send = [] → (k * length (keys send))%nat
                                   = length (vals send)) →
              ∃ sliced, DefaultSlicer_slice send k (0%nat :: tl) 0 = Some sliced
                ∧ sum_active (λ kv, length (keys kv)) sliced
                  = length (keys send)
                ∧ sum_active (λ kv, length (vals kv)) sliced
                  = length (vals send)) as Hslice.
    { intros k Hk.
      destruct (DefaultSlicer_slice_total send k ranges Hshape Hk
                  (keys send) 0%nat None tl 0 Htl eq_refl ltac:(lia)
                  ltac:(by intros _)) as (out & Hout & Hvals).
      exists out. split; [done|].
      pose proof (DefaultSlicer_slice_keys _ _ _ _ _ _ _ _ _ Htl Hout eq_refl)
        as Hkeys.
      split; [by rewrite (shard_holds_sum_keys _ _ Hkeys), Hcat|].
      rewrite sum_active_all.
      2:{ eapply Forall_impl; [by eapply shard_holds_inactive|].
          intros sh H ?. by rewrite H. }
      rewrite Hvals, Hcat. destruct (decide (lens send = [])) as [Hl0|Hl0].
      - specialize (Hk Hl0). lia.
      - unfold sliceable in Hshape. rewrite decide_False in Hshape by done.
        destruct Hshape as (Hlen & _).
        simpl. rewrite Hlen, firstn_all, Hsum by done.
        unfold Zsum. simpl. lia. }
    destruct (decide (lens send = [])) as [Hl0|Hl0].
    + rewrite decide_True by (by apply sliceable_uniform).
      apply Hslice. intros _. by apply sliceable_uniform.
    + rewrite decide_True.
      * apply Hslice. by intros ?.
      * unfold sliceable in Hshape. rewrite decide_False in Hshape by done.
        tauto.
Qed.

Lemma last_cons_replicate {A} n (x : A) : last (x :: replicate n x) = Some x.
Proof.
  induction n as [|n IH]; [done|].
  change (last (x :: replicate (S n) x)) with (last (x :: replicate n x)).
  exact IH.
Qed.

(** Without keys the range slicer marks every shard inactive. *)
Lemma DefaultSlicer_empty send ranges :
  keys send = [] → adjacent ranges →
  DefaultSlicer send ranges = Some (replicate (length ranges) (false, empty_kv)).
Proof.
  intros He Hadj. unfold DefaultSlicer, DefaultSlicer_positions.
  rewrite He, drop_nil.
  destruct (DefaultSlicer_pos_total [] (DefaultSlicer_pos0 [] ranges) None
              ranges Hadj) as [tl Htl].
  rewrite Htl. simpl. apply DefaultSlicer_pos_nil in Htl as ->.
  assert (DefaultSlicer_pos0 [] ranges = 0%nat) as -> by (by destruct ranges).
  rewrite last_cons_replicate, !decide_True by done.
  by rewrite DefaultSlicer_flags_replicate.
Qed.

(** On a well-shaped batch the slicing loop does not fail from any position
    on, when the values from the offset on suffice for the lengths that are
    left. *)
Lemma DefaultSlicer_slice_returns send k rs :
  sliceable send →
  (lens send = [] → (k * length (keys send))%nat = length (vals send)) →
  ∀ rest p prev tl vb,
    DefaultSlicer_pos rest p prev rs = Some tl →
    rest = drop p (keys send) → (p ≤ length (keys send))%nat →
    (lens send ≠ [] →
     0 ≤ vb ∧ vb + Zsum (drop p (lens send)) ≤ Z.of_nat (length (vals send))) →
    is_Some (DefaultSlicer_slice send k (p :: tl) vb).
Proof.
  intros Hshape Hk.
  induction rs as [|r rs IH]; intros rest p prev tl vb Hpos Hrest Hp Hvb.
  { simpl in Hpos. simplify_eq. by eexists. }
  simpl in Hpos. destruct (check_adjacent prev r); [|done].
  destruct (DefaultSlicer_pos _ _ _ rs) as [tl'|] eqn:Htl; [|done].
  simplify_eq/=. rewrite DefaultSlicer_slice_cons.
  set (len := lower_bound (drop p (keys send)) (end_ r)) in *.
  pose proof (lower_bound_le (drop p (keys send)) (end_ r)) as Hlen.
  fold len in Hlen. rewrite length_drop in Hlen.
  assert (drop len (drop p (keys send)) = drop (p + len) (keys send)) as Hdrop
    by (by rewrite drop_drop).
  destruct (decide ((p + len)%nat = p)) as [H0|H0].
  - assert (len = 0%nat) as Hl0 by lia.
    destruct (IH _ (p + len)%nat (Some r) tl' vb Htl Hdrop ltac:(lia))
      as [out' ->]; [|by eexists].
    intros Hne. rewrite Hl0, Nat.add_0_r. by apply Hvb.
  - rewrite (segment_nat_is_Some (keys send)) by lia. simpl.
    destruct (decide (lens send = [])) as [He|Hne].
    + rewrite decide_False by (rewrite He; simpl; lia).
      assert ((p + len) * k ≤ k * length (keys send))%nat
        by (rewrite (Nat.mul_comm k); apply Nat.mul_le_mono_r; lia).
      rewrite (segment_nat_is_Some (vals send)) by (specialize (Hk He); nia).
      simpl.
      destruct (IH _ (p + len)%nat (Some r) tl' vb Htl Hdrop ltac:(lia)
                  ltac:(done)) as [out' ->].
      by eexists.
    + rewrite decide_True by (by destruct (lens send)).
      destruct (Hvb Hne) as [Hvb0 Hvb1]. unfold sliceable in Hshape.
      rewrite decide_False in Hshape by done.
      destruct Hshape as (Hlk & Hnn & Hsum).
      rewrite (segment_nat_is_Some (lens send)) by lia. simpl.
      replace (p + len - p)%nat with len by lia.
      set (ls := take len (drop p (lens send))).
      assert (Forall (λ l, 0 ≤ l) ls) as Hls
        by (by apply Forall_take, Forall_drop).
      assert (Zsum (drop p (lens send))
              = Zsum ls + Zsum (drop (p + len) (lens send))) as Hsplit.
      { rewrite <- (take_drop len (drop p (lens send))) at 1.
        by rewrite Zsum_app, drop_drop. }
      assert (0 ≤ Zsum (drop (p + len) (lens send))) as Hrest0
        by (by apply Zsum_nonneg, Forall_drop).
      pose proof (Zsum_nonneg _ Hls) as Hls0.
      rewrite foldl_wrap64 by (done || lia).
      rewrite segment_is_Some by lia. simpl.
      destruct (IH _ (p + len)%nat (Some r) tl' (vb + Zsum ls) Htl Hdrop
                  ltac:(lia) ltac:(intros _; lia)) as [out' ->].
      by eexists.
Qed.

(** The range slicer returns on a well-shaped batch when the ranges touch
    and no key reaches the end of the last range, wherever the first range
    begins. *)
Lemma DefaultSlicer_returns send ranges :
  sliceable send → adjacent ranges →
  (∀ r, last ranges = Some r → Forall (λ k, k < end_ r) (keys send)) →
  ranges ≠ [] →
  ∃ pos sliced,
    DefaultSlicer_positions (keys send) ranges = Some pos
    ∧ last pos = Some (length (keys send))
    ∧ DefaultSlicer send ranges = Some sliced.
Proof.
  intros Hshape Hadj Hall Hne. unfold DefaultSlicer, DefaultSlicer_positions.
  pose proof (DefaultSlicer_pos0_le (keys send) ranges) as Hp0.
  set (p0 := DefaultSlicer_pos0 (keys send) ranges) in *.
  destruct (DefaultSlicer_pos_total (drop p0 (keys send)) p0 None ranges Hadj)
    as [tl Htl].
  rewrite Htl. simpl.
  destruct (last ranges) as [r|] eqn:Hlast;
    [|by destruct ranges using rev_ind; [|rewrite last_snoc in Hlast]].
  assert (last (p0 :: tl) = Some (length (keys send))) as Hl.
  { pose proof (DefaultSlicer_pos_last _ _ _ _ _ _ Htl Hlast
                  (Forall_drop _ _ _ (Hall _ eq_refl))) as Hl.
    rewrite length_drop in Hl. destruct tl as [|q tl]; [done|].
    change (last (_ :: q :: tl)) with (last (q :: tl)). rewrite Hl.
    f_equal. lia. }
  rewrite decide_True by done.
  destruct (decide (keys send = [])) as [He|Hk]; [by eexists _, _|].
  destruct (decide (lens send = [])) as [Hl0|Hl0].
  - rewrite decide_True by (by apply sliceable_uniform).
    destruct (DefaultSlicer_slice_returns send
                (length (vals send) / length (keys send)) ranges Hshape
                ltac:(intros _; by apply sliceable_uniform)
                _ p0 None tl 0 Htl eq_refl Hp0 ltac:(done)) as [out Hout].
    by eexists _, _.
  - pose proof Hshape as Hshape'. unfold sliceable in Hshape'.
    rewrite decide_False in Hshape' by done.
    destruct Hshape' as (Hlen & Hnn & Hsum).
    rewrite decide_True by done.
    destruct (DefaultSlicer_slice_returns send 0 ranges Hshape
                ltac:(done) _ p0 None tl 0 Htl eq_refl Hp0) as [out Hout];
      [|by eexists _, _].
    intros _. split; [done|].
    assert (Zsum (drop p0 (lens send)) ≤ Zsum (lens send)); [|lia].
    rewrite <- (take_drop p0 (lens send)) at 2. rewrite Zsum_app.
    assert (0 ≤ Zsum (take p0 (lens send))); [|lia].
    by apply Zsum_nonneg, Forall_take.
Qed.

(** C10: on sorted keys, a key below [ranges[0].begin()] is lost in
    silence.  On a well-shaped batch, when the ranges touch and no key
    reaches the end of the last range, the position loop and its final
    check [CHECK_EQ(pos[n], send.keys.size())] pass and the slicer returns;
    and whatever the slicer returns has that key in no shard and fewer keys
    in its active shards than the batch.  A key at or above the end of the
    last range makes the slicer fail. *)
Theorem DefaultSlicer_low_keys_lost send ranges key :
  StronglySorted Z.le (keys send) → key ∈ keys send →
  (∀ r0, head ranges = Some r0 → key < begin r0 →
     (adjacent ranges → sliceable send →
      (∀ r, last ranges = Some r → Forall (λ k, k < end_ r) (keys send)) →
      ∃ pos sliced,
        DefaultSlicer_positions (keys send) ranges = Some pos
        ∧ last pos = Some (length (keys send))
        ∧ DefaultSlicer send ranges = Some sliced)
     ∧ (∀ sliced, DefaultSlicer send ranges = Some sliced →
          (∀ sh, sh ∈ sliced → key ∉ keys sh.2)
          ∧ (sum_active (λ kv, length (keys kv)) sliced
             < length (keys send))%nat))
  ∧ (∀ r, last ranges = Some r → Forall (λ r, begin r ≤ end_ r) ranges →
       end_ r ≤ key → DefaultSlicer send ranges = None).
Proof.
  intros Hsorted Hkey. split.
  - intros r0 Hr0 Hlt. split.
    + intros Hadj Hshape Hall.
      apply DefaultSlicer_returns; [done..|]. by destruct ranges.
    + intros sliced Hs.
      pose proof (DefaultSlicer_Some_keys _ _ _ Hs) as Hkeys.
      destruct (DefaultSlicer_Some_pos _ _ _ Hs) as [_ Hcat].
      destruct ranges as [|r1 ranges]; [done|].
      simpl in Hr0. injection Hr0 as ->.
      change (DefaultSlicer_pos0 (keys send) (r0 :: ranges))
        with (lower_bound (keys send) (begin r0)) in *.
      set (p0 := lower_bound (keys send) (begin r0)) in *.
      pose proof (lower_bound_drop (keys send) (begin r0) Hsorted) as Hlow.
      fold p0 in Hlow. split.
      * intros sh [j Hsh]%list_elem_of_lookup Hin.
        destruct (Forall2_lookup_r _ _ _ _ _ Hkeys Hsh)
          as (ks & Hks & _ & Heq & _).
        rewrite Heq in Hin.
        pose proof (elem_of_concat_2 _ _ _ _ Hks Hin) as Hc.
        rewrite Hcat in Hc.
        pose proof (proj1 (Forall_forall _ _) Hlow _ Hc). simpl in *. lia.
      * rewrite (shard_holds_sum_keys _ _ Hkeys).
        rewrite Hcat, length_drop.
        pose proof (lower_bound_pos _ _ _ Hsorted Hkey Hlt).
        apply list_elem_of_lookup in Hkey as [i Hi%lookup_lt_Some].
        subst p0. lia.
  - intros r Hlast Hwf Hge.
    destruct (DefaultSlicer send ranges) as [sliced|] eqn:Hs; [|done].
    exfalso.
    pose proof (DefaultSlicer_Some_keys _ _ _ Hs) as Hkeys.
    destruct (DefaultSlicer_Some_pos _ _ _ Hs) as [Hadj Hcat].
    rewrite last_lookup in Hlast.
    set (rest := drop _ (keys send)) in *.
    assert (key ∈ rest) as Hrest.
    { rewrite <- (take_drop (DefaultSlicer_pos0 (keys send) ranges) (keys send))
        in Hkey.
      apply elem_of_app in Hkey as [Hkey|Hkey]; [|done]. exfalso.
      destruct ranges as [|r0 ranges]; [done|]. simpl in Hkey.
      pose proof (proj1 (Forall_forall _ _)
                    (lower_bound_take (keys send) (begin r0)) _ Hkey) as Hb.
      simpl in Hb, Hlast.
      pose proof (Forall_lookup_1 _ _ 0%nat _ Hwf eq_refl) as H0.
      destruct ranges as [|r1 ranges]; [simplify_eq/=; lia|].
      pose proof (ranges_monotone (r0 :: r1 :: ranges) 0 _ r0 r Hadj Hwf
                    eq_refl Hlast ltac:(simpl; lia)).
      pose proof (Forall_lookup_1 _ _ _ _ Hwf Hlast). simpl in *. lia. }
    rewrite <- Hcat in Hrest.
    apply elem_of_concat_lookup in Hrest as (j & ks & Hks & Hin).
    apply lookup_lt_Some in Hks as Hj. rewrite range_shards_length in Hj.
    destruct (lookup_lt_is_Some_2 ranges j Hj) as [rj Hrj].
    pose proof (Forall2_lookup_lr _ _ _ _ _ _
                  (range_shards_upper rest ranges) Hrj Hks) as Hall.
    pose proof (proj1 (Forall_forall _ _) Hall _ Hin) as Hup. simpl in Hup.
    destruct (decide (j = pred (length ranges))) as [->|Hne];
      [simplify_eq; lia|].
    pose proof (ranges_monotone ranges j _ rj r Hadj Hwf Hrj Hlast ltac:(lia)).
    pose proof (Forall_lookup_1 _ _ _ _ Hwf Hlast). simpl in *. lia.
Qed.

End DefaultSlicer_properties.

(** ** The slicers on the scenarios *)

Lemma range3_adjacent : adjacent range3.
Proof. intros [|[|[|i]]] r r' Hr Hr'; simplify_eq/=; done. Qed.

Lemma range3_cover ks :
  Forall (λ k, 0 ≤ k < 30) ks → ranges_cover range3 ks.
Proof.
  intros Hks. split_and!.
  - apply range3_adjacent.
  - eapply Forall_impl; [exact Hks|]. simpl. lia.
  - intros r [= <-]. eapply Forall_impl; [exact Hks|]. simpl. lia.
Qed.

(** C1: the residue property fails on the code.  With three servers the
    modulo slicer puts the key 3 of the batch [0, 3, 6] into the shard of
    server 1, although [3 mod 3 = 0]. *)
Theorem ModSlicer_residue_violated :
  ∃ sliced sh,
    ModSlicer 3 (mkKVPairs [0; 3; 6] [10; 20; 30] []) range3 = Some sliced
    ∧ sliced !! 1%nat = Some sh
    ∧ 3 ∈ keys sh.2
    ∧ 3 `mod` 3 ≠ 1.
Proof.
  eexists _, _. split_and!; [vm_compute; reflexivity|reflexivity| |done].
  simpl. apply list_elem_of_here.
Qed.

(** C2, as amended: on a batch whose keys increase, whose values divide
    evenly among the keys or whose lengths, one for each key and none
    negative, add up to the number of values, and with ranges that touch
    and contain every key, each of the two built-in slicers returns, and
    over the active shards the keys add up to the keys of the batch and the
    values to its values. *)
Theorem slicers_cover_batch {Val} n (send : KVPairs Val) ranges :
  StronglySorted Z.lt (keys send) → sliceable send →
  (lens send ≠ [] → Zsum (lens send) = Z.of_nat (length (vals send))) →
  ranges_cover ranges (keys send) → n = length ranges →
  (∃ sliced, DefaultSlicer send ranges = Some sliced
     ∧ sum_active (λ kv, length (keys kv)) sliced = length (keys send)
     ∧ sum_active (λ kv, length (vals kv)) sliced = length (vals send))
  ∧ (∃ sliced, ModSlicer n send ranges = Some sliced
       ∧ sum_active (λ kv, length (keys kv)) sliced = length (keys send)
       ∧ sum_active (λ kv, length (vals kv)) sliced = length (vals send)).
Proof.
  intros _ Hshape Hsum Hcover Hn. split.
  - by apply DefaultSlicer_coverage.
  - apply ModSlicer_coverage; [done| |done..].
    intros Hne ->. destruct Hcover as (_ & Hnil & _).
    by destruct ranges.
Qed.

Lemma slicers_cover_batch_witness :
  let send := mkKVPairs [5; 15] [1; 2; 3; 7; 8] [3; 2] in
  (∃ sliced, DefaultSlicer send range3 = Some sliced
     ∧ sum_active (λ kv, length (keys kv)) sliced = length (keys send)
     ∧ sum_active (λ kv, length (vals kv)) sliced = length (vals send))
  ∧ (∃ sliced, ModSlicer 3 send range3 = Some sliced
       ∧ sum_active (λ kv, length (keys kv)) sliced = length (keys send)
       ∧ sum_active (λ kv, length (vals kv)) sliced = length (vals send)).
Proof.
  intros send. apply (slicers_cover_batch 3 send range3).
  - repeat constructor.
  - unfold sliceable. simpl. split_and!; [done| |vm_compute; done..].
    repeat constructor; lia.
  - intros _. reflexivity.
  - apply range3_cover. repeat constructor; lia.
  - reflexivity.
Defined.

(** C2 as stated fails on the code: with lengths that are one for each key
    but add up to fewer values than the batch has, both slicers return
    shards with fewer values; and the range slicer drops a key below the
    first range. *)
Lemma slicers_cover_batch_counterexample :
  let send := mkKVPairs [5] [1; 2; 3] [2] in
  let send' := mkKVPairs [2; 12] [1; 2] [] in
  let ranges' := [mkRange 10 20; mkRange 20 30] in
  KVPairs_precondition send
  ∧ (∃ sliced, DefaultSlicer send range3 = Some sliced
       ∧ sum_active (λ kv, length (vals kv)) sliced ≠ length (vals send))
  ∧ (∃ sliced, ModSlicer 3 send range3 = Some sliced
       ∧ sum_active (λ kv, length (vals kv)) sliced ≠ length (vals send))
  ∧ KVPairs_precondition send'
  ∧ (∃ sliced, DefaultSlicer send' ranges' = Some sliced
       ∧ sum_active (λ kv, length (keys kv)) sliced ≠ length (keys send')).
Proof.
  intros send send' ranges'. split_and!.
  - split_and!; [repeat constructor|done|done].
  - eexists. split; [vm_compute; reflexivity|]. vm_compute. lia.
  - eexists. split; [vm_compute; reflexivity|]. vm_compute. lia.
  - split_and!; [repeat constructor; lia|done|done].
  - eexists. split; [vm_compute; reflexivity|]. vm_compute. lia.
Qed.

Lemma DefaultSlicer_containment_witness :
  let send := mkKVPairs [2; 10; 25] [1; 2; 3] [] in
  let sliced := [(true, mkKVPairs [2] [1] []); (true, mkKVPairs [10] [2] []);
                 (true, mkKVPairs [25] [3] [])] in
  DefaultSlicer send range3 = Some sliced
  ∧ (∀ s r sh key,
       range3 !! s = Some r → sliced !! s = Some sh → key ∈ keys sh.2 →
       begin r ≤ key < end_ r)
  ∧ (∃ sh', sliced !! 1%nat = Some sh' ∧ sh'.1 = true ∧ 10 ∈ keys sh'.2)
  ∧ (∀ sh, sliced !! 0%nat = Some sh → 10 ∉ keys sh.2).
Proof.
  intros send sliced.
  assert (DefaultSlicer send range3 = Some sliced) as Hs
    by (vm_compute; reflexivity).
  assert (StronglySorted Z.le (keys send)) as Hsorted
    by (repeat constructor; lia).
  destruct (DefaultSlicer_containment send range3 sliced Hsorted Hs)
    as [Hin Hboundary].
  split; [exact Hs|]. split; [exact Hin|].
  apply (Hboundary 0%nat (mkRange 0 10) (mkRange 10 20) 10).
  - repeat constructor; simpl; lia.
  - reflexivity.
  - reflexivity.
  - apply list_elem_of_further, list_elem_of_here.
  - reflexivity.
  - simpl. lia.
Defined.

Lemma ModSlicer_slices_by_position_witness :
  let send := mkKVPairs [1; 2; 3; 4; 5] [10; 20; 30; 40; 50] [] in
  ModSlicer 3 send range3 = Some (shard_by_position 3 send <$> seq 0 3)
  ∧ ∃ sh, (shard_by_position 3 send <$> seq 0 3) !! 0%nat = Some sh
          ∧ sh.1 = true ∧ 4 ∈ keys sh.2.
Proof.
  intros send.
  destruct (ModSlicer_slices_by_position 3 send range3) as [Hs Hpos].
  - done.
  - reflexivity.
  - lia.
  - unfold sliceable. simpl. reflexivity.
  - split; [exact Hs|]. exact (Hpos 3%nat 4 eq_refl).
Defined.

Lemma DefaultSlicer_low_keys_lost_witness :
  let send := mkKVPairs [2; 12; 15] [1; 2; 3; 4] [1; 1; 2] in
  let send' := mkKVPairs [12; 35] [1; 2] [] in
  let ranges := [mkRange 10 20; mkRange 20 30] in
  (∃ sliced,
     DefaultSlicer send ranges = Some sliced
     ∧ sliced = [(true, mkKVPairs [12; 15] [1; 2; 3] [1; 2]); (false, empty_kv)]
     ∧ (∀ sh, sh ∈ sliced → 2 ∉ keys sh.2)
     ∧ (sum_active (λ kv, length (keys kv)) sliced < length (keys send))%nat)
  ∧ DefaultSlicer send' ranges = None.
Proof.
  intros send send' ranges.
  assert (adjacent ranges) as Hadj
    by (intros [|[|i]] r r' Hr Hr'; simplify_eq/=; done).
  destruct (DefaultSlicer_low_keys_lost send ranges 2) as [Hlow _].
  { repeat constructor; lia. }
  { apply list_elem_of_here. }
  destruct (Hlow (mkRange 10 20) eq_refl ltac:(simpl; lia)) as [Hret Hlost].
  destruct (DefaultSlicer_low_keys_lost send' ranges 35) as [_ Hhigh].
  { repeat constructor; lia. }
  { apply list_elem_of_further, list_elem_of_here. }
  split.
  - destruct Hret as (pos & sliced & _ & _ & Hs).
    + exact Hadj.
    + unfold sliceable. simpl. split_and!; [done| |vm_compute; done..].
      repeat constructor; lia.
    + intros r [= <-]. repeat constructor; simpl; lia.
    + exists sliced. split; [exact Hs|]. split; [|exact (Hlost sliced Hs)].
      assert (DefaultSlicer send ranges
              = Some [(true, mkKVPairs [12; 15] [1; 2; 3] [1; 2]);
                      (false, empty_kv)]) as Hc by (vm_compute; reflexivity).
      rewrite Hs in Hc. by injection Hc.
  - apply (Hhigh (mkRange 20 30) eq_refl); [|simpl; lia].
    repeat constructor; simpl; lia.
Defined.

(** ** The worker: sending and completion *)

Section Worker_properties.
Context {Val Segment UserCallback : Type}.
Variable seg_of_keys : list Key → Segment.
Variable seg_of_vals : list Val → Segment.
Variable seg_of_lens : list Z → Segment.
Variable keys_of_seg : Segment → list Key.
Variable vals_of_seg : Segment → list Val.
Variable lens_of_seg : Segment → list Z.
Variable Val_zero : Val.
Variable slicer_kind : Z.
Variable num_servers : nat.
Variable ranges : list Range.
Variable ServerRankToID : nat → Z.
Variable my_node_id : Z.
Variable obj_app_id : Z.
Variable obj_customer_id : Z.
Variable SimpleApp_Process :
  @Message Segment → @Worker Val Segment UserCallback
  → option (@Worker Val Segment UserCallback).

Implicit Types (w : @Worker Val Segment UserCallback)
  (msg : @Message Segment) (sliced : SlicedKVs Val)
  (c : @Callback Val UserCallback).

#[local] Abbreviation Run :=
  (RunCallback (Segment:=Segment) Val_zero slicer_kind num_servers).
#[local] Abbreviation passes :=
  (Callback_passes (UserCallback:=UserCallback) Val_zero slicer_kind
     num_servers).
#[local] Abbreviation Send_with slicer :=
  (Send seg_of_keys seg_of_vals seg_of_lens Val_zero slicer_kind num_servers
        ranges ServerRankToID my_node_id obj_app_id obj_customer_id slicer).
#[local] Abbreviation Send_shards' :=
  (Send_shards seg_of_keys seg_of_vals seg_of_lens ServerRankToID my_node_id
        obj_app_id obj_customer_id).
#[local] Abbreviation Process' :=
  (Process keys_of_seg vals_of_seg lens_of_seg Val_zero slicer_kind
     num_servers SimpleApp_Process).
#[local] Abbreviation Process_store' :=
  (Process_store (Val:=Val) (UserCallback:=UserCallback)
     keys_of_seg vals_of_seg lens_of_seg).
#[local] Abbreviation deliver :=
  (Customer_deliver keys_of_seg vals_of_seg lens_of_seg Val_zero slicer_kind
     num_servers SimpleApp_Process).
#[local] Abbreviation deliver_all :=
  (Customer_deliver_all keys_of_seg vals_of_seg lens_of_seg Val_zero
     slicer_kind num_servers SimpleApp_Process).
#[local] Abbreviation frags :=
  (fragments_of (Val:=Val) keys_of_seg vals_of_seg lens_of_seg).

Lemma callback_count_snoc ts (l : list (@Event Val Segment UserCallback)) e :
  callback_count ts (l ++ [e])
  = (callback_count ts l + if is_callback_of ts e then 1 else 0)%nat.
Proof.
  unfold callback_count. rewrite filter_app, length_app. f_equal.
  rewrite filter_cons, filter_nil. destruct (is_callback_of ts e); done.
Qed.

(** *** Running a callback *)

(** What a run of [RunCallback] that returns has done: the callback is
    erased and recorded, and the closure of a pull has erased the fragments
    of its timestamp. *)
Lemma RunCallback_Some ts w w' :
  Run ts w = Some w' →
  next_timestamp w' = next_timestamp w ∧ tracker w' = tracker w
  ∧ callbacks_ w' = delete ts (callbacks_ w)
  ∧ log w' = log w ++ match callbacks_ w !! ts with
                      | Some c => [EvCallback ts c]
                      | None => []
                      end
  ∧ recv_kvs_ w' = match callbacks_ w !! ts with
                   | Some (PullCb _ _ _ _) => delete ts (recv_kvs_ w)
                   | _ => recv_kvs_ w
                   end
  ∧ ∀ ts', ts' ≠ ts → filled w' !! ts' = filled w !! ts'.
Proof.
  unfold RunCallback. destruct (callbacks_ w !! ts) as [c|] eqn:Hc.
  - destruct c as [u|ks vals lens u]; simpl.
    + intros [= <-]. simpl. by split_and!.
    + destruct vals as [vb|]; simpl; [|done].
      unfold Pull_closure.
      destruct (Pull_callback _ _ _ _ _ _ _) as [out|]; simpl; [|done].
      intros [= <-]. simpl. split_and!; try done.
      intros ts' Hne. by rewrite lookup_insert_ne.
  - intros [= <-]. rewrite delete_id, app_nil_r by done. by split_and!.
Qed.

(** [RunCallback] returns exactly when the callback that it finds passes on
    the fragments stored for the timestamp. *)
Lemma RunCallback_is_Some ts w :
  is_Some (Run ts w)
  ↔ ∀ c, callbacks_ w !! ts = Some c → passes c (default [] (recv_kvs_ w !! ts)).
Proof.
  unfold RunCallback, Callback_passes.
  destruct (callbacks_ w !! ts) as [c|] eqn:Hc.
  2:{ split; [done|]. by eexists. }
  destruct c as [u|ks vals lens u]; simpl.
  { split; [by intros _ c [= <-]|]. by eexists. }
  unfold Pull_closure. split.
  - intros [w' Hw'] c [= <-].
    destruct vals as [vb|]; simpl in *; [|done].
    exists vb. split; [done|].
    destruct (Pull_callback _ _ _ _ _ _ _) as [out|]; [by eexists|done].
  - intros H. destruct (H _ eq_refl) as (vb & -> & [out Hout]). simpl.
    rewrite Hout. simpl. by eexists.
Qed.

(** What the closure of a pull leaves in the caller's buffers. *)
Lemma RunCallback_filled ts w w' ks vals lens cb :
  Run ts w = Some w' → callbacks_ w !! ts = Some (PullCb ks vals lens cb) →
  ∃ vals_buf out,
    vals = Some vals_buf
    ∧ Pull_callback Val_zero slicer_kind num_servers ks
        (default [] (recv_kvs_ w !! ts)) vals_buf lens = Some out
    ∧ filled w' !! ts = Some out.
Proof.
  unfold RunCallback. intros Hrun Hc. rewrite Hc in Hrun. simpl in Hrun.
  destruct vals as [vb|]; simpl in Hrun; [|done].
  unfold Pull_closure in Hrun.
  destruct (Pull_callback _ _ _ _ _ _ _) as [out|] eqn:Hout; simpl in Hrun;
    [|done].
  injection Hrun as <-. exists vb, out. simpl.
  split_and!; [done..|]. by rewrite lookup_insert_eq.
Qed.

Lemma completion_AddResponse ts ts' num w :
  completion ts (AddResponse ts' num w)
  = (if decide (ts' = ts) then NumResponse ts w + num else NumResponse ts w,
     callbacks_ w !! ts, callback_count ts (log w)).
Proof.
  unfold completion, AddResponse, NumResponse. simpl.
  rewrite lookup_insert. by destruct (decide (ts' = ts)) as [->|].
Qed.

Lemma completion_RunCallback_other ts ts' w w' :
  ts' ≠ ts → Run ts' w = Some w' → completion ts w' = completion ts w.
Proof.
  intros Hne (_ & Ht & Hc & Hl & _)%RunCallback_Some.
  unfold completion, NumResponse.
  rewrite Ht, Hc, Hl, lookup_delete_ne by done. f_equal.
  destruct (callbacks_ w !! ts') as [c|]; [|by rewrite app_nil_r].
  rewrite callback_count_snoc. simpl.
  rewrite bool_decide_false by done. by rewrite Nat.add_0_r.
Qed.

Lemma completion_RunCallback ts w w' :
  Run ts w = Some w' →
  completion ts w'
  = (NumResponse ts w, None,
     (callback_count ts (log w)
      + match callbacks_ w !! ts with Some _ => 1 | None => 0 end)%nat).
Proof.
  intros (_ & Ht & Hc & Hl & _)%RunCallback_Some.
  unfold completion, NumResponse.
  rewrite Ht, Hc, Hl, lookup_delete_eq. f_equal.
  destruct (callbacks_ w !! ts) as [c|].
  - rewrite callback_count_snoc. simpl. by rewrite bool_decide_true.
  - by rewrite app_nil_r, Nat.add_0_r.
Qed.

Lemma completion_van_send ts msg w :
  completion ts (van_send msg w) = completion ts w.
Proof.
  unfold completion, van_send, NumResponse. simpl.
  by rewrite callback_count_snoc, Nat.add_0_r.
Qed.

Lemma completion_Send_shards ts ts' push cmd i sliced w :
  completion ts (Send_shards' ts' push cmd i sliced w) = completion ts w.
Proof.
  revert i w. induction sliced as [|s sliced IH]; intros i w; simpl; [done|].
  rewrite IH. destruct (s.1); [apply completion_van_send|done].
Qed.

(** The second loop of [Send] touches only the log. *)
Lemma Send_shards_state ts push cmd i sliced w :
  let w' := Send_shards' ts push cmd i sliced w in
  next_timestamp w' = next_timestamp w ∧ tracker w' = tracker w
  ∧ recv_kvs_ w' = recv_kvs_ w ∧ callbacks_ w' = callbacks_ w
  ∧ filled w' = filled w.
Proof.
  revert i w. induction sliced as [|s sliced IH]; intros i w; simpl; [done|].
  destruct (IH (S i) (if s.1 then van_send (request_msg seg_of_keys seg_of_vals
                                              seg_of_lens ServerRankToID
                                              my_node_id obj_app_id
                                              obj_customer_id ts push cmd i s.2)
                                     w
                      else w)) as (-> & -> & -> & -> & ->).
  by destruct (s.1).
Qed.

(** *** The empty batch *)

Lemma sent_Send_shards_inactive ts push cmd i n w :
  Send_shards' ts push cmd i (replicate n (false, empty_kv)) w = w.
Proof. revert i. induction n as [|n IH]; intros i; simpl; [done|apply IH]. Qed.

Lemma count_skipped_replicate n :
  count_skipped (replicate n (false, empty_kv (Val:=Val))) = n.
Proof.
  unfold count_skipped. induction n as [|n IH]; [done|].
  simpl. by rewrite IH.
Qed.

(** When every shard is inactive, [Send] credits all of them and runs the
    callback, and does nothing else. *)
Lemma Send_all_inactive slicer ts push cmd kvs w :
  slicer kvs ranges = Some (replicate num_servers (false, empty_kv)) →
  Send_with slicer ts push cmd kvs w
  = Run ts (AddResponse ts (Z.of_nat num_servers) w).
Proof.
  intros Hs. unfold Send. rewrite Hs. simpl.
  rewrite count_skipped_replicate, length_replicate, decide_True by done.
  destruct (RunCallback _ _ _ _ _) as [w2|]; simpl; [|done].
  by rewrite sent_Send_shards_inactive.
Qed.

(** The closure of a pull without keys passes on no fragments when the
    caller's buffers are empty. *)
Lemma Pull_callback_nil lens_buf :
  lens_buf = None ∨ lens_buf = Some [] →
  Pull_callback Val_zero slicer_kind num_servers [] [] [] lens_buf
  = Some ([], lens_buf).
Proof.
  intros Hl. unfold Pull_callback. simpl.
  destruct (decide (slicer_kind = 0)); simpl;
    by destruct Hl as [-> | ->].
Qed.

(** C8: for a batch without keys each built-in slicer returns a sliced
    vector with every shard inactive, and [Send] then credits all
    [num_servers] shards to the response count, runs the callback of the
    timestamp, if one is registered, before it returns, and hands no
    message to the transport: [Send] is that run of the callback.  When the
    callback passes, which a user callback does, the count has grown by
    [num_servers], the callback is recorded and erased, and nothing was
    sent.  The closure of a pull without keys passes when nothing is stored
    for the timestamp and the caller's buffers are empty. *)
Theorem Send_empty_batch slicer ts push cmd kvs w :
  keys kvs = [] → num_servers = length ranges → adjacent ranges →
  slicer = DefaultSlicer ∨ slicer = ModSlicer num_servers →
  slicer kvs ranges = Some (replicate num_servers (false, empty_kv))
  ∧ Send_with slicer ts push cmd kvs w
    = RunCallback Val_zero slicer_kind num_servers ts
        (AddResponse ts (Z.of_nat num_servers) w)
  ∧ ((∀ c, callbacks_ w !! ts = Some c →
        Callback_passes Val_zero slicer_kind num_servers c
          (default [] (recv_kvs_ w !! ts))) →
     ∃ w', Send_with slicer ts push cmd kvs w = Some w'
       ∧ NumResponse ts w' = NumResponse ts w + Z.of_nat num_servers
       ∧ log w' = log w ++ match callbacks_ w !! ts with
                           | Some cb => [EvCallback ts cb]
                           | None => []
                           end
       ∧ callbacks_ w' !! ts = None
       ∧ sent (log w') = sent (log w))
  ∧ (∀ lens (cb : option UserCallback), lens = None ∨ lens = Some [] →
       Callback_passes Val_zero slicer_kind num_servers
         (PullCb [] (Some []) lens cb) []).
Proof.
  intros He Hn Hadj Hslicer.
  assert (slicer kvs ranges = Some (replicate num_servers (false, empty_kv)))
    as Hs.
  { destruct Hslicer as [-> | ->].
    - rewrite Hn. by apply DefaultSlicer_empty.
    - by apply ModSlicer_empty. }
  split; [done|]. rewrite (Send_all_inactive _ _ _ _ _ _ Hs).
  split; [done|]. split.
  - intros Hpass.
    set (w0 := AddResponse ts (Z.of_nat num_servers) w).
    destruct (proj2 (RunCallback_is_Some ts w0) Hpass) as [w' Hw'].
    exists w'. split; [done|].
    destruct (RunCallback_Some _ _ _ Hw') as (_ & Ht & Hc & Hl & _).
    unfold NumResponse. rewrite Ht, Hc, Hl, lookup_delete_eq. simpl.
    rewrite lookup_insert_eq. split_and!; try done.
    unfold sent. rewrite omap_app.
    destruct (callbacks_ w !! ts); simpl; by rewrite app_nil_r.
  - intros lens cb Hl. exists []. split; [done|].
    rewrite Pull_callback_nil by done. by eexists.
Qed.

(** *** Completion *)

Lemma count_skipped_le sliced : (count_skipped sliced ≤ length sliced)%nat.
Proof. unfold count_skipped. apply length_filter. Qed.

(** A shard is skipped or sent. *)
Lemma count_skipped_active sliced :
  (count_skipped sliced + length (active_shards sliced))%nat = length sliced.
Proof.
  unfold count_skipped, active_shards. rewrite length_fmap.
  induction sliced as [|[[] kv] sliced IH]; [done|..];
    rewrite !filter_cons; simpl; lia.
Qed.

Lemma responses_to_cons ts msg (msgs : list (@Message Segment)) :
  responses_to ts (msg :: msgs)
  = ((if decide (Meta.timestamp (meta msg) = ts) then 1 else 0)
     + responses_to ts msgs)%nat.
Proof.
  unfold responses_to. rewrite filter_cons. by destruct (decide _).
Qed.

(** [Process] is its two halves. *)
Lemma Process_halves msg w :
  Meta.simple_app (meta msg) = false →
  Process' msg w
  = w1 ← Process_store' msg w;
    if decide (NumResponse (Meta.timestamp (meta msg)) w1
               = Z.of_nat num_servers - 1)
    then Run (Meta.timestamp (meta msg)) w1 else Some w1.
Proof. intros Hs. unfold Process, Process_store. by rewrite Hs. Qed.

(** The first half of [Process] stores the fragment of the message, if it
    carries one, after those of its timestamp, and touches nothing else. *)
Lemma Process_store_Some msg w w0 :
  Process_store' msg w = Some w0 →
  next_timestamp w0 = next_timestamp w ∧ tracker w0 = tracker w
  ∧ callbacks_ w0 = callbacks_ w ∧ log w0 = log w ∧ filled w0 = filled w
  ∧ default [] (recv_kvs_ w0 !! Meta.timestamp (meta msg))
    = default [] (recv_kvs_ w !! Meta.timestamp (meta msg))
      ++ frags (Meta.timestamp (meta msg)) [msg]
  ∧ ∀ ts', ts' ≠ Meta.timestamp (meta msg) →
      recv_kvs_ w0 !! ts' = recv_kvs_ w !! ts'.
Proof.
  unfold Process_store, fragments_of, received_kvs.
  rewrite filter_cons, filter_nil.
  destruct (Meta.push (meta msg)) eqn:Hpush; simpl.
  { intros [= <-]. rewrite decide_False by (by intros (_ & ? & _)).
    simpl. rewrite app_nil_r. by split_and!. }
  destruct (data msg) as [|d0 [|d1 rest]] eqn:Hdata; simpl; [|done|].
  - intros [= <-]. rewrite decide_False by (by intros (_ & _ & ?)).
    simpl. rewrite app_nil_r. by split_and!.
  - intros [= <-]. rewrite decide_True by done. simpl.
    rewrite lookup_insert_eq. split_and!; try done.
    + simpl. by rewrite Hdata.
    + intros ts' Hne. by rewrite lookup_insert_ne.
Qed.

Lemma Process_store_is_Some msg w :
  (Meta.push (meta msg) = false → length (data msg) ≠ 1%nat) →
  is_Some (Process_store' msg w).
Proof.
  intros Hdata. unfold Process_store.
  destruct (Meta.push (meta msg)); simpl; [by eexists|].
  destruct (data msg) as [|d0 [|d1 rest]]; simpl in *;
    [by eexists|by destruct Hdata|by eexists].
Qed.

(** One delivery that returns: the response count of the message's
    timestamp has grown by one, and its callback has run when the count was
    [num_servers - 1]. *)
Lemma deliver_completion ts msg w w' n cbo k :
  Meta.simple_app (meta msg) = false → Meta.request (meta msg) = false →
  completion ts w = (n, cbo, k) → deliver msg w = Some w' →
  completion ts w'
  = if decide (Meta.timestamp (meta msg) = ts) then
      (n + 1,
       if decide (n = Z.of_nat num_servers - 1) then None else cbo,
       (k + if decide (n = Z.of_nat num_servers - 1)%Z
            then match cbo with Some _ => 1 | None => 0 end
            else 0)%nat)
    else (n, cbo, k).
Proof.
  intros Hsimple Hreq Hw. unfold Customer_deliver.
  rewrite Process_halves, Hreq by done.
  destruct (Process_store' msg w) as [w0|] eqn:Hstore; simpl; [|done].
  destruct (Process_store_Some _ _ _ Hstore) as (_ & Ht & Hc & Hl & _).
  assert (completion ts w0 = (n, cbo, k)) as Hw0.
  { rewrite <- Hw. unfold completion, NumResponse. by rewrite Ht, Hc, Hl. }
  clear Hw Ht Hc Hl Hstore.
  generalize (Meta.timestamp (meta msg)). intros ts'.
  unfold completion in Hw0. injection Hw0 as Hn Hcb Hk.
  destruct (decide (NumResponse ts' w0 = Z.of_nat num_servers - 1))
    as [Hlast|Hlast].
  - destruct (Run ts' w0) as [w1|] eqn:Hrun; simpl; [|done].
    intros [= <-]. rewrite completion_AddResponse.
    destruct (decide (ts' = ts)) as [->|Hne].
    + pose proof (completion_RunCallback _ _ _ Hrun) as Hr.
      unfold completion in Hr. injection Hr as -> -> ->.
      rewrite Hn in *. rewrite Hcb, Hk. by rewrite !decide_True by done.
    + pose proof (completion_RunCallback_other _ _ _ _ Hne Hrun) as Hr.
      unfold completion in Hr. injection Hr as -> -> ->.
      by rewrite Hn, Hcb, Hk.
  - simpl. intros [= <-]. rewrite completion_AddResponse.
    destruct (decide (ts' = ts)) as [->|Hne]; [|by rewrite Hn, Hcb, Hk].
    rewrite Hn in *. rewrite Hcb, Hk.
    by rewrite !decide_False, Nat.add_0_r by done.
Qed.

(** The state of the completion of [ts] once [j] of its responses have
    been delivered, when [skipped] shards were inactive and [active] were
    not. *)
Lemma deliver_all_completion ts cb base skipped active msgs :
  (skipped + active)%nat = num_servers → Forall kv_response msgs →
  ∀ w w' j,
    completion ts w
    = (Z.of_nat skipped + Z.of_nat j,
       if decide (active ≤ j)%nat then None else Some cb,
       (base + if decide (active ≤ j)%nat then 1 else 0)%nat) →
    deliver_all msgs w = Some w' →
    completion ts w'
    = (Z.of_nat skipped + Z.of_nat (j + responses_to ts msgs),
       if decide (active ≤ j + responses_to ts msgs)%nat
       then None else Some cb,
       (base + if decide (active ≤ j + responses_to ts msgs)%nat
               then 1 else 0)%nat).
Proof.
  intros Hn Hmsgs.
  induction Hmsgs as [|msg msgs (Hsimple & Hreq & _) _ IH]; intros w w' j Hw.
  { intros [= <-]. unfold responses_to. simpl. by rewrite Nat.add_0_r. }
  simpl. destruct (deliver msg w) as [w1|] eqn:Hd; simpl; [|done].
  intros Hrest.
  pose proof (deliver_completion ts msg w w1 _ _ _ Hsimple Hreq Hw Hd) as Hw1.
  rewrite responses_to_cons.
  destruct (decide (Meta.timestamp (meta msg) = ts)) as [Hts|Hts].
  - rewrite (IH w1 w' (S j)); [|clear IH Hrest|done].
    + by replace (j + (1 + responses_to ts msgs))%nat
        with (S j + responses_to ts msgs)%nat by lia.
    + rewrite Hw1.
      repeat case_decide; try (exfalso; lia);
        (f_equal; [f_equal|]; (lia || done)).
  - rewrite (IH w1 w' j); [done|by rewrite Hw1|done].
Qed.

(** [Send] on a request whose callback is registered and whose count is
    still zero: it credits the inactive shards, and runs the callback at
    once when no shard is active. *)
Lemma Send_completion slicer ts push cmd kvs w w1 sliced cb :
  slicer kvs ranges = Some sliced → length sliced = num_servers →
  callbacks_ w !! ts = Some cb → NumResponse ts w = 0 →
  Send_with slicer ts push cmd kvs w = Some w1 →
  completion ts w1
  = (Z.of_nat (count_skipped sliced) + Z.of_nat 0,
     if decide (length (active_shards sliced) ≤ 0)%nat then None else Some cb,
     (callback_count ts (log w)
      + if decide (length (active_shards sliced) ≤ 0)%nat then 1 else 0)%nat).
Proof.
  intros Hs Hlen Hcb Hcount. unfold Send. rewrite Hs. simpl.
  pose proof (count_skipped_active sliced) as Hsum.
  set (skipped := count_skipped sliced) in *.
  set (active := length (active_shards sliced)) in *.
  destruct (decide (skipped = length sliced)) as [He|Hne].
  - destruct (Run ts _) as [w2|] eqn:Hrun; simpl; [|done].
    intros [= <-]. rewrite completion_Send_shards.
    rewrite (completion_RunCallback _ _ _ Hrun).
    unfold AddResponse, NumResponse. simpl.
    rewrite lookup_insert_eq, Hcb. fold (NumResponse ts w). rewrite Hcount.
    rewrite !decide_True by lia. simpl. f_equal. f_equal. lia.
  - simpl. intros [= <-].
    rewrite completion_Send_shards, completion_AddResponse.
    rewrite decide_True, Hcount, Hcb by done.
    rewrite !decide_False by lia. f_equal; [f_equal|]; lia.
Qed.

(** *** Deliveries that do not fail *)

Lemma fragments_of_cons ts msg (msgs : list (@Message Segment)) :
  frags ts (msg :: msgs) = frags ts [msg] ++ frags ts msgs.
Proof.
  unfold fragments_of. rewrite !filter_cons, filter_nil.
  by destruct (decide _).
Qed.

Lemma fragments_of_nil ts : frags ts [] = [].
Proof. done. Qed.

Lemma until_response_0 ts (msgs : list (@Message Segment)) :
  until_response ts 0 msgs = [].
Proof. by destruct msgs. Qed.

Lemma fragments_of_other ts msg :
  Meta.timestamp (meta msg) ≠ ts → frags ts [msg] = [].
Proof.
  intros Hne. unfold fragments_of. rewrite filter_cons, filter_nil.
  by rewrite decide_False by (by intros (? & _)).
Qed.

#[local] Abbreviation delivery_state :=
  (delivery_state (UserCallback:=UserCallback) keys_of_seg vals_of_seg
     lens_of_seg Val_zero slicer_kind num_servers).

Lemma deliver_returns ts c k msg msgs w :
  kv_response msg → others_user ts (msg :: msgs) w →
  delivery_state ts c k (msg :: msgs) w →
  ∃ w1, deliver msg w = Some w1
    ∧ others_user ts msgs w1
    ∧ delivery_state ts c
        (if decide (Meta.timestamp (meta msg) = ts) then pred k else k)
        msgs w1.
Proof.
  intros (Hsimple & Hreq & Hdata) Hothers Hstate.
  unfold Customer_deliver. rewrite Process_halves, Hreq by done.
  set (ts' := Meta.timestamp (meta msg)) in *.
  destruct (Process_store_is_Some msg w Hdata) as [w0 Hstore].
  rewrite Hstore. simpl.
  destruct (Process_store_Some _ _ _ Hstore)
    as (_ & Ht & Hc & Hl & _ & Hrecv & Hrecv').
  fold ts' in Hrecv, Hrecv'.
  assert (∀ w1 t,
            callbacks_ w1 = callbacks_ w0
            ∨ callbacks_ w1 = delete t (callbacks_ w0) →
            others_user ts msgs (AddResponse ts' 1 w1)) as Hkeep.
  { intros w1 t Hw1 m c' Hm Hne Hc'. simpl in Hc'.
    apply (Hothers m c'); [by apply list_elem_of_further|done|].
    rewrite <- Hc. destruct Hw1 as [<- | Hw1]; [done|].
    rewrite Hw1 in Hc'. by apply lookup_delete_Some in Hc' as [_ ?]. }
  destruct (decide (ts' = ts)) as [Heq|Hne].
  - (* a response to [ts] *)
    rewrite Heq in *. destruct k as [|k].
    + (* the callback has run *)
      simpl in Hstate. rewrite <- Hc in Hstate.
      assert (is_Some (Run ts w0)) as [w1 Hrun].
      { apply RunCallback_is_Some. intros c0 Hc0. by rewrite Hstate in Hc0. }
      destruct (RunCallback_Some _ _ _ Hrun) as (_ & _ & Hc1 & _).
      destruct (decide (NumResponse ts w0 = _)).
      * rewrite Hrun. simpl. eexists. split; [done|]. split.
        -- apply (Hkeep w1 ts). by right.
        -- simpl. by rewrite Hc1, lookup_delete_eq.
      * simpl. eexists. split; [done|]. split.
        -- apply (Hkeep w0 ts). by left.
        -- done.
    + destruct Hstate as (Hnum & Hcb & Hpass).
      assert (NumResponse ts w0 = Z.of_nat num_servers - Z.of_nat (S k))
        as Hnum0 by (unfold NumResponse in *; by rewrite Ht).
      rewrite responses_to_cons, decide_True in Hpass by done.
      simpl in Hpass. rewrite decide_True in Hpass by done.
      rewrite fragments_of_cons, app_assoc, <- Hrecv in Hpass.
      destruct k as [|k].
      * (* the last response: the callback runs *)
        rewrite decide_True by (rewrite Hnum0; lia).
        assert (is_Some (Run ts w0)) as [w1 Hrun].
        { apply RunCallback_is_Some. intros c0 Hc0.
          rewrite Hc, Hcb in Hc0. injection Hc0 as <-.
          specialize (Hpass ltac:(lia)).
          by rewrite until_response_0, fragments_of_nil, app_nil_r in Hpass. }
        destruct (RunCallback_Some _ _ _ Hrun) as (_ & _ & Hc1 & _).
        rewrite Hrun. simpl. eexists. split; [done|]. split.
        -- apply (Hkeep w1 ts). by right.
        -- simpl. by rewrite Hc1, lookup_delete_eq.
      * rewrite decide_False by (rewrite Hnum0; lia).
        simpl. eexists. split; [done|]. split.
        -- apply (Hkeep w0 ts). by left.
        -- split_and!.
           ++ unfold AddResponse, NumResponse. simpl.
              rewrite lookup_insert_eq. fold (NumResponse ts w0).
              rewrite Hnum0. simpl. lia.
           ++ simpl. by rewrite Hc.
           ++ intros Hle. simpl. apply Hpass. lia.
  - (* a response to another request *)
    assert (∀ c0, callbacks_ w0 !! ts' = Some c0 → ∃ u, c0 = UserCb u) as Hu.
    { intros c0 Hc0. rewrite Hc in Hc0.
      by apply (Hothers msg c0); [apply list_elem_of_here|..]. }
    assert (is_Some (Run ts' w0)) as [w1 Hrun].
    { apply RunCallback_is_Some. intros c0 Hc0.
      by destruct (Hu c0 Hc0) as [u ->]. }
    destruct (RunCallback_Some _ _ _ Hrun) as (_ & Ht1 & Hc1 & _ & Hr1 & _).
    assert (recv_kvs_ w1 = recv_kvs_ w0) as Hr1'.
    { rewrite Hr1. destruct (callbacks_ w0 !! ts') as [c0|] eqn:Hc0; [|done].
      by destruct (Hu c0 eq_refl) as [u ->]. }
    assert (∀ w2, tracker w2 = tracker w0 →
                  callbacks_ w2 !! ts = callbacks_ w0 !! ts →
                  recv_kvs_ w2 = recv_kvs_ w0 →
                  delivery_state ts c k msgs (AddResponse ts' 1 w2)) as Hst.
    { intros w2 Ht2 Hc2 Hr2. destruct k as [|k]; simpl in *.
      - by rewrite Hc2, Hc.
      - destruct Hstate as (Hnum & Hcb & Hpass).
        rewrite responses_to_cons, decide_False in Hpass by done.
        rewrite decide_False in Hpass by done.
        rewrite fragments_of_cons, fragments_of_other in Hpass by done.
        split_and!.
        + unfold NumResponse in *. simpl.
          by rewrite lookup_insert_ne, Ht2, Ht by done.
        + by rewrite Hc2, Hc.
        + intros Hle. rewrite Hr2, (Hrecv' ts) by done. by apply Hpass. }
    destruct (decide (NumResponse ts' w0 = _)).
    + rewrite Hrun. simpl. eexists. split; [done|]. split.
      * apply (Hkeep w1 ts'). by right.
      * apply Hst; [done| |done]. by rewrite Hc1, lookup_delete_ne.
    + simpl. eexists. split; [done|]. split.
      * apply (Hkeep w0 ts'). by left.
      * by apply Hst.
Qed.

Lemma deliver_all_returns ts c msgs :
  Forall kv_response msgs →
  ∀ k w, others_user ts msgs w → delivery_state ts c k msgs w →
         is_Some (deliver_all msgs w).
Proof.
  induction 1 as [|msg msgs Hmsg _ IH]; intros k w Hothers Hstate;
    [by eexists|].
  destruct (deliver_returns ts c k msg msgs w Hmsg Hothers Hstate)
    as (w1 & Hd & Hothers1 & Hstate1).
  simpl. rewrite Hd. simpl. by eapply IH.
Qed.

#[local] Abbreviation ZPush_with slicer :=
  (ZPush seg_of_keys seg_of_vals seg_of_lens Val_zero slicer_kind num_servers
         ranges ServerRankToID my_node_id obj_app_id obj_customer_id slicer).
#[local] Abbreviation Pull_with slicer :=
  (Pull_ seg_of_keys seg_of_vals seg_of_lens Val_zero slicer_kind num_servers
         ranges ServerRankToID my_node_id obj_app_id obj_customer_id slicer).

(** The state in which a request leaves the worker. *)
Lemma Send_returns slicer ts push cmd kvs w sliced c msgs :
  slicer kvs ranges = Some sliced → length sliced = num_servers →
  callbacks_ w !! ts = Some c → NumResponse ts w = 0 →
  recv_kvs_ w !! ts = None → others_user ts msgs w →
  ((length (active_shards sliced) ≤ responses_to ts msgs)%nat →
   passes c (frags ts (until_response ts (length (active_shards sliced))
                         msgs))) →
  ∃ w1, Send_with slicer ts push cmd kvs w = Some w1
    ∧ others_user ts msgs w1
    ∧ delivery_state ts c (length (active_shards sliced)) msgs w1.
Proof.
  intros Hs Hlen Hcb Hcount Hrecv Hothers Hpass.
  unfold Send. rewrite Hs. simpl.
  pose proof (count_skipped_active sliced) as Hsum.
  set (skipped := count_skipped sliced) in *.
  set (active := length (active_shards sliced)) in *.
  set (w0 := AddResponse ts (Z.of_nat skipped) w).
  assert (∀ w2, callbacks_ w2 = callbacks_ w
                ∨ callbacks_ w2 = delete ts (callbacks_ w) →
                others_user ts msgs (Send_shards' ts push cmd 0 sliced w2))
    as Hkeep.
  { intros w2 Hw2 m c' Hm Hne Hc'.
    destruct (Send_shards_state ts push cmd 0 sliced w2)
      as (_ & _ & _ & Hc2 & _).
    rewrite Hc2 in Hc'. apply (Hothers m c'); [done..|].
    destruct Hw2 as [<- | Hw2]; [done|].
    rewrite Hw2 in Hc'. by apply lookup_delete_Some in Hc' as [_ ?]. }
  destruct (decide (skipped = length sliced)) as [He|Hne].
  - assert (active = 0%nat) as Ha by lia. rewrite Ha in *.
    assert (is_Some (Run ts w0)) as [w2 Hrun].
    { apply RunCallback_is_Some. intros c0 Hc0. simpl in Hc0.
      rewrite Hcb in Hc0. injection Hc0 as <-. simpl. rewrite Hrecv.
      rewrite until_response_0, fragments_of_nil in Hpass.
      apply Hpass. lia. }
    destruct (RunCallback_Some _ _ _ Hrun) as (_ & _ & Hc2 & _).
    rewrite Hrun. simpl. eexists. split; [done|]. split.
    + apply Hkeep. by right.
    + simpl. destruct (Send_shards_state ts push cmd 0 sliced w2)
        as (_ & _ & _ & -> & _).
      by rewrite Hc2, lookup_delete_eq.
  - simpl. eexists. split; [done|]. split.
    + apply Hkeep. by left.
    + destruct (Send_shards_state ts push cmd 0 sliced w0)
        as (_ & Ht & Hr & Hc & _).
      destruct active as [|k] eqn:Hact; [lia|]. split_and!.
      * unfold NumResponse. rewrite Ht. simpl. rewrite lookup_insert_eq.
        fold (NumResponse ts w). rewrite Hcount. simpl. lia.
      * by rewrite Hc.
      * intros Hle. rewrite Hr. simpl. rewrite Hrecv. by apply Hpass.
Qed.


End Worker_properties.

(** ** The server *)

Section Server_properties.
Context {Val Segment ReqHandle : Type}.
Variable keys_of_seg : Segment → list Key.
Variable vals_of_seg : Segment → list Val.
Variable lens_of_seg : Segment → list Z.

#[local] Abbreviation KVServer_Process' :=
  (KVServer_Process (Val:=Val) keys_of_seg vals_of_seg lens_of_seg
     (ReqHandle:=ReqHandle)).

(** C7: with the request handle set, [KVServer::Process] hands a message
    that is not a simple-app message to the handle when it has no, two or
    three data segments: an empty [KVPairs] for none, keys and values with
    empty lengths for two, and keys, values and lengths for three provided
    there are as many lengths as keys.  One segment, more than three, and
    three with a different number of lengths and keys are fatal. *)
Theorem KVServer_Process_segments (h : ReqHandle) (msg : @Message Segment) :
  Meta.simple_app (meta msg) = false →
  KVServer_Process' (Some h) msg
  = let m := KVMeta.mk (Meta.head (meta msg)) (Meta.push (meta msg))
               (Meta.sender (meta msg)) (Meta.timestamp (meta msg))
               (Meta.customer_id (meta msg)) in
    match data msg with
    | [] => Some (CallRequestHandle h m empty_kv)
    | [d0] => None
    | [d0; d1] =>
        Some (CallRequestHandle h m
                (mkKVPairs (keys_of_seg d0) (vals_of_seg d1) []))
    | [d0; d1; d2] =>
        if decide (length (lens_of_seg d2) = length (keys_of_seg d0))
        then Some (CallRequestHandle h m
                     (mkKVPairs (keys_of_seg d0) (vals_of_seg d1)
                        (lens_of_seg d2)))
        else None
    | _ => None
    end.
Proof.
  intros Hsimple. unfold KVServer_Process. rewrite Hsimple.
  destruct (data msg) as [|d0 [|d1 [|d2 [|d3 rest]]]]; simpl; try done.
  by destruct (decide _).
Qed.

End Server_properties.

(** ** The completion closure of a pull *)

Section Pull_properties.
Context {Val : Type}.
Variable Val_zero : Val.
Implicit Types (kvs : list (KVPairs Val)) (s : KVPairs Val).

(** The number of keys with the residue [r]. *)
Lemma count_server_spec n ks :
  ∀ cnt0 cnt,
    count_server n ks cnt0 = Some cnt →
    length cnt = length cnt0
    ∧ ∀ r c0, cnt0 !! r = Some c0 →
        cnt !! r
        = Some (c0 + length (filter (λ k, Z.to_nat (k `mod` Z.of_nat n) = r) ks))%nat.
Proof.
  induction ks as [|k ks IH]; intros cnt0 cnt Hc; simpl in Hc.
  { simplify_eq. split; [done|]. intros r c0 ->. simpl. f_equal. lia. }
  unfold server_of in Hc. destruct (decide (n = 0%nat)); [done|].
  simpl in Hc. apply IH in Hc as [Hlen Hc]. rewrite length_alter in Hlen.
  split; [done|]. intros r c0 Hr. rewrite filter_cons.
  destruct (decide (Z.to_nat (k `mod` Z.of_nat n) = r)) as [Heq|Hne].
  - rewrite (Hc r (S c0)); [simpl; f_equal; lia|].
    subst r. by rewrite list_lookup_alter_eq, Hr.
  - rewrite (Hc r c0); [done|]. by rewrite list_lookup_alter_ne.
Qed.

Lemma Pull_check_mod_spec n cnt kvs :
  ∀ tk tv tn tk' tv' tn',
    Pull_check_mod n cnt kvs tk tv tn = Some (tk', tv', tn') →
    Forall (λ s, ∃ k0, keys s !! 0%nat = Some k0
                  ∧ cnt !! Z.to_nat (k0 `mod` Z.of_nat n)
                    = Some (length (keys s))) kvs
    ∧ tk' = (tk + sum_list ((λ s, length (keys s)) <$> kvs))%nat
    ∧ tv' = (tv + sum_list ((λ s, length (vals s)) <$> kvs))%nat
    ∧ tn' = (tn + length kvs)%nat
    ∧ (kvs ≠ [] → n ≠ 0%nat).
Proof.
  induction kvs as [|s kvs IH]; intros tk tv tn tk' tv' tn' Hc; simpl in Hc.
  { simplify_eq. split_and!; [done|simpl; lia..|done]. }
  destruct (keys s !! 0%nat) as [k0|] eqn:Hk0; [|done]. simpl in Hc.
  unfold server_of in Hc. destruct (decide (n = 0%nat)); [done|].
  simpl in Hc.
  destruct (cnt !! _) as [c|] eqn:Hcnt; [|done]. simpl in Hc.
  destruct (decide (length (keys s) = c)) as [<-|]; [|done].
  apply IH in Hc as (Hall & -> & -> & -> & _).
  split_and!; [|csimpl; lia..|done].
  constructor; [|done]. by exists k0.
Qed.

(** C5: under the modulo policy the closure produces output only when
    every received fragment has as many keys as the caller has keys with
    the residue of the fragment's first key, and the fragments together
    have as many keys as the caller; otherwise it fails. *)
Theorem Pull_callback_mod_checks slicer_kind n ks kvs vals_buf lens_buf out :
  slicer_kind ≠ 0 →
  Pull_callback Val_zero slicer_kind n ks kvs vals_buf lens_buf = Some out →
  Forall (λ s, ∃ k0, keys s !! 0%nat = Some k0
                ∧ length (keys s)
                  = length (filter (λ k, k `mod` Z.of_nat n
                                         = k0 `mod` Z.of_nat n) ks)) kvs
  ∧ sum_list ((λ s, length (keys s)) <$> kvs) = length ks.
Proof.
  intros Hkind Hout. unfold Pull_callback in Hout.
  rewrite decide_False in Hout by done.
  destruct (count_server n ks _) as [cnt|] eqn:Hcnt; [|done]. simpl in Hout.
  destruct (Pull_check_mod _ _ _ _ _ _) as [[[tk tv] tn]|] eqn:Hchk; [|done].
  simpl in Hout. destruct (decide (tk = length ks)) as [->|]; [|done].
  clear Hout. apply count_server_spec in Hcnt as [Hlen Hcnt].
  apply Pull_check_mod_spec in Hchk as (Hall & Htk & _ & _ & Hn).
  split; [|simpl in Htk; lia].
  destruct (decide (kvs = [])) as [->|Hne]; [done|]. specialize (Hn Hne).
  eapply Forall_impl; [exact Hall|]. simpl.
  intros s (k0 & Hk0 & Hc). exists k0. split; [done|].
  assert (0 ≤ k0 `mod` Z.of_nat n < Z.of_nat n) as Hr
    by (apply Z.mod_pos_bound; lia).
  rewrite (Hcnt _ 0%nat) in Hc.
  2:{ apply lookup_replicate_2. lia. }
  simpl in Hc. injection Hc as Hc. rewrite <- Hc.
  f_equal. apply list_filter_iff. intros k.
  assert (0 ≤ k `mod` Z.of_nat n < Z.of_nat n)
    by (apply Z.mod_pos_bound; lia).
  split; intros Heq; (lia || by rewrite Heq).
Qed.

End Pull_properties.

(** ** The worker and the server on the scenarios *)

Lemma Send_empty_batch_witness :
  let w := scenario_worker in
  let w_pull : @Worker Z (list Z) nat :=
    mkWorker 1 {[0 := 0]} ∅ {[0 := PullCb [] (Some []) None (Some 7%nat)]}
             [] ∅ in
  let rank_id := λ r : nat, 8 + 2 * Z.of_nat r in
  DefaultSlicer empty_batch range3
  = Some (replicate 3 (false, empty_kv))
  ∧ (∃ w', Send id id id 0 0 3 range3 rank_id 9 0 0 DefaultSlicer
                0 true 0 empty_batch w = Some w'
       ∧ NumResponse 0 w' = NumResponse 0 w + Z.of_nat 3
       ∧ log w' = log w ++ match callbacks_ w !! 0 with
                           | Some cb => [EvCallback 0 cb]
                           | None => []
                           end
       ∧ callbacks_ w' !! 0 = None
       ∧ sent (log w') = sent (log w))
  ∧ (∃ w', Send id id id 0 0 3 range3 rank_id 9 0 0 DefaultSlicer
                0 false 0 empty_batch w_pull = Some w'
       ∧ NumResponse 0 w' = 3
       ∧ log w' = [EvCallback 0 (PullCb [] (Some []) None (Some 7%nat))]
       ∧ callbacks_ w' !! 0 = None
       ∧ sent (log w') = []).
Proof.
  intros w w_pull rank_id.
  destruct (Send_empty_batch id id id 0 0 3 range3 rank_id 9 0 0
              DefaultSlicer 0 true 0 empty_batch w)
    as (Hs & _ & Hpush & _);
    [reflexivity|reflexivity|exact range3_adjacent|by left|].
  destruct (Send_empty_batch id id id 0 0 3 range3 rank_id 9 0 0
              DefaultSlicer 0 false 0 empty_batch w_pull)
    as (_ & _ & Hpull & Hnil);
    [reflexivity|reflexivity|exact range3_adjacent|by left|].
  split; [exact Hs|]. split.
  - apply Hpush. intros c Hc. vm_compute in Hc. injection Hc as <-. exact I.
  - destruct Hpull as (w' & Hw' & Hnum & Hlog & Hcb & Hsent).
    + intros c Hc. vm_compute in Hc. injection Hc as <-.
      apply (Hnil None (Some 7%nat)). by left.
    + exists w'. split; [exact Hw'|]. split; [exact Hnum|].
      split; [exact Hlog|]. split; [exact Hcb|exact Hsent].
Defined.


Lemma KVServer_Process_segments_witness :
  KVServer_Process (Val:=Z) id id id (Some 1%nat)
    (mkMessage (Meta.mk 0 0 true false 0 5 9 8 false) [[2; 12]; [1; 2]])
  = Some (CallRequestHandle 1%nat (KVMeta.mk 0 false 8 5 0)
            (mkKVPairs [2; 12] [1; 2] [])).
Proof.
  apply (KVServer_Process_segments (Val:=Z) id id id 1%nat
           (mkMessage (Meta.mk 0 0 true false 0 5 9 8 false)
              [[2; 12]; [1; 2]])).
  reflexivity.
Defined.

Lemma Pull_callback_mod_checks_witness :
  let ks := [1; 2; 3; 4; 5] in
  let kvs := [mkKVPairs [2; 5] [20; 50] []; mkKVPairs [3] [30] [];
              mkKVPairs [1; 4] [10; 40] []] in
  Forall (λ s, ∃ k0, keys s !! 0%nat = Some k0
                ∧ length (keys s)
                  = length (filter (λ k, k `mod` Z.of_nat 3
                                         = k0 `mod` Z.of_nat 3) ks)) kvs
  ∧ sum_list ((λ s, length (keys s)) <$> kvs) = length ks.
Proof.
  intros ks kvs.
  apply (Pull_callback_mod_checks 0 1 3 ks kvs [] None
           ([10; 20; 30; 40; 50], None)).
  - done.
  - vm_compute. reflexivity.
Defined.

(** C3: the reassembly fails on the code under the modulo policy.  With
    three servers the modulo slicer cuts the caller's keys [0, 3, 6] into
    the shards [0], [3] and [6]; when the three servers answer with exactly
    these keys and one value each, the closure of the pull fails its tally
    check and writes no output, whereas the values were to be reassembled
    in the order of the caller's keys. *)
Theorem Pull_modulo_own_shards_rejected :
  let ks := [0; 3; 6] in
  let kvs := [mkKVPairs [0] [10] []; mkKVPairs [3] [20] [];
              mkKVPairs [6] [30] []] in
  ∃ sliced,
    ModSlicer 3 (mkKVPairs ks ([] : list Z) []) range3 = Some sliced
    ∧ Forall (λ sh, sh.1 = true) sliced
    ∧ (λ sh, keys sh.2) <$> sliced = keys <$> kvs
    ∧ Pull_callback 0 1 3 ks kvs [] None = None.
Proof.
  intros ks kvs. eexists. split_and!.
  - vm_compute. reflexivity.
  - repeat constructor.
  - reflexivity.
  - vm_compute. reflexivity.
Qed.

(** ** Reassembly under the range policy *)

Lemma lower_bound_app l1 l2 x :
  Forall (λ k, k < x) l1 →
  lower_bound (l1 ++ l2) x = (length l1 + lower_bound l2 x)%nat.
Proof.
  induction 1 as [|y l1 Hy _ IH]; simpl; [done|].
  by rewrite decide_True, IH.
Qed.

Lemma lower_bound_head l x :
  (∀ y, head l = Some y → x ≤ y) → lower_bound l x = 0%nat.
Proof.
  destruct l as [|y l]; simpl; [done|]. intros Hy.
  rewrite decide_False; [done|]. specialize (Hy y eq_refl). lia.
Qed.

(** Keys that increase strictly within bounds are no more than the bounds
    leave room for. *)
Lemma StronglySorted_lt_length l lo hi :
  StronglySorted Z.lt l → Forall (λ k, lo ≤ k < hi) l →
  Z.of_nat (length l) ≤ Z.max 0 (hi - lo).
Proof.
  intros Hl. revert lo. induction Hl as [|y l Hl IH Hy]; intros lo Hb.
  { simpl. lia. }
  apply Forall_cons in Hb as [Hy0 Hb].
  specialize (IH (y + 1)). simpl length. rewrite Nat2Z.inj_succ.
  assert (Forall (λ k, y + 1 ≤ k < hi) l) as Hb'.
  { apply Forall_forall. intros k Hk.
    pose proof (proj1 (Forall_forall _ _) Hy _ Hk).
    pose proof (proj1 (Forall_forall _ _) Hb _ Hk). simpl in *. lia. }
  specialize (IH Hb'). lia.
Qed.

(** The index interval that [FindRange] returns for a run of consecutive
    keys has the length of the run. *)
Lemma FindRange_piece l1 piece l2 first_key last_key :
  StronglySorted Z.lt (l1 ++ piece ++ l2) →
  Forall (λ k, 0 ≤ k < 2 ^ 64 - 1) (l1 ++ piece ++ l2) →
  head piece = Some first_key → last piece = Some last_key →
  Range_size (FindRange (l1 ++ piece ++ l2) first_key (wrap64 (last_key + 1)))
  = Z.of_nat (length piece).
Proof.
  intros Hsorted Hbound Hfirst Hlast.
  pose proof (StronglySorted_lt_length _ _ _ Hsorted Hbound) as Hlen.
  rewrite !length_app in Hlen.
  apply StronglySorted_app in Hsorted as (H1 & _ & Hsorted).
  apply StronglySorted_app in Hsorted as (H2 & Hpiece & _).
  assert (first_key ∈ piece) as Hf by (destruct piece; simplify_eq/=; left).
  assert (last_key ∈ piece) as Hl.
  { destruct piece as [|y piece _] using rev_ind; [done|].
    rewrite last_snoc in Hlast. simplify_eq. apply elem_of_app. right. left. }
  assert (0 ≤ last_key < 2 ^ 64 - 1) as Hlk.
  { apply (proj1 (Forall_forall _ _) Hbound). rewrite !elem_of_app. auto. }
  rewrite wrap64_small by lia.
  unfold FindRange, Range_size. simpl.
  rewrite (lower_bound_app l1 (piece ++ l2) first_key).
  2:{ apply Forall_forall. intros k Hk. apply H1; [done|].
      rewrite elem_of_app. auto. }
  rewrite (lower_bound_head (piece ++ l2) first_key).
  2:{ intros y Hy. destruct piece; simplify_eq/=. lia. }
  rewrite app_assoc, (lower_bound_app (l1 ++ piece) l2 (last_key + 1)).
  2:{ apply Forall_forall. intros k [Hk|Hk]%elem_of_app.
      - assert (k < last_key); [|lia]. apply H1; [done|].
        rewrite elem_of_app. auto.
      - assert (k ≤ last_key); [|lia].
        destruct piece as [|y piece _] using rev_ind; [done|].
        rewrite last_snoc in Hlast. simplify_eq.
        apply elem_of_app in Hk as [Hk|Hk].
        + apply StronglySorted_app in Hpiece as (Hp & _).
          assert (k < last_key); [|lia]. apply Hp; [done|left].
        + apply list_elem_of_singleton in Hk. lia. }
  rewrite (lower_bound_head l2 (last_key + 1)).
  2:{ intros y Hy. assert (last_key < y); [|lia]. apply H2; [done|].
      destruct l2; simplify_eq/=. left. }
  rewrite length_app, wrap64_small; lia.
Qed.

Lemma concat_fmap_concat {A B} (f : A → list B) (ls : list (list A)) :
  concat ((λ l, concat (f <$> l)) <$> ls) = concat (f <$> concat ls).
Proof.
  induction ls as [|l ls IH]; [done|].
  csimpl. by rewrite fmap_app, concat_app, IH.
Qed.

Lemma fmap_concat {A B} (f : A → B) (ls : list (list A)) :
  concat ((λ l : list A, f <$> l) <$> ls) = f <$> concat ls.
Proof.
  induction ls as [|l ls IH]; [done|]. csimpl. by rewrite fmap_app, IH.
Qed.

Lemma sum_list_fmap_cons {A} (f : A → nat) x l :
  sum_list (f <$> x :: l) = (f x + sum_list (f <$> l))%nat.
Proof. done. Qed.

Lemma memcpy_app {A} (done rest src : list A) :
  (length src ≤ length rest)%nat →
  memcpy (done ++ rest) (length done) src
  = Some ((done ++ src) ++ drop (length src) rest).
Proof.
  intros Hle. unfold memcpy. rewrite decide_True by (rewrite length_app; lia).
  rewrite take_app_length, drop_app_add'; [|done].
  by rewrite <- app_assoc.
Qed.

Lemma memcpy_app_at {A} (done rest src : list A) off :
  off = length done → (length src ≤ length rest)%nat →
  memcpy (done ++ rest) off src
  = Some ((done ++ src) ++ drop (length src) rest).
Proof. intros ->. apply memcpy_app. Qed.

Section Range_reassembly.
Context {Val : Type}.
Variable Val_zero : Val.
Implicit Types (s : KVPairs Val) (kvs : list (KVPairs Val))
  (block : Z → list Val).

(** *** The sort *)

Lemma sort_insert_perm s kvs : sort_insert s kvs ≡ₚ s :: kvs.
Proof.
  induction kvs as [|b kvs IH]; simpl; [done|].
  destruct (decide _); [|done]. rewrite IH. apply Permutation_swap.
Qed.

Lemma sort_by_front_perm kvs : sort_by_front kvs ≡ₚ kvs.
Proof.
  induction kvs as [|s kvs IH]; simpl; [done|].
  by rewrite sort_insert_perm, IH.
Qed.

Lemma sort_insert_sorted s kvs :
  StronglySorted front_lt kvs → Forall (λ b, front b ≠ front s) kvs →
  StronglySorted front_lt (sort_insert s kvs).
Proof.
  induction 1 as [|b kvs Hs IH Hb]; intros Hne; simpl.
  { repeat constructor. }
  apply Forall_cons in Hne as [Hbs Hne].
  destruct (decide (front b < front s)) as [Hlt|Hge].
  - constructor; [by apply IH|].
    rewrite sort_insert_perm. by constructor.
  - constructor; [by constructor|].
    assert (front s < front b) as Hlt by lia.
    constructor; [done|]. eapply Forall_impl; [exact Hb|].
    unfold front_lt. simpl. lia.
Qed.

Lemma sort_by_front_sorted kvs :
  NoDup (front <$> kvs) → StronglySorted front_lt (sort_by_front kvs).
Proof.
  induction kvs as [|s kvs IH]; simpl; [constructor|].
  intros [Hs Hnd]%NoDup_cons. apply sort_insert_sorted; [by apply IH|].
  rewrite sort_by_front_perm. apply Forall_forall. intros b Hb Heq.
  apply Hs. rewrite <- Heq. by apply list_elem_of_fmap_2.
Qed.

Lemma front_lt_NoDup kvs :
  StronglySorted front_lt kvs → NoDup (front <$> kvs).
Proof.
  induction 1 as [|s kvs Hs IH Hall]; csimpl; constructor; [|done].
  intros (b & Heq & Hb)%list_elem_of_fmap.
  pose proof (proj1 (Forall_forall _ _) Hall _ Hb) as Hlt.
  unfold front_lt in Hlt. lia.
Qed.

(** Sorting fragments that arrived in any order gives them in the order
    of their first keys. *)
Lemma sort_by_front_unique kvs sorted :
  kvs ≡ₚ sorted → StronglySorted front_lt sorted →
  sort_by_front kvs = sorted.
Proof.
  intros Hperm Hsorted. apply (StronglySorted_unique_strong front_lt).
  - unfold front_lt. intros; lia.
  - apply sort_by_front_sorted. rewrite Hperm. by apply front_lt_NoDup.
  - done.
  - by rewrite sort_by_front_perm.
Qed.

(** *** The checks *)

Lemma Pull_check_range_ok ks want_lens kvs :
  Forall (range_fragment_ok ks want_lens) kvs →
  ∀ tk tv,
    Pull_check_range ks want_lens kvs tk tv
    = Some ((tk + sum_list ((λ s, length (keys s)) <$> kvs))%nat,
            (tv + sum_list ((λ s, length (vals s)) <$> kvs))%nat).
Proof.
  induction 1 as [|s kvs (fk & lk & Hf & Hl & Hsize & Hlens) _ IH];
    intros tk tv.
  { simpl. by rewrite !Nat.add_0_r. }
  rewrite !sum_list_fmap_cons.
  change (Pull_check_range ks want_lens (s :: kvs) tk tv)
    with (first_key ← head (keys s);
          last_key ← last (keys s);
          if decide (Range_size (FindRange ks first_key (wrap64 (last_key + 1)))
                     = Z.of_nat (length (keys s))) then
            if want_lens
               && negb (bool_decide (length (lens s) = length (keys s)))
            then None
            else Pull_check_range ks want_lens kvs
                   (tk + length (keys s)) (tv + length (vals s))
          else None).
  rewrite Hf, Hl. simpl. rewrite decide_True by done.
  destruct want_lens; simpl.
  - rewrite bool_decide_true by auto. simpl.
    rewrite IH. f_equal. f_equal; lia.
  - rewrite IH. f_equal. f_equal; lia.
Qed.

(** *** The merge *)

Lemma Pull_merge_range_spec kvs :
  ∀ done rest ldone lrest,
    (sum_list ((λ s, length (vals s)) <$> kvs) ≤ length rest)%nat →
    (sum_list ((λ s, length (lens s)) <$> kvs) ≤ length lrest)%nat →
    (Pull_merge_range kvs (mkPullOut (done ++ rest) (length done) None 0)
     = Some (mkPullOut
               ((done ++ concat (vals <$> kvs))
                ++ drop (sum_list ((λ s, length (vals s)) <$> kvs)) rest)
               (length done + sum_list ((λ s, length (vals s)) <$> kvs))
               None 0))
    ∧ (Pull_merge_range kvs
         (mkPullOut (done ++ rest) (length done) (Some (ldone ++ lrest))
            (length ldone))
       = Some (mkPullOut
                 ((done ++ concat (vals <$> kvs))
                  ++ drop (sum_list ((λ s, length (vals s)) <$> kvs)) rest)
                 (length done + sum_list ((λ s, length (vals s)) <$> kvs))
                 (Some ((ldone ++ concat (lens <$> kvs))
                        ++ drop (sum_list ((λ s, length (lens s)) <$> kvs))
                             lrest))
                 (length ldone
                  + sum_list ((λ s, length (lens s)) <$> kvs)))).
Proof.
  induction kvs as [|s kvs IH]; intros done rest ldone lrest Hv Hl.
  { csimpl. by rewrite !app_nil_r, !Nat.add_0_r. }
  rewrite !sum_list_fmap_cons in *.
  destruct (IH (done ++ vals s) (drop (length (vals s)) rest)
              (ldone ++ lens s) (drop (length (lens s)) lrest))
    as [IH1 IH2].
  { rewrite length_drop. lia. }
  { rewrite length_drop. lia. }
  rewrite length_app in IH1, IH2. rewrite length_app in IH2.
  split.
  - csimpl. rewrite memcpy_app by lia. csimpl. rewrite IH1.
    by rewrite !drop_drop, <- !app_assoc, !Nat.add_assoc.
  - csimpl. rewrite memcpy_app by lia. csimpl. rewrite memcpy_app by lia.
    csimpl. rewrite IH2.
    by rewrite !drop_drop, <- !app_assoc, !Nat.add_assoc.
Qed.

(** *** The fragments of the range slicer *)

Lemma shard_holds_active shards (sliced : SlicedKVs Val) :
  Forall2 shard_holds shards sliced →
  keys <$> active_shards sliced = filter (λ p, p ≠ []) shards.
Proof.
  unfold active_shards.
  induction 1 as [|ks [fl kv] shards sliced (Hfl & Hks & _) _ IH]; [done|].
  simpl in Hfl, Hks. rewrite !filter_cons. simpl. subst fl ks.
  destruct (decide (keys kv ≠ [])) as [Hne|He].
  - rewrite bool_decide_true, decide_True by done. csimpl. by rewrite IH.
  - rewrite bool_decide_false, decide_False by done. done.
Qed.

Lemma concat_filter_nonempty {A} (ls : list (list A)) :
  concat (filter (λ p, p ≠ []) ls) = concat ls.
Proof.
  induction ls as [|l ls IH]; [done|]. rewrite filter_cons.
  destruct (decide (l ≠ [])) as [|He]; simpl; [by rewrite IH|].
  apply dec_stable in He. by rewrite He, IH.
Qed.

Lemma response_front block with_lens piece x :
  head piece = Some x → front (response block with_lens piece) = x.
Proof. unfold front, response. simpl. by intros ->. Qed.

Lemma response_sorted block with_lens pieces :
  StronglySorted Z.lt (concat pieces) → Forall (λ p, p ≠ []) pieces →
  StronglySorted front_lt (response block with_lens <$> pieces).
Proof.
  induction pieces as [|p ps IH]; intros Hs Hne; csimpl; [constructor|].
  apply Forall_cons in Hne as [Hp Hne]. simpl in Hs.
  apply StronglySorted_app in Hs as (Hlt & _ & Hs).
  constructor; [by apply IH|]. apply Forall_fmap, Forall_forall.
  intros q Hq. unfold front_lt. simpl.
  pose proof (proj1 (Forall_forall _ _) Hne _ Hq) as Hqne. simpl in Hqne.
  destruct p as [|x p]; [done|]. destruct q as [|y q]; [done|].
  rewrite (response_front _ _ (x :: p) x eq_refl),
    (response_front _ _ (y :: q) y eq_refl).
  apply Hlt; [left|]. apply list_elem_of_lookup in Hq as [i Hi].
  eapply elem_of_concat_2; [exact Hi|left].
Qed.

Lemma response_ok block with_lens want_lens pieces :
  StronglySorted Z.lt (concat pieces) →
  Forall (λ k, 0 ≤ k < 2 ^ 64 - 1) (concat pieces) →
  Forall (λ p, p ≠ []) pieces →
  (want_lens = true → with_lens = true) →
  Forall (range_fragment_ok (concat pieces) want_lens)
         (response block with_lens <$> pieces).
Proof.
  intros Hs Hb Hne Hwl. apply Forall_fmap, Forall_forall. intros piece Hin.
  pose proof (proj1 (Forall_forall _ _) Hne _ Hin) as Hp. simpl in Hp.
  apply list_elem_of_split in Hin as (P1 & P2 & ->).
  rewrite concat_app in *. simpl in *.
  destruct (head piece) as [fk|] eqn:Hf; [|by destruct piece].
  destruct (last piece) as [lk|] eqn:Hl.
  2:{ destruct piece using rev_ind; [done|by rewrite last_snoc in Hl]. }
  exists fk, lk. split_and!; [done..| |].
  - by apply FindRange_piece.
  - intros ->%Hwl. simpl. by rewrite length_fmap.
Qed.

(** The reassembly of the range policy: when the caller's keys increase
    and lie in the ranges, and the fragments are the answers to the shards
    of the range slicer, each with the blocks of its keys, in whatever
    order they arrived, the closure fills the caller's empty buffer with
    the blocks in the order of the caller's keys, and the optional buffer
    with their lengths. *)
Lemma Pull_range_reassembles n ks ranges block with_lens sliced frags lens_buf :
  StronglySorted Z.lt ks → Forall (λ k, 0 ≤ k < 2 ^ 64 - 1) ks →
  ranges_cover ranges ks →
  DefaultSlicer (mkKVPairs ks [] []) ranges = Some sliced →
  frags ≡ₚ (λ sh : KVPairs Val, response block with_lens (keys sh))
           <$> active_shards sliced →
  lens_buf = None ∨ lens_buf = Some [] ∧ with_lens = true →
  Pull_callback Val_zero 0 n ks frags [] lens_buf
  = Some (concat (block <$> ks),
          (λ _, (λ k, Z.of_nat (length (block k))) <$> ks) <$> lens_buf).
Proof.
  intros Hsorted Hbound (Hadj & Hfirst & Hlast) Hs Hperm Hbuf.
  pose proof (DefaultSlicer_Some_keys _ _ _ Hs) as Hkeys.
  destruct (DefaultSlicer_Some_pos _ _ _ Hs) as [_ Hcat]. simpl in Hkeys, Hcat.
  assert (DefaultSlicer_pos0 ks ranges = 0%nat) as Hp0.
  { destruct ranges as [|r0 ranges]; [done|]. by apply lower_bound_0. }
  rewrite Hp0, drop_0 in Hkeys, Hcat.
  set (pieces := filter (λ p, p ≠ []) (range_shards ks ranges)).
  assert (concat pieces = ks) as Hpieces
    by (unfold pieces; by rewrite concat_filter_nonempty).
  assert (Forall (λ p, p ≠ []) pieces) as Hne.
  { apply Forall_forall. intros p Hp. by apply list_elem_of_filter in Hp as [? _]. }
  set (sorted := response block with_lens <$> pieces).
  assert (frags ≡ₚ sorted) as Hperm'.
  { rewrite Hperm. unfold sorted, pieces.
    rewrite <- (shard_holds_active _ _ Hkeys), <- list_fmap_compose. done. }
  assert (StronglySorted front_lt sorted) as Hsrt
    by (apply response_sorted; [by rewrite Hpieces|done]).
  assert (sum_list ((λ s, length (keys s)) <$> sorted) = length ks) as Hsk.
  { unfold sorted. rewrite <- list_fmap_compose, <- Hpieces. clear.
    induction pieces as [|p ps IH]; [done|].
    rewrite sum_list_fmap_cons. simpl. by rewrite length_app, IH. }
  assert (concat (vals <$> sorted) = concat (block <$> ks)) as Hv.
  { unfold sorted. rewrite <- list_fmap_compose, <- Hpieces.
    apply (concat_fmap_concat block). }
  assert (with_lens = true →
          concat (lens <$> sorted)
          = (λ k, Z.of_nat (length (block k))) <$> ks) as Hl.
  { intros ->. unfold sorted. rewrite <- list_fmap_compose, <- Hpieces.
    apply (fmap_concat (λ k, Z.of_nat (length (block k)))). }
  unfold Pull_callback. rewrite !decide_True by done.
  rewrite (Pull_check_range_ok ks _ frags).
  2:{ rewrite Hperm'. unfold sorted. rewrite <- Hpieces.
      apply response_ok; [by rewrite Hpieces..|done|].
      intros Hw%bool_decide_eq_true. destruct Hbuf as [->|[_ ->]]; [|done].
      by destruct Hw. }
  assert (sum_list ((λ s, length (keys s)) <$> frags) = length ks) as Hsk'
    by (by rewrite Hperm').
  assert (sum_list ((λ s, length (vals s)) <$> frags)
          = sum_list ((λ s, length (vals s)) <$> sorted)) as Hsv'
    by (by rewrite Hperm').
  simpl. rewrite Hsk', Hsv', decide_True by done.
  rewrite (sort_by_front_unique _ _ Hperm' Hsrt). simpl.
  set (tv := sum_list ((λ s, length (vals s)) <$> sorted)).
  assert (sum_list ((λ s, length (lens s)) <$> sorted)
          = if with_lens then length ks else 0%nat) as Hsl.
  { unfold sorted. rewrite <- list_fmap_compose, <- Hpieces. clear.
    induction pieces as [|p ps IH]; [by destruct with_lens|].
    rewrite sum_list_fmap_cons, IH. simpl.
    destruct with_lens; simpl; [|done]. by rewrite length_fmap, length_app. }
  destruct (Pull_merge_range_spec sorted [] (replicate tv Val_zero)
              [] (replicate (length ks) 0)) as [Hm1 Hm2].
  { rewrite length_replicate. done. }
  { rewrite length_replicate, Hsl. destruct with_lens; lia. }
  simpl in Hm1, Hm2. fold tv in Hm1, Hm2.
  rewrite (drop_ge (replicate tv Val_zero)), app_nil_r, Hv in Hm1, Hm2
    by (by rewrite length_replicate).
  destruct Hbuf as [->|[-> ->]]; simpl.
  - by rewrite Hm1.
  - rewrite Hm2. simpl. rewrite Hsl, Hl by done.
    by rewrite drop_ge, app_nil_r by (by rewrite length_replicate).
Qed.

End Range_reassembly.

(** ** Reassembly under the modulo policy: the cursor walk *)

Lemma concat_fmap_length_uniform {A B} (f : A → list B) (l : list A) len :
  Forall (λ x, length (f x) = len) l →
  length (concat (f <$> l)) = (len * length l)%nat.
Proof.
  induction 1 as [|x l Hx _ IH]; csimpl; [lia|].
  rewrite length_app, IH, Hx. lia.
Qed.

Lemma read_block_middle {A} (before blk after : list A) :
  read_block (before ++ blk ++ after) (length before) (Z.of_nat (length blk))
  = Some blk.
Proof.
  unfold read_block. rewrite decide_True by (rewrite !length_app; lia).
  by rewrite drop_app_length, Nat2Z.id, take_app_length.
Qed.

Lemma length_concat_fmap_take {A B} (f : A → list B) (l : list A) n :
  (length (concat (f <$> take n l)) ≤ length (concat (f <$> l)))%nat.
Proof.
  rewrite <- (take_drop n l) at 2. rewrite fmap_app, concat_app, length_app. lia.
Qed.

Lemma concat_fmap_snoc {A B} (f : A → list B) (l : list A) x :
  concat (f <$> l ++ [x]) = concat (f <$> l) ++ f x.
Proof. rewrite fmap_app, concat_app. simpl. by rewrite app_nil_r. Qed.

Lemma block_lens_lookup {Val} (block : Z → list Val) l i k :
  l !! i = Some k →
  block_lens block l !! i = Some (Z.of_nat (length (block k))).
Proof. intros Hk. unfold block_lens. by rewrite list_lookup_fmap, Hk. Qed.

Lemma block_lens_length {Val} (block : Z → list Val) l :
  length (block_lens block l) = length l.
Proof. unfold block_lens. by rewrite length_fmap. Qed.

Lemma block_lens_snoc {Val} (block : Z → list Val) l k :
  block_lens block (l ++ [k])
  = block_lens block l ++ [Z.of_nat (length (block k))].
Proof. unfold block_lens. by rewrite fmap_app. Qed.

Section Cursor_walk.
Context {Val : Type}.
Variable block : Z → list Val.
Variable with_lens : bool.
Variable ks : list Z.
Variable kvs : list (KVPairs Val).
Implicit Types (s : KVPairs Val).

Hypothesis ks_NoDup : NoDup ks.
Hypothesis kvs_ok : Forall (walk_fragment_ok block with_lens ks) kvs.
Hypothesis kvs_disjoint :
  ∀ j j' s s' k, kvs !! j = Some s → kvs !! j' = Some s' → j ≠ j' →
                 k ∈ keys s → k ∉ keys s'.
Hypothesis kvs_cover : ∀ k, k ∈ ks → ∃ j s, kvs !! j = Some s ∧ k ∈ keys s.

Lemma consumed_S i k s :
  ks !! i = Some k →
  consumed ks (S i) s
  = consumed ks i s ++ (if decide (k ∈ keys s) then [k] else []).
Proof.
  intros Hk. unfold consumed. by rewrite (take_S_r _ _ _ Hk), filter_app.
Qed.

(** The next key of a fragment that is not consumed yet is the caller's
    next key that belongs to it. *)
Lemma cursor_at i k s :
  keys s = filter (λ k, k ∈ keys s) ks → ks !! i = Some k → k ∈ keys s →
  keys s = consumed ks i s ++ k :: filter (λ k, k ∈ keys s) (drop (S i) ks).
Proof.
  intros Hs Hk Hin. rewrite Hs at 1.
  rewrite <- (take_drop_middle _ _ _ Hk) at 1.
  rewrite filter_app, filter_cons. by rewrite decide_True.
Qed.

Lemma find_fragment_spec k (l : list (KVPairs Val)) :
  ∀ cnt j j0 s c,
    l !! j = Some s → cnt !! j = Some c → keys s !! c = Some k →
    (∀ j' s' c', (j' < j)%nat → l !! j' = Some s' → cnt !! j' = Some c' →
                 keys s' !! c' ≠ Some k) →
    find_fragment k l cnt j0 = Some (j0 + j)%nat.
Proof.
  induction l as [|s0 l IH]; intros cnt j j0 s c Hs Hc Hk Hbefore; [done|].
  destruct cnt as [|c0 cnt]; [by destruct j|].
  destruct j as [|j]; simplify_eq/=.
  - apply lookup_lt_Some in Hk as Hlt.
    rewrite decide_False by lia. rewrite decide_True by done.
    f_equal. lia.
  - assert (keys s0 !! c0 ≠ Some k) as Hne
      by (apply (Hbefore 0%nat s0 c0); [lia|done..]).
    replace (j0 + S j)%nat with (S j0 + j)%nat by lia.
    destruct (decide (length (keys s0) ≤ c0)%nat).
    + eapply IH; [done..|]. intros j' s' c' ?. apply (Hbefore (S j')). lia.
    + rewrite decide_False by done.
      eapply IH; [done..|]. intros j' s' c' ?. apply (Hbefore (S j')). lia.
Qed.

Lemma cursors_step {B} (f : list Z → B) i j k s :
  ks !! i = Some k → kvs !! j = Some s → k ∈ keys s →
  <[j := f (consumed ks i s ++ [k])]> ((λ s, f (consumed ks i s)) <$> kvs)
  = (λ s, f (consumed ks (S i) s)) <$> kvs.
Proof.
  intros Hk Hj Hin. apply list_eq. intros j'.
  destruct (decide (j = j')) as [<-|Hne].
  - rewrite list_lookup_insert_eq
      by (rewrite length_fmap; by eapply lookup_lt_Some).
    rewrite list_lookup_fmap, Hj. simpl.
    by rewrite (consumed_S _ _ _ Hk), decide_True.
  - rewrite list_lookup_insert_ne by done. rewrite !list_lookup_fmap.
    destruct (kvs !! j') as [s'|] eqn:Hj'; [|done]. simpl.
    rewrite (consumed_S _ _ _ Hk), decide_False, app_nil_r; [done|].
    by eapply (kvs_disjoint j j').
Qed.

(** One iteration of the cursor walk copies the block of the caller's
    next key. *)
Lemma walk_step buf lbuf i k :
  ks !! i = Some k →
  length buf = length (concat (block <$> ks)) →
  (∀ lb, lbuf = Some lb → length lb = length ks ∧ with_lens = true) →
  Pull_merge_mod_body ks kvs (ModMerge_state block ks kvs buf lbuf i) i
  = Some (ModMerge_state block ks kvs buf lbuf (S i)).
Proof.
  intros Hk Hbuf Hlbuf. apply lookup_lt_Some in Hk as Hi.
  destruct (kvs_cover k) as (j & s & Hj & Hin);
    [by eapply list_elem_of_lookup_2|].
  destruct (proj1 (Forall_forall _ _) kvs_ok s) as (Hresp & Hne & Hsub & Hblk);
    [by eapply list_elem_of_lookup_2|].
  pose proof (cursor_at i k s Hsub Hk Hin) as Hcur.
  set (c := length (consumed ks i s)).
  set (sv := length (concat (block <$> consumed ks i s))).
  set (written := concat (block <$> take i ks)).
  assert (keys s !! c = Some k) as Hc
    by (rewrite Hcur; apply list_lookup_middle; done).
  assert (vals s = concat (block <$> keys s)) as Hvals by (by rewrite Hresp).
  assert (lens s = if with_lens then block_lens block (keys s) else []) as Hlens
    by (by rewrite Hresp).
  assert (find_fragment k kvs
            ((λ s, length (consumed ks i s)) <$> kvs) 0 = Some j) as Hfind.
  { apply (find_fragment_spec k kvs _ j 0%nat s c); [done| |done|].
    - by rewrite list_lookup_fmap, Hj.
    - intros j' s' c' Hlt Hj' _ Hk'%list_elem_of_lookup_2.
      eapply (kvs_disjoint j j'); [done..|lia|done|done]. }
  assert ((if decide (lens s = [])
           then Some (Z.of_nat (length (vals s) / length (keys s)))
           else wrap64 <$> lens s !! c)
          = Some (Z.of_nat (length (block k)))) as Hlen.
  { rewrite Hlens. destruct with_lens.
    - rewrite decide_False by (unfold block_lens; by destruct (keys s)).
      rewrite (block_lens_lookup _ _ _ _ Hc). simpl. f_equal.
      apply wrap64_small. split; [lia|].
      by apply (proj1 (Forall_forall _ _) Hblk).
    - rewrite decide_True by done. destruct Hblk as [len Hblk].
      rewrite Hvals, (concat_fmap_length_uniform _ _ len Hblk).
      rewrite Nat.div_mul by (by destruct (keys s)).
      by rewrite (proj1 (Forall_forall _ _) Hblk k Hin). }
  assert (read_block (vals s) sv (Z.of_nat (length (block k)))
          = Some (block k)) as Hread.
  { rewrite Hvals, Hcur, fmap_app, concat_app, fmap_cons. simpl.
    apply read_block_middle. }
  assert (concat (block <$> take (S i) ks) = written ++ block k) as Hwritten
    by (by rewrite (take_S_r _ _ _ Hk), concat_fmap_snoc).
  assert (memcpy (written ++ drop (length written) buf) (length written)
            (block k)
          = Some (concat (block <$> take (S i) ks)
                  ++ drop (length (concat (block <$> take (S i) ks))) buf))
    as Hcopy.
  { rewrite memcpy_app.
    - by rewrite Hwritten, drop_drop, length_app.
    - pose proof (length_concat_fmap_take block ks (S i)) as Hle.
      rewrite Hwritten, length_app in Hle. rewrite length_drop. lia. }
  unfold Pull_merge_mod_body. rewrite Hk. simpl. rewrite Hfind. simpl.
  rewrite Hj. simpl. rewrite !list_lookup_fmap, Hj. simpl.
  fold c. rewrite Hlen. simpl. fold sv. rewrite Hread. simpl.
  fold written. rewrite Hcopy. simpl.
  unfold ModMerge_state.
  rewrite <- (cursors_step length i j k s Hk Hj Hin).
  rewrite <- (cursors_step (λ l, length (concat (block <$> l))) i j k s Hk Hj Hin).
  rewrite length_app, concat_fmap_snoc, length_app. simpl.
  rewrite Hwritten, length_app. fold c sv.
  destruct lbuf as [lb|]; simpl.
  - destruct (Hlbuf lb eq_refl) as [Hlb Hwl]. rewrite Hlens, Hwl.
    rewrite (block_lens_lookup _ _ _ _ Hc). simpl.
    assert (memcpy (block_lens block (take i ks) ++ drop i lb) i
              [Z.of_nat (length (block k))]
            = Some (block_lens block (take (S i) ks) ++ drop (S i) lb)) as ->.
    { rewrite memcpy_app_at.
      - rewrite (take_S_r _ _ _ Hk), block_lens_snoc, drop_drop. simpl.
        by replace (i + 1)%nat with (S i) by lia.
      - rewrite block_lens_length, length_take. lia.
      - rewrite length_drop. simpl. lia. }
    simpl. by replace (c + 1)%nat with (S c) by lia;
      replace (i + 1)%nat with (S i) by lia.
  - by replace (c + 1)%nat with (S c) by lia.
Qed.

Lemma ModMerge_state_0 buf lbuf :
  ModMerge_state block ks kvs buf lbuf 0
  = mkModMerge (replicate (length kvs) 0%nat) (replicate (length kvs) 0%nat)
               (mkPullOut buf 0 lbuf 0).
Proof.
  unfold ModMerge_state, consumed. simpl. rewrite drop_0.
  rewrite !(const_fmap _ kvs 0%nat) by done.
  by destruct lbuf as [lb|]; simpl; rewrite ?drop_0.
Qed.

(** The cursor walk over the first [i] keys of the caller. *)
Lemma walk_loop buf lbuf i :
  (i ≤ length ks)%nat →
  length buf = length (concat (block <$> ks)) →
  (∀ lb, lbuf = Some lb → length lb = length ks ∧ with_lens = true) →
  for_loop (Pull_merge_mod_body ks kvs) 0 i
    (ModMerge_state block ks kvs buf lbuf 0)
  = Some (ModMerge_state block ks kvs buf lbuf i).
Proof.
  intros Hi Hbuf Hlbuf. induction i as [|i IH]; [done|].
  rewrite for_loop_snoc, IH by lia. simpl.
  destruct (lookup_lt_is_Some_2 ks i) as [k Hk]; [lia|].
  by apply (walk_step buf lbuf i k).
Qed.

End Cursor_walk.

Lemma concat_Permutation {A} (ls ls' : list (list A)) :
  ls ≡ₚ ls' → concat ls ≡ₚ concat ls'.
Proof.
  induction 1 as [|l ls ls' _ IH|l1 l2 ls|ls1 ls2 ls3 _ IH1 _ IH2]; simpl.
  - done.
  - by rewrite IH.
  - by rewrite !app_assoc, (Permutation_app_comm l1 l2).
  - by rewrite IH1.
Qed.

Lemma NoDup_concat_disjoint {A} (ls : list (list A)) j j' l l' x :
  NoDup (concat ls) → ls !! j = Some l → ls !! j' = Some l' → j ≠ j' →
  x ∈ l → x ∉ l'.
Proof.
  revert j j'. induction ls as [|l0 ls IH]; intros j j' Hnd Hj Hj' Hne Hx Hx';
    [done|].
  simpl in Hnd. apply NoDup_app in Hnd as (_ & Hdis & Hnd).
  destruct j as [|j], j' as [|j']; simplify_eq/=.
  - apply (Hdis x Hx). by apply (elem_of_concat_2 ls j' l').
  - apply (Hdis x Hx'). by apply (elem_of_concat_2 ls j l).
  - apply (IH j j' Hnd Hj Hj' ltac:(lia) Hx Hx').
Qed.

Lemma length_concat_fmap_Permutation {A B} (f : A → list B) (l l' : list A) :
  l ≡ₚ l' → length (concat (f <$> l)) = length (concat (f <$> l')).
Proof. intros Hp. by rewrite Hp. Qed.


Section Mod_reassembly.
Context {Val : Type}.
Variable Val_zero : Val.
Implicit Types (s : KVPairs Val) (kvs : list (KVPairs Val))
  (block : Z → list Val).

Lemma count_server_total n ks :
  n ≠ 0%nat → ∀ cnt0, is_Some (count_server n ks cnt0).
Proof.
  intros Hn. induction ks as [|k ks IH]; intros cnt0; simpl; [by eexists|].
  unfold server_of. rewrite decide_False by done. simpl. apply IH.
Qed.

Lemma Pull_check_mod_ok n cnt kvs :
  n ≠ 0%nat →
  Forall (λ s, ∃ k0, keys s !! 0%nat = Some k0
                ∧ cnt !! Z.to_nat (k0 `mod` Z.of_nat n)
                  = Some (length (keys s))) kvs →
  ∀ tk tv tn,
    Pull_check_mod n cnt kvs tk tv tn
    = Some ((tk + sum_list ((λ s, length (keys s)) <$> kvs))%nat,
            (tv + sum_list ((λ s, length (vals s)) <$> kvs))%nat,
            (tn + length kvs)%nat).
Proof.
  intros Hn. induction 1 as [|s kvs (k0 & Hk0 & Hc) _ IH]; intros tk tv tn.
  { simpl. by rewrite !Nat.add_0_r. }
  rewrite !sum_list_fmap_cons.
  change (Pull_check_mod n cnt (s :: kvs) tk tv tn)
    with (k0 ← keys s !! 0%nat;
          r ← server_of n k0;
          c ← cnt !! r;
          if decide (length (keys s) = c) then
            Pull_check_mod n cnt kvs (tk + length (keys s))
              (tv + length (vals s)) (S tn)
          else None).
  rewrite Hk0. simpl. unfold server_of. rewrite decide_False by done. simpl.
  rewrite Hc. simpl. rewrite decide_True by done. rewrite IH.
  f_equal. f_equal; [f_equal|]; simpl; lia.
Qed.

Lemma sum_list_length_concat {A} (ls : list (list A)) :
  sum_list (length <$> ls) = length (concat ls).
Proof.
  induction ls as [|l ls IH]; [done|].
  rewrite sum_list_fmap_cons, IH. simpl. by rewrite length_app.
Qed.

(** X16: the reassembly of the modulo policy: when the caller's keys are
    unique, the fragments hold each of them exactly once, each fragment
    holds its keys in the caller's order with their blocks and passes the
    tally check, then, in whatever order the fragments arrived, the closure
    fills the caller's empty buffer with the blocks in the order of the
    caller's keys, and the optional buffer with their lengths. *)
Lemma Pull_mod_reassembles slicer_kind n ks block with_lens frags lens_buf :
  slicer_kind ≠ 0 → n ≠ 0%nat → NoDup ks →
  concat (keys <$> frags) ≡ₚ ks →
  Forall (walk_fragment_ok block with_lens ks) frags →
  Forall (mod_fragment_ok n ks) frags →
  lens_buf = None ∨ lens_buf = Some [] ∧ with_lens = true →
  Pull_callback Val_zero slicer_kind n ks frags [] lens_buf
  = Some (concat (block <$> ks), (λ _, block_lens block ks) <$> lens_buf).
Proof.
  intros Hkind Hn Hnd Hperm Hwalk Htally Hbuf.
  unfold Pull_callback. rewrite !decide_False by done.
  destruct (count_server_total n ks Hn (replicate n 0%nat)) as [cnt Hcnt].
  rewrite Hcnt. simpl. apply count_server_spec in Hcnt as [_ Hcnt].
  rewrite (Pull_check_mod_ok n cnt frags Hn).
  2:{ eapply Forall_impl; [exact Htally|]. simpl.
      intros s (k0 & Hk0 & Hlen). exists k0. split; [done|].
      assert (0 ≤ k0 `mod` Z.of_nat n < Z.of_nat n) as Hr
        by (apply Z.mod_pos_bound; lia).
      rewrite (Hcnt _ 0%nat) by (apply lookup_replicate_2; lia).
      simpl. rewrite Hlen. f_equal. f_equal. apply list_filter_iff. intros k.
      assert (0 ≤ k `mod` Z.of_nat n < Z.of_nat n)
        by (apply Z.mod_pos_bound; lia).
      split; intros Heq; (lia || by rewrite Heq). }
  simpl.
  assert (sum_list ((λ s, length (keys s)) <$> frags) = length ks) as Hsk.
  { rewrite <- Hperm, <- sum_list_length_concat, <- list_fmap_compose. done. }
  rewrite Hsk, decide_True by done.
  set (sorted := sort_by_front frags).
  assert (sorted ≡ₚ frags) as Hsorted by apply sort_by_front_perm.
  assert (concat (keys <$> sorted) ≡ₚ ks) as Hperm'
    by (rewrite <- Hperm; apply concat_Permutation; by rewrite Hsorted).
  set (tv := sum_list ((λ s, length (vals s)) <$> frags)).
  assert (tv = length (concat (block <$> ks))) as Htv.
  { rewrite <- (length_concat_fmap_Permutation block _ _ Hperm).
    unfold tv. clear -Hwalk. induction Hwalk as [|s kvs (Hs & _) _ IH]; [done|].
    rewrite sum_list_fmap_cons, IH. csimpl.
    rewrite fmap_app, concat_app, length_app. f_equal. by rewrite Hs at 1. }
  assert (length sorted = length frags) as Hlen by (by rewrite Hsorted).
  pose proof (walk_loop block with_lens ks sorted) as Hloop.
  specialize (Hloop ltac:(by rewrite Hsorted)).
  specialize (Hloop (λ j j' s s' k Hj Hj' Hne,
    NoDup_concat_disjoint (keys <$> sorted) j j' (keys s) (keys s') k
      ltac:(by rewrite Hperm')
      ltac:(by rewrite list_lookup_fmap, Hj)
      ltac:(by rewrite list_lookup_fmap, Hj') Hne)).
  assert (∀ k, k ∈ ks → ∃ j s, sorted !! j = Some s ∧ k ∈ keys s) as Hcover.
  { intros k Hk. rewrite <- Hperm' in Hk.
    apply elem_of_concat_lookup in Hk as (j & l & Hl & Hkl).
    rewrite list_lookup_fmap in Hl.
    destruct (sorted !! j) as [s|] eqn:Hj; simplify_eq/=. by exists j, s. }
  specialize (Hloop Hcover). rewrite <- Hlen.
  destruct Hbuf as [->|[-> Hwl]]; simpl.
  - specialize (Hloop (replicate tv Val_zero) None (length ks) ltac:(lia)).
    rewrite ModMerge_state_0 in Hloop.
    rewrite Hloop; [|by rewrite length_replicate|done].
    simpl. rewrite decide_False by done. simpl. f_equal. f_equal.
    rewrite firstn_all, drop_ge, app_nil_r; [done|].
    rewrite length_replicate. lia.
  - specialize (Hloop (replicate tv Val_zero) (Some (replicate (length ks) 0))
                  (length ks) ltac:(lia)).
    rewrite ModMerge_state_0 in Hloop. rewrite Hloop.
    + simpl. rewrite decide_False by done. simpl.
      f_equal. rewrite firstn_all. f_equal.
      * rewrite drop_ge, app_nil_r; [done|]. rewrite length_replicate. lia.
      * rewrite drop_ge, app_nil_r; [done|]. by rewrite length_replicate.
    + by rewrite length_replicate.
    + intros lb [= <-]. by rewrite length_replicate.
Qed.

End Mod_reassembly.

(** ** The pull on the scenarios *)

(** The range policy with the fragments of servers 2, 0 and 1 arriving in
    that order. *)
Example Pull_range_reversed_arrival :
  Pull_callback 0 0 3 [2; 12; 25]
    [mkKVPairs [25] [3] []; mkKVPairs [2] [1] []; mkKVPairs [12] [2] []]
    [] None
  = Some ([1; 2; 3], None).
Proof. vm_compute. reflexivity. Qed.

(** The modulo policy on fragments keyed by the residue of the keys. *)
Example Pull_mod_by_residue :
  Pull_callback 0 1 3 [1; 2; 3; 4; 5]
    [mkKVPairs [2; 5] [20; 50] []; mkKVPairs [3] [30] [];
     mkKVPairs [1; 4] [10; 40] []]
    [] None
  = Some ([10; 20; 30; 40; 50], None).
Proof. vm_compute. reflexivity. Qed.

(** Lengths that vary, range policy. *)
Example Pull_range_lens :
  Pull_callback 0 0 3 [5; 15]
    [mkKVPairs [15] [7; 8] [2]; mkKVPairs [5] [1; 2; 3] [3]]
    [] (Some [])
  = Some ([1; 2; 3; 7; 8], Some [3; 2]).
Proof. vm_compute. reflexivity. Qed.

(** * Further properties *)

(** ** The range slicer: what each shard holds *)

Lemma lookup_total_seq {A} `{!Inhabited A} (l : list A) p len :
  (p + len ≤ length l)%nat →
  (λ i, l !!! i) <$> seq p len = take len (drop p l).
Proof.
  revert p. induction len as [|len IH]; intros p Hp; [by rewrite take_0|].
  destruct (lookup_lt_is_Some_2 l p) as [x Hx]; [lia|].
  csimpl. rewrite IH by lia.
  rewrite (drop_S _ _ _ Hx). simpl.
  by rewrite (list_lookup_total_correct _ _ _ Hx).
Qed.

Section Blocks.
Context {Val : Type}.
Implicit Types (send : KVPairs Val) (sliced : SlicedKVs Val).

(** The blocks of consecutive pairs are consecutive values. *)
Lemma concat_block_of_uniform send p len :
  lens send = [] →
  concat (block_of send <$> seq p len)
  = take (len * (length (vals send) / length (keys send)))
         (drop (p * (length (vals send) / length (keys send))) (vals send)).
Proof.
  intros He. set (k := (length (vals send) / length (keys send))%nat).
  induction len as [|len IH]; [by rewrite take_0|].
  rewrite seq_S, fmap_app, concat_app, IH. simpl. rewrite app_nil_r.
  unfold block_of. rewrite decide_True by done. fold k.
  replace (k + len * k)%nat with (len * k + k)%nat by lia.
  rewrite <- take_take_drop, drop_drop. do 3 f_equal. lia.
Qed.

Lemma concat_block_of_lens send p len :
  lens send ≠ [] → Forall (λ l, 0 ≤ l) (lens send) →
  (p + len ≤ length (lens send))%nat →
  concat (block_of send <$> seq p len)
  = take (Z.to_nat (Zsum (take len (drop p (lens send)))))
         (drop (Z.to_nat (Zsum (take p (lens send)))) (vals send)).
Proof.
  intros Hne Hnn. induction len as [|len IH]; intros Hlen.
  { by rewrite take_0. }
  rewrite seq_S, fmap_app, concat_app, IH by lia. simpl. rewrite app_nil_r.
  unfold block_of. rewrite decide_False by done.
  destruct (lookup_lt_is_Some_2 (lens send) (p + len)) as [x Hx]; [lia|].
  rewrite (list_lookup_total_correct _ _ _ Hx).
  assert (drop p (lens send) !! len = Some x) as Hx'
    by (by rewrite lookup_drop).
  rewrite (Zsum_take_S _ _ _ Hx'), Zsum_take_add.
  assert (0 ≤ x) by exact (Forall_lookup_1 _ _ _ _ Hnn Hx).
  assert (0 ≤ Zsum (take len (drop p (lens send))))
    by (by apply Zsum_nonneg, Forall_take, Forall_drop).
  assert (0 ≤ Zsum (take p (lens send)))
    by (by apply Zsum_nonneg, Forall_take).
  rewrite !Z2Nat.inj_add by lia.
  by rewrite <- take_take_drop, drop_drop.
Qed.

Lemma run_shards_nil send p n :
  run_shards send p (replicate n []) = replicate n (false, empty_kv).
Proof.
  revert p. induction n as [|n IH]; intros p; [done|].
  simpl. by rewrite IH.
Qed.

Lemma range_shards_nil_replicate rs :
  range_shards [] rs = replicate (length rs) [].
Proof. induction rs as [|r rs IH]; [done|]. simpl. by rewrite IH. Qed.

#[local] Arguments DefaultSlicer_slice : simpl never.
#[local] Arguments DefaultSlicer_flags : simpl never.

(** The slicing loop gives every server the run of its keys with their
    blocks. *)
Lemma DefaultSlicer_slice_runs send k rs :
  (lens send = [] → k = (length (vals send) / length (keys send))%nat) →
  (lens send ≠ [] →
   Forall (λ l, 0 ≤ l) (lens send) ∧ Zsum (lens send) < 2 ^ 64
   ∧ length (lens send) = length (keys send)) →
  ∀ rest p prev tl vb out,
    DefaultSlicer_pos rest p prev rs = Some tl →
    DefaultSlicer_slice send k (p :: tl) vb = Some out →
    rest = drop p (keys send) → (p ≤ length (keys send))%nat →
    (lens send ≠ [] → vb = Zsum (take p (lens send))) →
    out = run_shards send p (range_shards rest rs).
Proof.
  intros Hk Hshape.
  induction rs as [|r rs IH]; intros rest p prev tl vb out Hpos Hout Hrest Hp Hvb.
  { simpl in Hpos. simplify_eq. rewrite DefaultSlicer_slice_one in Hout.
    by simplify_eq. }
  simpl in Hpos. destruct (check_adjacent prev r); [|done].
  destruct (DefaultSlicer_pos _ _ _ rs) as [tl'|] eqn:Htl; [|done].
  simplify_eq/=. rewrite DefaultSlicer_slice_cons in Hout.
  set (len := lower_bound (drop p (keys send)) (end_ r)) in *.
  pose proof (lower_bound_le (drop p (keys send)) (end_ r)) as Hlen.
  fold len in Hlen. rewrite length_drop in Hlen.
  assert (drop len (drop p (keys send)) = drop (p + len) (keys send)) as Hdrop
    by (by rewrite drop_drop).
  assert (length (take len (drop p (keys send))) = len) as Hpiece
    by (rewrite length_take, length_drop; lia).
  rewrite Hpiece.
  destruct (decide ((p + len)%nat = p)) as [H0|H0].
  - assert (len = 0%nat) as Hl0 by lia. simpl in Hout.
    destruct (DefaultSlicer_slice _ _ _ _) as [out'|] eqn:Hout'; [|done].
    injection Hout as <-.
    rewrite (IH _ (p + len)%nat (Some r) tl' vb out' Htl Hout' Hdrop);
      [|lia|intros Hne; rewrite Hl0, Nat.add_0_r; auto].
    rewrite decide_True; [done|]. by rewrite Hl0, take_0.
  - simpl in Hout.
    destruct (segment (keys send) _ _) as [ks|] eqn:Hks; [|done].
    apply segment_nat in Hks as (_ & ->). simpl in Hout.
    replace (p + len - p)%nat with len in * by lia.
    rewrite decide_False.
    2:{ intros Hnil%(f_equal length). rewrite Hpiece in Hnil.
        simpl in Hnil. lia. }
    destruct (decide (length (lens send) ≠ 0%nat)) as [Hl|Hl].
    + assert (lens send ≠ []) as Hne by (by destruct (lens send)).
      destruct (Hshape Hne) as (Hnn & Hsum & Hlk).
      destruct (segment (lens send) _ _) as [ls|] eqn:Hls; [|done].
      apply segment_nat in Hls as (_ & ->). simpl in Hout.
      replace (p + len - p)%nat with len in * by lia.
      set (ls := take len (drop p (lens send))) in *.
      assert (Forall (λ l, 0 ≤ l) ls) as Hls
        by (by apply Forall_take, Forall_drop).
      specialize (Hvb Hne).
      assert (Zsum (take (p + len) (lens send)) = vb + Zsum ls) as Hq
        by (by rewrite Zsum_take_add, Hvb).
      pose proof (Zsum_take_le (lens send) (p + len) Hnn) as Hle.
      assert (0 ≤ Zsum (take p (lens send))) as Hp0
        by (by apply Zsum_nonneg, Forall_take).
      pose proof (Zsum_nonneg _ Hls) as Hls0.
      rewrite foldl_wrap64 in Hout by (done || lia).
      destruct (segment (vals send) _ _) as [vs|] eqn:Hvs; [|done].
      apply segment_Some in Hvs as (_ & _ & _ & ->). simpl in Hout.
      destruct (DefaultSlicer_slice _ _ _ _) as [out'|] eqn:Hout'; [|done].
      injection Hout as <-.
      rewrite (IH _ (p + len)%nat (Some r) tl' (vb + Zsum ls) out' Htl Hout'
                 Hdrop); [|lia|by intros _].
      f_equal. f_equal. unfold select.
      rewrite decide_False by done.
      rewrite !lookup_total_seq by lia.
      rewrite concat_block_of_lens by (done || lia).
      fold ls. rewrite <- Hvb. f_equal. do 2 f_equal. lia.
    + assert (lens send = []) as He
        by (destruct (lens send); [done|simpl in Hl; lia]).
      destruct (segment (vals send) _ _) as [vs|] eqn:Hvs; [|done].
      apply segment_nat in Hvs as (_ & ->). simpl in Hout.
      destruct (DefaultSlicer_slice _ _ _ _) as [out'|] eqn:Hout'; [|done].
      injection Hout as <-.
      rewrite (IH _ (p + len)%nat (Some r) tl' vb out' Htl Hout' Hdrop);
        [|lia|by intros Hne].
      f_equal. f_equal. unfold select. rewrite decide_True by done.
      rewrite lookup_total_seq by lia.
      rewrite concat_block_of_uniform by done. rewrite <- (Hk He).
      f_equal. f_equal. lia.
Qed.

(** Whatever the range slicer returns on a batch whose lengths are not
    negative and whose keys do not lie below the first range is, server by
    server, the run of the keys below the end of the server's range, with
    their blocks. *)
Lemma DefaultSlicer_Some_runs send ranges sliced :
  (lens send ≠ [] →
   Forall (λ l, 0 ≤ l) (lens send) ∧ Zsum (lens send) < 2 ^ 64) →
  DefaultSlicer_pos0 (keys send) ranges = 0%nat →
  DefaultSlicer send ranges = Some sliced →
  sliced = run_shards send 0 (range_shards (keys send) ranges).
Proof.
  intros Hshape Hp0. unfold DefaultSlicer, DefaultSlicer_positions.
  rewrite Hp0, drop_0. intros Hs.
  destruct (DefaultSlicer_pos _ _ _ _) as [tl|] eqn:Htl; [|done].
  simpl in Hs. destruct (decide (last _ = _)) as [Hlast|]; [|done].
  destruct (decide (keys send = [])) as [He|Hne].
  - simplify_eq. rewrite He in *.
    apply DefaultSlicer_pos_nil in Htl as ->.
    rewrite DefaultSlicer_flags_replicate, range_shards_nil_replicate.
    by rewrite run_shards_nil.
  - destruct (decide (lens send = [])) as [Hl|Hl].
    + destruct (decide (_ = length (vals send))); [|done].
      refine (DefaultSlicer_slice_runs send _ ranges _ _ (keys send) 0%nat
                None tl 0 sliced Htl Hs eq_refl _ _); [done|done|lia|done].
    + destruct (decide (length (keys send) = _)) as [Hlk|]; [|done].
      refine (DefaultSlicer_slice_runs send _ ranges _ _ (keys send) 0%nat
                None tl 0 sliced Htl Hs eq_refl _ _); [done| |lia|done].
      intros _. destruct (Hshape Hl). done.
Qed.

(** *** Runs *)

Lemma run_shards_keys_length send p pieces :
  (λ sh : bool * KVPairs Val, length (keys sh.2)) <$> run_shards send p pieces
  = length <$> pieces.
Proof.
  revert p. induction pieces as [|piece pieces IH]; intros p; [done|].
  csimpl. rewrite IH. f_equal.
  destruct (decide (piece = [])) as [->|]; [done|].
  simpl. by rewrite length_fmap, length_seq.
Qed.

Lemma run_shards_take send p pieces s :
  take s (run_shards send p pieces) = run_shards send p (take s pieces).
Proof.
  revert p s. induction pieces as [|piece pieces IH]; intros p [|s]; try done.
  simpl. by rewrite IH.
Qed.

Lemma length_concat_sum {A} (ls : list (list A)) :
  length (concat ls) = sum_list (length <$> ls).
Proof.
  induction ls as [|l ls IH]; [done|]. csimpl. by rewrite length_app, IH.
Qed.

Lemma run_shards_lookup send p pieces s sh :
  run_shards send p pieces !! s = Some sh →
  ∃ piece, pieces !! s = Some piece
    ∧ sh = if decide (piece = []) then (false, empty_kv)
           else (true, select send
                         (seq (p + length (concat (take s pieces)))
                              (length piece))).
Proof.
  revert p s. induction pieces as [|piece pieces IH]; intros p s Hs; [done|].
  destruct s as [|s]; simpl in Hs.
  - injection Hs as <-. exists piece. split; [done|].
    simpl. by rewrite Nat.add_0_r.
  - apply IH in Hs as (piece' & Hp & ->). exists piece'. split; [done|].
    simpl. by rewrite length_app, Nat.add_assoc.
Qed.

Lemma run_shards_concat send p pieces :
  concat ((λ sh : bool * KVPairs Val, keys sh.2) <$> run_shards send p pieces)
  = (λ i, keys send !!! i) <$> seq p (length (concat pieces))
  ∧ concat ((λ sh : bool * KVPairs Val, vals sh.2) <$> run_shards send p pieces)
    = concat (block_of send <$> seq p (length (concat pieces)))
  ∧ concat ((λ sh : bool * KVPairs Val, lens sh.2) <$> run_shards send p pieces)
    = if decide (lens send = []) then []
      else (λ i, lens send !!! i) <$> seq p (length (concat pieces)).
Proof.
  revert p. induction pieces as [|piece pieces IH]; intros p.
  { simpl. by destruct (decide _). }
  destruct (IH (p + length piece)%nat) as (IHk & IHv & IHl).
  csimpl. rewrite IHk, IHv, IHl, length_app, seq_app, !fmap_app, concat_app.
  destruct (decide (piece = [])) as [->|Hne]; simpl.
  - rewrite Nat.add_0_r. by destruct (decide _).
  - by destruct (decide (lens send = [])).
Qed.

(** X1: on a batch whose lengths are not negative and whose keys do not
    lie below the first range, every active shard that the range slicer
    returns is a run of consecutive pairs of the batch.  Its keys are the
    keys at the positions [p], [p + 1], ... where [p] is the number of keys
    in the shards of the servers before it, its values are the value blocks
    of exactly these keys, in their order, and its lengths are theirs; an
    inactive shard is empty. *)
Theorem DefaultSlicer_shard_blocks send ranges sliced s sh :
  (lens send ≠ [] →
   Forall (λ l, 0 ≤ l) (lens send) ∧ Zsum (lens send) < 2 ^ 64) →
  (∀ r0, head ranges = Some r0 → Forall (λ k, begin r0 ≤ k) (keys send)) →
  DefaultSlicer send ranges = Some sliced →
  sliced !! s = Some sh →
  let p := length (concat ((λ sh : bool * KVPairs Val, keys sh.2)
                           <$> take s sliced)) in
  (sh.1 = true →
   sh.2 = select send (seq p (length (keys sh.2)))
   ∧ keys sh.2 ≠ []
   ∧ (p + length (keys sh.2) ≤ length (keys send))%nat)
  ∧ (sh.1 = false → sh.2 = empty_kv).
Proof.
  intros Hshape Hfirst Hs Hsh.
  assert (DefaultSlicer_pos0 (keys send) ranges = 0%nat) as Hp0.
  { destruct ranges as [|r0 ranges]; [done|]. by apply lower_bound_0, Hfirst. }
  destruct (DefaultSlicer_Some_pos _ _ _ Hs) as [_ Hcat].
  rewrite Hp0, drop_0 in Hcat.
  apply (DefaultSlicer_Some_runs _ _ _ Hshape Hp0) in Hs. subst sliced.
  set (pieces := range_shards (keys send) ranges) in *.
  rewrite run_shards_take, length_concat_sum, <- list_fmap_compose.
  change (length ∘ (λ sh0 : bool * KVPairs Val, keys sh0.2))
    with (λ sh0 : bool * KVPairs Val, length (keys sh0.2)).
  rewrite run_shards_keys_length, <- length_concat_sum.
  apply run_shards_lookup in Hsh as (piece & Hpiece & ->). simpl.
  destruct (decide (piece = [])) as [->|Hne]; simpl; [done|].
  split; [intros _|done].
  rewrite length_fmap, length_seq. split_and!; [done| |].
  - intros Hnil%(f_equal length). rewrite length_fmap, length_seq in Hnil.
    by destruct piece.
  - assert (length (keys send) = length (concat pieces)) as ->
      by (by rewrite Hcat).
    rewrite <- (take_drop_middle _ _ _ Hpiece) at 2.
    rewrite concat_app, length_app. simpl. rewrite length_app. lia.
Qed.

(** X2: slicing by range loses nothing and reorders nothing.  On a
    well-shaped batch whose lengths add up to its values and whose keys do
    not lie below the first range, the shards that the range slicer returns,
    put end to end in the order of the servers, are the batch: its keys,
    its values and its lengths. *)
Theorem DefaultSlicer_concat send ranges sliced :
  sliceable send →
  (lens send ≠ [] → Zsum (lens send) = Z.of_nat (length (vals send))) →
  (∀ r0, head ranges = Some r0 → Forall (λ k, begin r0 ≤ k) (keys send)) →
  DefaultSlicer send ranges = Some sliced →
  concat ((λ sh : bool * KVPairs Val, keys sh.2) <$> sliced) = keys send
  ∧ concat ((λ sh : bool * KVPairs Val, vals sh.2) <$> sliced) = vals send
  ∧ concat ((λ sh : bool * KVPairs Val, lens sh.2) <$> sliced) = lens send.
Proof.
  intros Hshape Hsum Hfirst Hs.
  assert (DefaultSlicer_pos0 (keys send) ranges = 0%nat) as Hp0.
  { destruct ranges as [|r0 ranges]; [done|]. by apply lower_bound_0, Hfirst. }
  destruct (DefaultSlicer_Some_pos _ _ _ Hs) as [_ Hcat].
  rewrite Hp0, drop_0 in Hcat.
  assert (lens send ≠ [] →
          Forall (λ l, 0 ≤ l) (lens send) ∧ Zsum (lens send) < 2 ^ 64
          ∧ length (keys send) = length (lens send)) as Hlens.
  { intros Hne. unfold sliceable in Hshape.
    rewrite decide_False in Hshape by done.
    destruct Hshape as (? & ? & ?). split_and!; [done|lia|done]. }
  apply DefaultSlicer_Some_runs in Hs;
    [|intros Hne; destruct (Hlens Hne) as (? & ? & ?); done|done].
  subst sliced.
  destruct (run_shards_concat send 0 (range_shards (keys send) ranges))
    as (-> & -> & ->).
  rewrite Hcat. split_and!.
  - rewrite lookup_total_seq by lia. by rewrite drop_0, firstn_all.
  - destruct (decide (lens send = [])) as [He|Hne].
    + rewrite concat_block_of_uniform by done. simpl. rewrite drop_0.
      apply take_ge. unfold sliceable in Hshape.
      rewrite decide_True in Hshape by done.
      destruct (decide (length (keys send) = 0%nat)) as [H0|H0].
      * rewrite H0 in Hshape. simpl in Hshape. lia.
      * pose proof (Nat.div_mod (length (vals send)) (length (keys send)) H0).
        lia.
    + destruct (Hlens Hne) as (Hnn & Hlt & Hlen).
      rewrite concat_block_of_lens by (done || lia). simpl.
      rewrite drop_0, Hlen, firstn_all, Hsum by done.
      rewrite Nat2Z.id. by rewrite firstn_all.
  - destruct (decide (lens send = [])) as [He|Hne]; [done|].
    destruct (Hlens Hne) as (_ & _ & Hlen).
    rewrite lookup_total_seq by lia. by rewrite drop_0, Hlen, firstn_all.
Qed.

(** X3: ranges that do not touch are refused for every batch, also for an
    empty one: when the end of the range of one server is not the beginning
    of the range of the next, the range slicer fails. *)
Theorem DefaultSlicer_rejects_gap send ranges i r r' :
  ranges !! i = Some r → ranges !! S i = Some r' → end_ r ≠ begin r' →
  DefaultSlicer send ranges = None.
Proof.
  intros Hr Hr' Hgap.
  destruct (DefaultSlicer send ranges) as [sliced|] eqn:Hs; [|done].
  destruct (DefaultSlicer_Some_pos _ _ _ Hs) as [Hadj _].
  by destruct (Hgap (Hadj i r r' Hr Hr')).
Qed.

End Blocks.

Lemma DefaultSlicer_shard_blocks_witness :
  let send := mkKVPairs [2; 12; 15; 25] [1; 2; 3; 4; 5; 6; 7; 8] [] in
  let sliced := [(true, mkKVPairs [2] [1; 2] []);
                 (true, mkKVPairs [12; 15] [3; 4; 5; 6] []);
                 (true, mkKVPairs [25] [7; 8] [])] in
  DefaultSlicer send range3 = Some sliced
  ∧ mkKVPairs [12; 15] [3; 4; 5; 6] [] = select send (seq 1 2)
  ∧ (1 + 2 ≤ length (keys send))%nat.
Proof.
  intros send sliced.
  assert (DefaultSlicer send range3 = Some sliced) as Hs
    by (vm_compute; reflexivity).
  split; [exact Hs|].
  destruct (DefaultSlicer_shard_blocks send range3 sliced 1
              (true, mkKVPairs [12; 15] [3; 4; 5; 6] [])) as [H _].
  - intros Hne. by destruct Hne.
  - intros r0 [= <-]. repeat constructor; simpl; lia.
  - exact Hs.
  - reflexivity.
  - destruct (H eq_refl) as (Hsel & _ & Hle). split; [exact Hsel|exact Hle].
Defined.

Lemma DefaultSlicer_concat_witness :
  let send := mkKVPairs [2; 12; 15; 25] [1; 2; 3; 4; 5; 6] [1; 2; 0; 3] in
  let sliced := [(true, mkKVPairs [2] [1] [1]);
                 (true, mkKVPairs [12; 15] [2; 3] [2; 0]);
                 (true, mkKVPairs [25] [4; 5; 6] [3])] in
  DefaultSlicer send range3 = Some sliced
  ∧ concat ((λ sh : bool * KVPairs Z, keys sh.2) <$> sliced) = keys send
  ∧ concat ((λ sh : bool * KVPairs Z, vals sh.2) <$> sliced) = vals send
  ∧ concat ((λ sh : bool * KVPairs Z, lens sh.2) <$> sliced) = lens send.
Proof.
  intros send sliced.
  assert (DefaultSlicer send range3 = Some sliced) as Hs
    by (vm_compute; reflexivity).
  split; [exact Hs|].
  apply (DefaultSlicer_concat send range3 sliced).
  - unfold sliceable. simpl. split; [reflexivity|].
    split; [repeat constructor; lia|]. vm_compute. split; [intros H|]; done.
  - intros _. reflexivity.
  - intros r0 [= <-]. repeat constructor; simpl; lia.
  - exact Hs.
Defined.

Lemma DefaultSlicer_rejects_gap_witness :
  DefaultSlicer empty_batch [mkRange 0 10; mkRange 11 20] = None.
Proof.
  apply (DefaultSlicer_rejects_gap empty_batch [mkRange 0 10; mkRange 11 20]
           0 (mkRange 0 10) (mkRange 11 20)).
  - reflexivity.
  - reflexivity.
  - simpl. lia.
Defined.

(** ** The modulo slicer: which servers get a request *)

Section ModSlicer_flags.
Context {Val : Type}.
Implicit Types (send : KVPairs Val) (sliced : SlicedKVs Val).

(** After [m] iterations of the slicing loop the shards of the first [m]
    servers are active. *)
Lemma ModSlicer_loop_flags n send k lc m st :
  for_loop (ModSlicer_body send n k lc) 0 m (replicate n (false, empty_kv), 0)
  = Some st →
  fst <$> st.1 = (λ s, bool_decide (s < m)%nat) <$> seq 0 n.
Proof.
  revert st. induction m as [|m IH]; intros st.
  - simpl. intros [= <-]. simpl. apply list_eq. intros s.
    rewrite !list_lookup_fmap. destruct (decide (s < n)%nat) as [Hs|Hs].
    + by rewrite lookup_replicate_2, lookup_seq_lt by done.
    + rewrite lookup_seq_ge by lia.
      rewrite lookup_ge_None_2; [done|]. rewrite length_replicate. lia.
  - rewrite for_loop_snoc. simpl.
    destruct (for_loop _ 0 m _) as [[sl vb]|] eqn:Hloop; [|done]. simpl.
    specialize (IH _ eq_refl). simpl in IH.
    unfold ModSlicer_body. destruct (decide (n = 0%nat)) as [|Hn]; [done|].
    destruct (keys send !! m) as [key|]; [|done]. simpl.
    assert (∀ g, fst <$> alter (push_shard key g.1 g.2) (m `mod` n)%nat sl
                 = (λ s, bool_decide (s < S m)%nat) <$> seq 0 n) as Hstep.
    { intros g. apply list_eq. intros s. rewrite !list_lookup_fmap.
      pose proof (Nat.mod_upper_bound m n Hn) as Hlt.
      pose proof (f_equal (λ l, l !! s) IH) as IHs. simpl in IHs.
      rewrite !list_lookup_fmap in IHs.
      destruct (decide (s < n)%nat) as [Hs|Hs].
      - rewrite lookup_seq_lt in * by done. simpl in *.
        destruct (decide ((m `mod` n)%nat = s)) as [Heq|Hne].
        + subst s. rewrite list_lookup_alter_eq.
          destruct (sl !! (m `mod` n)%nat) as [sh|]; [|done]. simpl.
          rewrite bool_decide_true; [done|].
          pose proof (Nat.Div0.mod_le m n). lia.
        + rewrite list_lookup_alter_ne, IHs by done. do 2 f_equal.
          apply bool_decide_ext. split; [lia|]. intros Hsm.
          destruct (decide (s = m)) as [->|]; [|lia].
          by rewrite Nat.mod_small in Hne.
      - rewrite lookup_seq_ge in * by lia. simpl in *.
        destruct (sl !! s) eqn:Hsl; [done|].
        rewrite (lookup_ge_None_2 (alter _ _ _)); [done|].
        rewrite length_alter. by apply lookup_ge_None. }
    destruct (decide (lc ≠ 0%nat)).
    + destruct (lens send !! m) as [l|]; [|done]. simpl.
      destruct (segment _ _ _) as [seg|]; [|done]. simpl.
      intros [= <-]. exact (Hstep (seg, [l])).
    + destruct (segment _ _ _) as [seg|]; [|done]. simpl.
      intros [= <-]. exact (Hstep (seg, [])).
Qed.

Lemma count_false_prefix n m :
  length (filter (λ b, b = false)
                 ((λ s, bool_decide (s < m)%nat) <$> seq 0 n))
  = (n - m)%nat.
Proof.
  induction n as [|n IH]; [done|].
  rewrite seq_S, fmap_app, filter_app, length_app, IH. simpl.
  rewrite filter_cons, filter_nil. case_bool_decide; case_decide; simpl;
    try done; lia.
Qed.

(** X4: the modulo slicer gives a request to the first [|keys|] servers
    only.  Whenever it returns, it returns one shard for each server, the
    shard of server [s] is active exactly when [s < |keys|], and so
    [num_servers - |keys|] shards are skipped: with fewer keys than servers
    the servers from [|keys|] on get no message, otherwise every server
    gets one. *)
Theorem ModSlicer_active_prefix n send ranges sliced :
  ModSlicer n send ranges = Some sliced →
  length sliced = n
  ∧ (∀ s sh, sliced !! s = Some sh →
       (sh.1 = true ↔ (s < length (keys send))%nat))
  ∧ count_skipped sliced = (n - length (keys send))%nat.
Proof.
  intros Hs.
  assert (fst <$> sliced
          = (λ s, bool_decide (s < length (keys send))%nat) <$> seq 0 n)
    as Hflags.
  { unfold ModSlicer in Hs. destruct (decide (n = length ranges)); [|done].
    destruct (decide (keys send = [])) as [He|Hne].
    - injection Hs as <-. rewrite He. simpl. apply list_eq. intros s.
      rewrite !list_lookup_fmap. destruct (decide (s < n)%nat) as [Hlt|Hge].
      + by rewrite lookup_replicate_2, lookup_seq_lt by done.
      + rewrite lookup_seq_ge by lia.
        rewrite lookup_ge_None_2; [done|]. rewrite length_replicate. lia.
    - destruct (decide (lens send = [])).
      + destruct (decide _); [|done].
        destruct (for_loop _ _ _ _) as [st|] eqn:Hloop; [|done].
        injection Hs as <-. by eapply ModSlicer_loop_flags.
      + destruct (decide _); [|done].
        destruct (for_loop _ _ _ _) as [st|] eqn:Hloop; [|done].
        injection Hs as <-. by eapply ModSlicer_loop_flags. }
  split_and!.
  - apply (f_equal length) in Hflags.
    by rewrite !length_fmap, length_seq in Hflags.
  - intros s sh Hsh.
    pose proof (f_equal (λ l, l !! s) Hflags) as Hl. simpl in Hl.
    rewrite !list_lookup_fmap, Hsh in Hl. simpl in Hl.
    destruct (seq 0 n !! s) as [s'|] eqn:Hseq; [|done].
    apply lookup_seq in Hseq as [-> _]. simpl in Hl.
    injection Hl as ->. simpl. by rewrite bool_decide_eq_true.
  - unfold count_skipped. rewrite <- (count_false_prefix n (length (keys send))).
    rewrite <- Hflags. clear. induction sliced as [|[[] kv] sliced IH];
      csimpl; rewrite ?filter_cons; simpl; [done|exact IH|].
    by rewrite IH.
Qed.

End ModSlicer_flags.

Lemma ModSlicer_active_prefix_witness :
  let send := mkKVPairs [0; 3] [10; 20] [] in
  let sliced := [(true, mkKVPairs [0] [10] []); (true, mkKVPairs [3] [20] []);
                 (false, empty_kv)] in
  ModSlicer 3 send range3 = Some sliced
  ∧ length sliced = 3%nat
  ∧ (∀ s sh, sliced !! s = Some sh → (sh.1 = true ↔ (s < 2)%nat))
  ∧ count_skipped sliced = 1%nat.
Proof.
  intros send sliced.
  assert (ModSlicer 3 send range3 = Some sliced) as Hs
    by (vm_compute; reflexivity).
  split; [exact Hs|]. exact (ModSlicer_active_prefix 3 send range3 sliced Hs).
Defined.

(** ** The worker's requests and the server's view of them *)

Section Requests_properties.
Context {Val Segment UserCallback : Type}.
Variable seg_of_keys : list Key → Segment.
Variable seg_of_vals : list Val → Segment.
Variable seg_of_lens : list Z → Segment.
Variable keys_of_seg : Segment → list Key.
Variable vals_of_seg : Segment → list Val.
Variable lens_of_seg : Segment → list Z.
Variable Val_zero : Val.
Variable slicer_kind : Z.
Variable num_servers : nat.
Variable ranges : list Range.
Variable ServerRankToID : nat → Z.
Variable my_node_id : Z.
Variable obj_app_id : Z.
Variable obj_customer_id : Z.
Variable SimpleApp_Process :
  @Message Segment → @Worker Val Segment UserCallback
  → option (@Worker Val Segment UserCallback).

Implicit Types (w : @Worker Val Segment UserCallback)
  (msg : @Message Segment) (sliced : SlicedKVs Val) (kvs : KVPairs Val).

#[local] Abbreviation Send_r slicer :=
  (Send seg_of_keys seg_of_vals seg_of_lens Val_zero slicer_kind num_servers
        ranges ServerRankToID my_node_id obj_app_id obj_customer_id slicer).
#[local] Abbreviation Run_r :=
  (RunCallback (Segment:=Segment) (UserCallback:=UserCallback)
     Val_zero slicer_kind num_servers).
#[local] Abbreviation Send_shards_r :=
  (Send_shards seg_of_keys seg_of_vals seg_of_lens ServerRankToID my_node_id
        obj_app_id obj_customer_id).
#[local] Abbreviation request_r :=
  (request_msg seg_of_keys seg_of_vals seg_of_lens ServerRankToID my_node_id
     obj_app_id obj_customer_id).
#[local] Abbreviation requests_r :=
  (requests_of seg_of_keys seg_of_vals seg_of_lens ServerRankToID my_node_id
     obj_app_id obj_customer_id).
#[local] Abbreviation Process_r :=
  (Process keys_of_seg vals_of_seg lens_of_seg Val_zero slicer_kind
     num_servers SimpleApp_Process).
#[local] Abbreviation round_trip :=
  (segments_round_trip seg_of_keys seg_of_vals seg_of_lens
     keys_of_seg vals_of_seg lens_of_seg).

Lemma sent_app (l1 l2 : list (@Event Val Segment UserCallback)) :
  sent (l1 ++ l2) = sent l1 ++ sent l2.
Proof. unfold sent. apply omap_app. Qed.

(** The second loop of [Send] hands one request for each active shard to
    the transport and touches nothing else. *)
Lemma Send_shards_effect ts push cmd sliced :
  ∀ i w,
    let w' := Send_shards_r ts push cmd i sliced w in
    sent (log w')
    = sent (log w)
      ++ concat (imap (λ j (s : bool * KVPairs Val),
                         if s.1 then [request_r ts push cmd (i + j) s.2]
                         else []) sliced)
    ∧ next_timestamp w' = next_timestamp w ∧ tracker w' = tracker w
    ∧ recv_kvs_ w' = recv_kvs_ w ∧ callbacks_ w' = callbacks_ w.
Proof.
  induction sliced as [|[fl kv] sliced IH]; intros i w; simpl.
  { by rewrite app_nil_r. }
  destruct (IH (S i) (if fl then van_send (request_r ts push cmd i kv) w
                      else w)) as (Hs & Hn & Ht & Hr & Hc).
  rewrite Hs, Hn, Ht, Hr, Hc. clear IH Hs Hn Ht Hr Hc.
  rewrite Nat.add_0_r.
  assert (imap ((λ j (s : bool * KVPairs Val),
                   if s.1 then [request_r ts push cmd (i + j) s.2] else [])
                ∘ S) sliced
          = imap (λ j (s : bool * KVPairs Val),
                    if s.1 then [request_r ts push cmd (S i + j) s.2] else [])
                 sliced) as ->.
  { apply imap_ext. intros j s _. simpl.
    by replace (i + S j)%nat with (S (i + j)) by lia. }
  destruct fl; simpl; [|done].
  by rewrite sent_app, <- app_assoc.
Qed.

Lemma length_concat_imap {A B} (f : nat → A → list B) (g : A → nat) l :
  (∀ j s, length (f j s) = g s) →
  length (concat (imap f l)) = sum_list (g <$> l).
Proof.
  revert f. induction l as [|x l IH]; intros f Hf; [done|].
  csimpl. rewrite length_app, Hf, IH; [done|]. intros j s. apply Hf.
Qed.

Lemma length_requests_of ts push cmd sliced :
  length (requests_r ts push cmd sliced)
  = (length sliced - count_skipped sliced)%nat.
Proof.
  unfold requests_of.
  rewrite (length_concat_imap _ (λ s : bool * KVPairs Val,
                                   if s.1 then 1%nat else 0%nat))
    by (by intros j [[] kv]).
  pose proof (count_skipped_le sliced) as Hle. revert Hle.
  unfold count_skipped.
  induction sliced as [|[[] kv] sliced IH]; csimpl; rewrite ?filter_cons;
    simpl; intros Hle; [done|..].
  - pose proof (length_filter (λ s : bool * KVPairs Val, s.1 = false) sliced).
    rewrite IH by lia. lia.
  - rewrite IH by lia. lia.
Qed.

(** X5: what [Send] does.  When it returns, the slicer returned a sliced
    vector; the transport got, after what it had, exactly one request for
    each active shard, in the order of the server ranks and addressed to
    [ServerRankToID] of the rank, and none for an inactive shard; the
    response count of the timestamp grew by the number of inactive shards;
    the stored fragments are as before, except that the closure of a pull,
    which [Send] runs when every shard is inactive, has erased those of the
    timestamp; and the next timestamp, and the counts and callbacks of every
    other timestamp are as before. *)
Theorem Send_requests slicer ts push cmd kvs w w' :
  Send_r slicer ts push cmd kvs w = Some w' →
  ∃ sliced,
    slicer kvs ranges = Some sliced
    ∧ sent (log w') = sent (log w) ++ requests_r ts push cmd sliced
    ∧ length (requests_r ts push cmd sliced)
      = (length sliced - count_skipped sliced)%nat
    ∧ NumResponse ts w' = NumResponse ts w + Z.of_nat (count_skipped sliced)
    ∧ recv_kvs_ w'
      = match (if decide (count_skipped sliced = length sliced)
               then callbacks_ w !! ts else None) with
        | Some (PullCb _ _ _ _) => delete ts (recv_kvs_ w)
        | _ => recv_kvs_ w
        end
    ∧ next_timestamp w' = next_timestamp w
    ∧ ∀ ts', ts' ≠ ts →
        NumResponse ts' w' = NumResponse ts' w
        ∧ callbacks_ w' !! ts' = callbacks_ w !! ts'.
Proof.
  unfold Send. intros Hsend.
  destruct (slicer kvs ranges) as [sliced|] eqn:Hs; [|done].
  simpl in Hsend. exists sliced.
  split; [done|]. rewrite length_requests_of.
  set (w0 := AddResponse ts (Z.of_nat (count_skipped sliced)) w) in *.
  assert (∃ w2,
            w' = Send_shards_r ts push cmd 0 sliced w2
            ∧ next_timestamp w2 = next_timestamp w0 ∧ tracker w2 = tracker w0
            ∧ sent (log w2) = sent (log w)
            ∧ recv_kvs_ w2
              = match (if decide (count_skipped sliced = length sliced)
                       then callbacks_ w !! ts else None) with
                | Some (PullCb _ _ _ _) => delete ts (recv_kvs_ w)
                | _ => recv_kvs_ w
                end
            ∧ ∀ ts', ts' ≠ ts → callbacks_ w2 !! ts' = callbacks_ w !! ts')
    as (w2 & -> & Hn & Ht & Hl & Hr & Hc).
  { destruct (decide (count_skipped sliced = length sliced)).
    - destruct (Run_r ts w0) as [w2|] eqn:Hrun; simpl in Hsend; [|done].
      injection Hsend as <-. exists w2. split; [done|].
      destruct (RunCallback_Some _ _ _ _ _ _ Hrun)
        as (Hn & Ht & Hc & Hl & Hr & _).
      split_and!; try done.
      + rewrite Hl, sent_app. simpl.
        destruct (callbacks_ w !! ts); simpl; by rewrite app_nil_r.
      + intros ts' Hne. by rewrite Hc, lookup_delete_ne.
    - simpl in Hsend. injection Hsend as <-. exists w0. by split_and!. }
  destruct (Send_shards_effect ts push cmd sliced 0%nat w2)
    as (Hs2 & Hn2 & Ht2 & Hr2 & Hc2).
  rewrite Hs2, Hl. unfold NumResponse. rewrite Hn2, Ht2, Hr2, Hc2, Hn, Ht, Hr.
  simpl. rewrite lookup_insert_eq. split_and!; try done.
  intros ts' Hne. rewrite lookup_insert_ne by done. split; [done|].
  by apply Hc.
Qed.

(** X6: the server reads what the worker wrote.  When the typed views of a
    data segment give back the array it was made from, [KVServer::Process]
    on the request that [Send] builds for a shard with keys calls the
    request handle with the command, the push flag, the worker's node id,
    the timestamp and the customer id of the request, and with the shard
    itself, provided the shard has no lengths or as many lengths as keys;
    with another number of lengths it fails.  For a shard without keys the
    request carries no data and the handle gets an empty list. *)
Theorem request_round_trip {ReqHandle} (h : ReqHandle) ts push cmd i kvs :
  round_trip →
  KVServer_Process keys_of_seg vals_of_seg lens_of_seg (Some h)
    (request_r ts push cmd i kvs)
  = let req_meta := KVMeta.mk cmd push my_node_id ts obj_customer_id in
    if decide (keys kvs = []) then Some (CallRequestHandle h req_meta empty_kv)
    else if decide (lens kvs = [] ∨ length (lens kvs) = length (keys kvs))
         then Some (CallRequestHandle h req_meta kvs)
         else None.
Proof.
  intros (Hk & Hv & Hl). destruct kvs as [ks vs ls].
  unfold KVServer_Process, request_msg, kv_data. simpl.
  destruct ks as [|k ks]; simpl; [done|].
  destruct ls as [|l ls]; simpl.
  - by rewrite Hk, Hv.
  - rewrite Hk, Hv, Hl. simpl.
    destruct (decide (S (length ls) = S (length ks))) as [Heq|Hne].
    + rewrite decide_True by (by right). done.
    + rewrite decide_False; [done|]. by intros [|].
Qed.

(** *** The server's answer at the worker *)

#[local] Abbreviation Response_r :=
  (KVServer_Response (Val:=Val) seg_of_keys seg_of_vals seg_of_lens).
#[local] Abbreviation Process_store_r :=
  (Process_store (Val:=Val) (UserCallback:=UserCallback)
     keys_of_seg vals_of_seg lens_of_seg).

(** The state after the fragment [kvs] has been stored for [ts]. *)
Lemma Process_store_Response server_app_id sender_default req res w :
  round_trip →
  Process_store_r (Response_r server_app_id sender_default req res) w
  = Some (if negb (KVMeta.push req) && bool_decide (keys res ≠ [])
          then mkWorker (next_timestamp w) (tracker w)
                 (<[KVMeta.timestamp req :=
                      default [] (recv_kvs_ w !! KVMeta.timestamp req)
                      ++ [res]]> (recv_kvs_ w))
                 (callbacks_ w) (log w) (filled w)
          else w).
Proof.
  intros (Hk & Hv & Hl). destruct res as [ks vs ls].
  unfold Process_store, KVServer_Response, kv_data. simpl.
  destruct (KVMeta.push req); simpl; [done|].
  destruct ks as [|k ks]; simpl; [done|].
  destruct ls as [|l ls]; simpl; by rewrite ?Hk, ?Hv, ?Hl.
Qed.

(** X7: the worker stores what the server answered.  On a message that
    [KVServer::Response] built, [KVWorker::Process] appends the answered
    key-value list, as it is, to the fragments stored for the timestamp of
    the request when the message answers a pull and has keys, and stores
    nothing for an answer to a push or one without keys.  It then runs the
    callback of the timestamp when the response count is
    [num_servers - 1], on the state that holds the stored fragment, and
    fails only if this run fails; otherwise it returns the state with the
    stored fragment. *)
Theorem Response_stored server_app_id sender_default req res w :
  round_trip →
  let ts := KVMeta.timestamp req in
  let w1 := if negb (KVMeta.push req) && bool_decide (keys res ≠ [])
            then mkWorker (next_timestamp w) (tracker w)
                   (<[ts := default [] (recv_kvs_ w !! ts) ++ [res]]>
                      (recv_kvs_ w))
                   (callbacks_ w) (log w) (filled w)
            else w in
  Process_r (Response_r server_app_id sender_default req res) w
  = if decide (NumResponse ts w = Z.of_nat num_servers - 1)
    then RunCallback Val_zero slicer_kind num_servers ts w1 else Some w1.
Proof.
  intros Hrt ts w1. rewrite Process_halves by done.
  rewrite Process_store_Response by done. simpl. fold ts. fold w1.
  assert (NumResponse ts w1 = NumResponse ts w) as ->; [|done].
  unfold w1, NumResponse. by destruct (_ && _).
Qed.

End Requests_properties.

Lemma Send_requests_witness :
  let w := scenario_worker in
  let kvs := mkKVPairs [2; 12] [1; 2] [] in
  let rank_id := λ r : nat, 8 + 2 * Z.of_nat r in
  let sliced := [(true, mkKVPairs [2] [1] []); (true, mkKVPairs [12] [2] []);
                 (false, empty_kv)] in
  ∃ w', Send id id id 0 0 3 range3 rank_id 9 0 0 DefaultSlicer 0 true 0 kvs w
        = Some w'
    ∧ sent (log w')
      = [mkMessage (Meta.mk 0 0 true true 0 0 8 9 false) [[2]; [1]];
         mkMessage (Meta.mk 0 0 true true 0 0 10 9 false) [[12]; [2]]]
    ∧ NumResponse 0 w' = 1.
Proof.
  intros w kvs rank_id sliced.
  assert (DefaultSlicer kvs range3 = Some sliced) as Hs
    by (vm_compute; reflexivity).
  assert (is_Some (Send id id id 0 0 3 range3 rank_id 9 0 0 DefaultSlicer 0
                     true 0 kvs w)) as [w' Hw'].
  { unfold Send. rewrite Hs. simpl. by eexists. }
  exists w'. split; [exact Hw'|].
  destruct (Send_requests id id id 0 0 3 range3 rank_id 9 0 0 DefaultSlicer 0
              true 0 kvs w w' Hw') as (sliced' & Hs' & Hsent & _ & Hnum & _).
  rewrite Hs in Hs'. injection Hs' as <-. split.
  - rewrite Hsent. reflexivity.
  - rewrite Hnum. reflexivity.
Defined.

Lemma request_round_trip_witness :
  KVServer_Process (Val:=Z) id id id (Some 1%nat)
    (request_msg id id id (λ r : nat, 8 + 2 * Z.of_nat r) 9 0 0 5 false 0 1
       (mkKVPairs [12; 15] [3; 4; 5] [1; 2]))
  = Some (CallRequestHandle 1%nat (KVMeta.mk 0 false 9 5 0)
            (mkKVPairs [12; 15] [3; 4; 5] [1; 2])).
Proof.
  apply (request_round_trip (Val:=Z) id id id id id id
           (λ r : nat, 8 + 2 * Z.of_nat r) 9 0 0 1%nat 5 false 0 1%nat
           (mkKVPairs [12; 15] [3; 4; 5] [1; 2])).
  by split_and!.
Defined.

Lemma Response_stored_witness :
  let res := mkKVPairs [12; 15] [3; 4; 5] [1; 2] in
  let c : @Callback Z nat := PullCb [12; 15] (Some []) (Some []) None in
  let w : @Worker Z (list Z) nat :=
    mkWorker 1 {[0 := 1]} ∅ {[0 := c]} [] ∅ in
  let w_last : @Worker Z (list Z) nat :=
    mkWorker 1 {[0 := 2]} ∅ {[0 := c]} [] ∅ in
  let answer := KVServer_Response id id id 0 7 (KVMeta.mk 0 false 9 0 0) res in
  Process (Val:=Z) id id id 0 0 3 (λ _ w, Some w) answer w
  = Some (mkWorker 1 {[0 := 1]} {[0 := [res]]} {[0 := c]} [] ∅)
  ∧ Process (Val:=Z) id id id 0 0 3 (λ _ w, Some w) answer w_last
    = Some (mkWorker 1 {[0 := 2]} ∅ ∅ [EvCallback 0 c]
              {[0 := ([3; 4; 5], Some [1; 2])]}).
Proof.
  intros res c w w_last answer. split.
  - pose proof (Response_stored (Val:=Z) (UserCallback:=nat) id id id id id id
                  0 0 3 (λ _ w, Some w) 0 7 (KVMeta.mk 0 false 9 0 0) res w)
      as H.
    unfold answer. rewrite H by (by split_and!). clear H. reflexivity.
  - pose proof (Response_stored (Val:=Z) (UserCallback:=nat) id id id id id id
                  0 0 3 (λ _ w, Some w) 0 7 (KVMeta.mk 0 false 9 0 0) res
                  w_last) as H.
    unfold answer. rewrite H by (by split_and!). clear H. reflexivity.
Defined.

(** ** The example handle of the server *)

Lemma filter_none {A} (P : A → Prop) `{!∀ x, Decision (P x)} (l : list A) :
  Forall (λ x, ¬ P x) l → filter P l = [].
Proof.
  induction 1 as [|x l Hx _ IH]; [done|].
  by rewrite filter_cons, decide_False, IH.
Qed.

Section DefaultHandle_properties.
Context {Val : Type}.
Variable Val_zero : Val.
Variable Val_add : Val → Val → Val.
Implicit Types (store : gmap Key Val) (req_data res : KVPairs Val).

#[local] Abbreviation handle := (KVServerDefaultHandle Val_zero Val_add).
#[local] Abbreviation handle_body := (KVServerDefaultHandle_body Val_zero Val_add).
#[local] Abbreviation ref := (store_ref Val_zero).

(** The loop of a pull after [m] iterations: the first [m] values of [res]
    are those of the store, and the store has got the keys that it did not
    have, with the value [Val()]. *)
Lemma DefaultHandle_pull_loop req_data store m :
  (m ≤ length (keys req_data))%nat →
  ∃ store',
    for_loop (handle_body false req_data) 0 m
      (store, mkKVPairs (keys req_data)
                (replicate (length (keys req_data)) Val_zero) [])
    = Some (store',
            mkKVPairs (keys req_data)
              ((ref store <$> take m (keys req_data))
               ++ replicate (length (keys req_data) - m) Val_zero) [])
    ∧ ∀ k, store' !! k
           = if decide (k ∈ take m (keys req_data)) then Some (ref store k)
             else store !! k.
Proof.
  induction m as [|m IH]; intros Hm.
  { exists store. split; [|done]. simpl. by rewrite Nat.sub_0_r. }
  destruct IH as (store1 & Hloop & Hstore); [lia|].
  rewrite for_loop_snoc, Hloop. simpl.
  destruct (lookup_lt_is_Some_2 (keys req_data) m) as [key Hkey]; [lia|].
  unfold KVServerDefaultHandle_body. rewrite Hkey. simpl.
  rewrite decide_True.
  2:{ rewrite length_app, length_fmap, length_take, length_replicate. lia. }
  assert (ref store1 key = ref store key) as Href.
  { unfold store_ref. rewrite Hstore. by destruct (decide _). }
  eexists. split.
  - do 3 f_equal. rewrite Href, (take_S_r _ _ _ Hkey), fmap_app. simpl.
    rewrite <- app_assoc. simpl.
    replace (length (keys req_data) - m)%nat
      with (S (length (keys req_data) - S m)) by lia.
    simpl. rewrite insert_app_r_alt.
    2:{ rewrite length_fmap, length_take. lia. }
    rewrite length_fmap, length_take.
    replace (m - m `min` length (keys req_data))%nat with 0%nat by lia.
    done.
  - intros k. rewrite (take_S_r _ _ _ Hkey). simpl.
    destruct (decide (k = key)) as [->|Hne].
    + rewrite lookup_insert_eq, decide_True, Href; [done|].
      apply elem_of_app. right. left.
    + rewrite lookup_insert_ne, Hstore by done.
      destruct (decide (k ∈ take m (keys req_data))) as [Hin|Hnin].
      * rewrite decide_True; [done|]. apply elem_of_app. by left.
      * rewrite decide_False; [done|].
        intros [?|Hin%list_elem_of_singleton]%elem_of_app; done.
Qed.

(** The values that the first [m] pairs of a request carry for [key]. *)
Lemma pushed_to_snoc req_data m key v k :
  keys req_data !! m = Some key → vals req_data !! m = Some v →
  pushed_to (mkKVPairs (take (S m) (keys req_data))
                       (take (S m) (vals req_data)) []) k
  = pushed_to (mkKVPairs (take m (keys req_data))
                         (take m (vals req_data)) []) k
    ++ (if decide (key = k) then [v] else []).
Proof.
  intros Hk Hv. unfold pushed_to. simpl.
  rewrite (take_S_r _ _ _ Hk), (take_S_r _ _ _ Hv).
  rewrite zip_with_app.
  2:{ apply lookup_lt_Some in Hk, Hv. rewrite !length_take. lia. }
  rewrite filter_app, fmap_app. f_equal. simpl.
  rewrite filter_cons, filter_nil. simpl. by destruct (decide (key = k)).
Qed.

(** The loop of a push after [m] iterations: the values of each key have
    been added to the store in the order of the request. *)
Lemma DefaultHandle_push_loop req_data store res m :
  (m ≤ length (keys req_data))%nat →
  length (keys req_data) = length (vals req_data) →
  ∃ store',
    for_loop (handle_body true req_data) 0 m (store, res) = Some (store', res)
    ∧ ∀ k, store' !! k
           = if decide (k ∈ take m (keys req_data))
             then Some (foldl Val_add (ref store k)
                          (pushed_to (mkKVPairs (take m (keys req_data))
                                        (take m (vals req_data)) []) k))
             else store !! k.
Proof.
  intros Hm Hlen. induction m as [|m IH].
  { exists store. split; [done|]. intros k. simpl.
    by destruct (decide (k ∈ [])) as [?%not_elem_of_nil|]. }
  destruct IH as (store1 & Hloop & Hstore); [lia|].
  rewrite for_loop_snoc, Hloop. simpl.
  destruct (lookup_lt_is_Some_2 (keys req_data) m) as [key Hkey]; [lia|].
  destruct (lookup_lt_is_Some_2 (vals req_data) m) as [v Hv]; [lia|].
  unfold KVServerDefaultHandle_body. rewrite Hkey. simpl. rewrite Hv. simpl.
  eexists. split; [done|]. intros k.
  rewrite (pushed_to_snoc _ _ _ _ _ Hkey Hv), foldl_app.
  rewrite (take_S_r _ _ _ Hkey).
  destruct (decide (k = key)) as [->|Hne].
  - rewrite lookup_insert_eq, decide_True by (apply elem_of_app; right; left).
    rewrite decide_True by done. simpl. do 2 f_equal.
    unfold store_ref at 1. rewrite Hstore.
    destruct (decide (key ∈ take m (keys req_data))) as [Hin|Hnin]; [done|].
    unfold pushed_to. simpl.
    rewrite filter_none; [done|].
    apply Forall_forall. intros [k' v'] Hin Heq. simpl in Heq. subst k'.
    apply Hnin. apply elem_of_zip_l in Hin. done.
  - rewrite lookup_insert_ne, Hstore by done.
    rewrite (decide_False (P:=key = k)) by done. simpl.
    destruct (decide (k ∈ take m (keys req_data))) as [Hin|Hnin].
    + rewrite decide_True; [done|]. apply elem_of_app. by left.
    + rewrite decide_False; [done|].
      intros [?|Hin%list_elem_of_singleton]%elem_of_app; done.
Qed.

(** X8: the example handle on a pull.  It never fails; its answer has the
    keys of the request, in their order, with one value for each, the value
    that the store holds for the key or [Val()] when it holds none, and no
    lengths; and the store changes only in that every requested key that it
    did not hold is now in it, with the value [Val()]. *)
Theorem DefaultHandle_pull cmd sender ts customer_id req_data store :
  ∃ store',
    KVServerDefaultHandle Val_zero Val_add
      (KVMeta.mk cmd false sender ts customer_id) req_data store
    = Some (store',
            mkKVPairs (keys req_data)
                      (store_ref Val_zero store <$> keys req_data) [])
    ∧ ∀ k, store' !! k
           = if decide (k ∈ keys req_data)
             then Some (store_ref Val_zero store k)
             else store !! k.
Proof.
  destruct (DefaultHandle_pull_loop req_data store (length (keys req_data)))
    as (store' & Hloop & Hstore); [done|].
  exists store'. unfold KVServerDefaultHandle. simpl. rewrite Hloop.
  rewrite firstn_all, Nat.sub_diag, app_nil_r in *. done.
Qed.

(** X9: the example handle on a push.  A push whose number of values is
    not its number of keys is refused, so a push with more than one value
    for a key fails whatever its lengths are.  Otherwise the answer is
    empty, every value of the request has been added to what the store held
    for its key, or to [Val()], in the order of the request, also when a key
    occurs more than once, and the keys that the request does not name are
    as before. *)
Theorem DefaultHandle_push cmd sender ts customer_id req_data store :
  let req_meta := KVMeta.mk cmd true sender ts customer_id in
  (length (keys req_data) ≠ length (vals req_data) →
   KVServerDefaultHandle Val_zero Val_add req_meta req_data store = None)
  ∧ (length (keys req_data) = length (vals req_data) →
     ∃ store',
       KVServerDefaultHandle Val_zero Val_add req_meta req_data store
       = Some (store', empty_kv)
       ∧ ∀ k, store' !! k
              = if decide (k ∈ keys req_data)
                then Some (foldl Val_add (store_ref Val_zero store k)
                             (pushed_to req_data k))
                else store !! k).
Proof.
  intros req_meta. unfold KVServerDefaultHandle. simpl. split.
  - intros Hne. by rewrite decide_False.
  - intros Hlen. rewrite decide_True by done. simpl.
    destruct (DefaultHandle_push_loop req_data store empty_kv
                (length (keys req_data))) as (store' & Hloop & Hstore);
      [done..|].
    exists store'. split; [done|]. intros k. rewrite Hstore.
    rewrite firstn_all, Hlen, firstn_all. done.
Qed.

Lemma pushed_to_unique req_data i key v :
  NoDup (keys req_data) →
  keys req_data !! i = Some key → vals req_data !! i = Some v →
  pushed_to req_data key = [v].
Proof.
  unfold pushed_to. destruct req_data as [ks vs ls]. simpl. clear ls.
  revert i vs. induction ks as [|k ks IH]; intros i vs Hnd Hk Hv; [done|].
  apply NoDup_cons in Hnd as [Hk0 Hnd].
  destruct vs as [|v0 vs]; [done|]. simpl. rewrite filter_cons. simpl.
  destruct i as [|i]; simpl in *.
  - simplify_eq. rewrite decide_True by done. simpl. f_equal.
    rewrite filter_none; [done|].
    apply Forall_forall. intros [k' v'] Hin Heq. simpl in Heq. subst k'.
    apply Hk0. by apply elem_of_zip_l in Hin.
  - rewrite decide_False; [by eapply IH|].
    intros ->. apply Hk0. by eapply list_elem_of_lookup_2.
Qed.

(** X10: a push and then a pull.  After the example handle has taken a
    push of distinct keys with one value each, a pull of the same keys is
    answered, key by key, with the value that the store held before the
    push, or [Val()], plus the value pushed for the key. *)
Theorem DefaultHandle_push_then_pull req_push req_pull req_data store :
  KVMeta.push req_push = true → KVMeta.push req_pull = false →
  NoDup (keys req_data) →
  length (keys req_data) = length (vals req_data) →
  ∃ store1 store2,
    KVServerDefaultHandle Val_zero Val_add req_push req_data store
    = Some (store1, empty_kv)
    ∧ KVServerDefaultHandle Val_zero Val_add req_pull
        (mkKVPairs (keys req_data) [] []) store1
      = Some (store2,
              mkKVPairs (keys req_data)
                (zip_with (λ k v, Val_add (store_ref Val_zero store k) v)
                          (keys req_data) (vals req_data)) []).
Proof.
  intros Hpush Hpull Hnd Hlen.
  destruct (DefaultHandle_push_loop req_data store empty_kv
              (length (keys req_data))) as (store1 & Hloop1 & Hstore1);
    [done..|].
  destruct (DefaultHandle_pull_loop (mkKVPairs (keys req_data) [] []) store1
              (length (keys req_data))) as (store2 & Hloop2 & _); [done|].
  exists store1, store2. unfold KVServerDefaultHandle.
  rewrite Hpush, Hpull. simpl in *.
  rewrite decide_True by done. simpl. rewrite Hloop1, Hloop2.
  split; [done|]. do 3 f_equal.
  rewrite firstn_all, Nat.sub_diag, app_nil_r.
  rewrite firstn_all, Hlen, firstn_all in Hstore1.
  apply list_eq. intros i. rewrite list_lookup_fmap, lookup_zip_with.
  destruct (keys req_data !! i) as [k|] eqn:Hk; simpl; [|done].
  destruct (lookup_lt_is_Some_2 (vals req_data) i) as [v Hv].
  { apply lookup_lt_Some in Hk. lia. }
  rewrite Hv. simpl. f_equal. unfold store_ref at 1. rewrite Hstore1.
  rewrite decide_True by (by eapply list_elem_of_lookup_2). simpl.
  change (pushed_to (mkKVPairs (keys req_data) (vals req_data) []) k)
    with (pushed_to req_data k).
  by rewrite (pushed_to_unique req_data i k v).
Qed.

End DefaultHandle_properties.

Lemma DefaultHandle_push_then_pull_witness :
  let req_data := mkKVPairs [5; 7] [1; 2] [] in
  let store : gmap Z Z := {[5 := 100]} in
  ∃ store1 store2,
    KVServerDefaultHandle 0 Z.add (KVMeta.mk 0 true 9 1 0) req_data store
    = Some (store1, empty_kv)
    ∧ KVServerDefaultHandle 0 Z.add (KVMeta.mk 0 false 9 2 0)
        (mkKVPairs [5; 7] [] []) store1
      = Some (store2, mkKVPairs [5; 7] [101; 2] []).
Proof.
  intros req_data store.
  destruct (DefaultHandle_push_then_pull 0 Z.add (KVMeta.mk 0 true 9 1 0)
              (KVMeta.mk 0 false 9 2 0) req_data store)
    as (store1 & store2 & H1 & H2).
  - reflexivity.
  - reflexivity.
  - compute_done.
  - reflexivity.
  - exists store1, store2. split; [exact H1|exact H2].
Defined.

(** ** The completion closure: what its checks guarantee *)

Lemma for_loop_invariant {St} (P : St → Prop) (body : St → nat → option St) :
  (∀ st i st', P st → body st i = Some st' → P st') →
  ∀ count start st st',
    P st → for_loop body start count st = Some st' → P st'.
Proof.
  intros Hstep. induction count as [|c IH]; intros start st st' HP Hloop.
  - by simplify_eq/=.
  - simpl in Hloop. destruct (body st start) as [st1|] eqn:Hb; [|done].
    simpl in Hloop. eapply IH; [|exact Hloop]. by eapply Hstep.
Qed.

(** A loop that returns has run its body at every index. *)
Lemma for_loop_Some_body {St} (body : St → nat → option St) :
  ∀ count start st st' i,
    for_loop body start count st = Some st' →
    (start ≤ i < start + count)%nat →
    ∃ sti, is_Some (body sti i).
Proof.
  induction count as [|c IH]; intros start st st' i Hloop Hi; [lia|].
  simpl in Hloop. destruct (body st start) as [st1|] eqn:Hb; [|done].
  simpl in Hloop. destruct (decide (i = start)) as [->|Hne].
  - exists st. by rewrite Hb.
  - eapply (IH (S start)); [exact Hloop|lia].
Qed.

Lemma memcpy_length {A} (dst : list A) off src r :
  memcpy dst off src = Some r → length r = length dst.
Proof.
  unfold memcpy. destruct (decide _); [|done]. intros [= <-].
  rewrite !length_app, length_take, length_drop. lia.
Qed.

Lemma prepare_buffer_length {A} (zero : A) buf n r :
  prepare_buffer zero buf n = Some r →
  length r = n ∧ (buf ≠ [] → r = buf).
Proof.
  unfold prepare_buffer. destruct buf as [|x buf].
  - intros [= <-]. by rewrite length_replicate.
  - destruct (decide _) as [Hlen|]; [|done]. by intros [= <-].
Qed.

Section Pull_checks.
Context {Val : Type}.
Variable Val_zero : Val.
Implicit Types (kvs : list (KVPairs Val)) (s : KVPairs Val).

Lemma Pull_check_range_spec ks want_lens kvs :
  ∀ tk tv tk' tv',
    Pull_check_range ks want_lens kvs tk tv = Some (tk', tv') →
    Forall (range_fragment_ok ks want_lens) kvs
    ∧ tk' = (tk + sum_list ((λ s, length (keys s)) <$> kvs))%nat
    ∧ tv' = (tv + sum_list ((λ s, length (vals s)) <$> kvs))%nat.
Proof.
  induction kvs as [|s kvs IH]; intros tk tv tk' tv' Hc.
  { simpl in Hc. simplify_eq. split_and!; [done|simpl; lia..]. }
  change (Pull_check_range ks want_lens (s :: kvs) tk tv)
    with (first_key ← head (keys s);
          last_key ← last (keys s);
          if decide (Range_size (FindRange ks first_key (wrap64 (last_key + 1)))
                     = Z.of_nat (length (keys s))) then
            if want_lens
               && negb (bool_decide (length (lens s) = length (keys s)))
            then None
            else Pull_check_range ks want_lens kvs
                   (tk + length (keys s)) (tv + length (vals s))
          else None) in Hc.
  destruct (head (keys s)) as [fk|] eqn:Hf; [|done].
  destruct (last (keys s)) as [lk|] eqn:Hl; [|done]. simpl in Hc.
  destruct (decide _) as [Hsize|]; [|done].
  destruct (want_lens && _) eqn:Hw; [done|].
  apply IH in Hc as (Hall & -> & ->). rewrite !sum_list_fmap_cons.
  split_and!; [|lia..]. constructor; [|done].
  exists fk, lk. split_and!; try done. intros ->. simpl in Hw.
  apply negb_false_iff in Hw. by apply bool_decide_eq_true in Hw.
Qed.

(** X11: the checks of the range policy.  Under the range policy the
    closure produces output only when every received fragment has keys,
    has as many keys as the caller has keys from the fragment's first key
    up to its last, has as many lengths as keys when the caller passed a
    buffer for lengths, and the fragments together have as many keys as
    the caller; otherwise it fails. *)
Theorem Pull_callback_range_checks n ks kvs vals_buf lens_buf out :
  Pull_callback Val_zero 0 n ks kvs vals_buf lens_buf = Some out →
  Forall (range_fragment_ok ks (bool_decide (is_Some lens_buf))) kvs
  ∧ sum_list ((λ s, length (keys s)) <$> kvs) = length ks.
Proof.
  unfold Pull_callback. intros Hout.
  rewrite decide_True in Hout by done.
  destruct (Pull_check_range _ _ _ _ _) as [[tk tv]|] eqn:Hchk; [|done].
  simpl in Hout. destruct (decide (tk = length ks)) as [->|]; [|done].
  apply Pull_check_range_spec in Hchk as (Hall & Htk & _).
  split; [done|]. simpl in Htk. lia.
Qed.

(** *** The sizes of the buffers *)

Lemma Pull_merge_range_length kvs :
  ∀ o o',
    Pull_merge_range kvs o = Some o' →
    length (out_vals o') = length (out_vals o)
    ∧ length <$> out_lens o' = length <$> out_lens o.
Proof.
  induction kvs as [|s kvs IH]; intros o o' Hm; simpl in Hm.
  { by simplify_eq. }
  destruct (memcpy (out_vals o) _ _) as [vs|] eqn:Hvs; [|done].
  apply memcpy_length in Hvs. simpl in Hm.
  destruct (out_lens o) as [ol|] eqn:Hol.
  - destruct (memcpy ol _ _) as [ls|] eqn:Hls; [|done].
    apply memcpy_length in Hls. simpl in Hm.
    apply IH in Hm as [-> ->]. simpl. by rewrite Hvs, Hls.
  - simpl in Hm. apply IH in Hm as [-> ->]. simpl. by rewrite Hvs.
Qed.

Lemma Pull_merge_mod_body_length ks kvs st i st' :
  Pull_merge_mod_body ks kvs st i = Some st' →
  length (out_vals (mm_out st')) = length (out_vals (mm_out st))
  ∧ length <$> out_lens (mm_out st') = length <$> out_lens (mm_out st).
Proof.
  unfold Pull_merge_mod_body. intros Hb.
  destruct (ks !! i) as [key|]; [|done]. simpl in Hb.
  destruct (find_fragment _ _ _ _) as [j|]; [|done]. simpl in Hb.
  destruct (kvs !! j) as [s|]; [|done]. simpl in Hb.
  destruct (cnt_s st !! j) as [vector_id|]; [|done]. simpl in Hb.
  destruct (cnt_sv st !! j) as [sv|]; [|done]. simpl in Hb.
  destruct (if decide (lens s = []) then _ else _) as [k|]; [|done].
  simpl in Hb.
  destruct (read_block _ _ _) as [block|]; [|done]. simpl in Hb.
  destruct (memcpy (out_vals _) _ _) as [vs|] eqn:Hvs; [|done].
  apply memcpy_length in Hvs. simpl in Hb.
  destruct (out_lens (mm_out st)) as [ol|] eqn:Hol.
  - destruct (lens s !! vector_id) as [l|]; [|done]. simpl in Hb.
    destruct (memcpy ol _ _) as [ls|] eqn:Hls; [|done].
    apply memcpy_length in Hls. simpl in Hb.
    injection Hb as <-. simpl. by rewrite Hvs, Hls.
  - simpl in Hb. injection Hb as <-. simpl. by rewrite Hvs.
Qed.

(** X12: the sizes of the caller's buffers.  Whenever the closure produces
    output, under either policy, the fragments together have as many keys
    as the caller; the values buffer holds exactly as many values as the
    fragments carry, and a buffer that the caller passed non-empty had
    that size already; and the buffer for lengths, when the caller passed
    one, holds one length for each key of the caller. *)
Theorem Pull_callback_sizes slicer_kind n ks kvs vals_buf lens_buf ov ol :
  Pull_callback Val_zero slicer_kind n ks kvs vals_buf lens_buf
  = Some (ov, ol) →
  sum_list ((λ s, length (keys s)) <$> kvs) = length ks
  ∧ length ov = sum_list ((λ s, length (vals s)) <$> kvs)
  ∧ (vals_buf ≠ [] → length vals_buf = length ov)
  ∧ length <$> ol = (λ _, length ks) <$> lens_buf
  ∧ (∀ b, lens_buf = Some b → b ≠ [] → length b = length ks).
Proof.
  unfold Pull_callback. intros Hout.
  assert (∃ tn,
            (if decide (slicer_kind = 0) then
               t ← Pull_check_range ks (bool_decide (is_Some lens_buf)) kvs 0 0;
               Some (t.1, t.2, 0%nat)
             else
               cnt_server ← count_server n ks (replicate n 0%nat);
               Pull_check_mod n cnt_server kvs 0 0 0)
            = Some (sum_list ((λ s, length (keys s)) <$> kvs),
                    sum_list ((λ s, length (vals s)) <$> kvs), tn))
    as [tn Htot].
  { destruct (decide (slicer_kind = 0)).
    - destruct (Pull_check_range _ _ _ _ _) as [[tk tv]|] eqn:Hchk; [|done].
      apply Pull_check_range_spec in Hchk as (_ & -> & ->). by eexists.
    - destruct (count_server _ _ _) as [cnt|]; [|done]. simpl in *.
      destruct (Pull_check_mod _ _ _ _ _ _) as [[[tk tv] tn]|] eqn:Hchk;
        [|done].
      apply Pull_check_mod_spec in Hchk as (_ & -> & -> & _). by eexists. }
  rewrite Htot in Hout. simpl in Hout.
  destruct (decide _) as [Htk|]; [|done]. split; [done|].
  destruct (prepare_buffer Val_zero _ _) as [ov0|] eqn:Hov; [|done].
  apply prepare_buffer_length in Hov as [Hov Hvb]. simpl in Hout.
  destruct (match lens_buf with Some b => _ | None => _ end) as [ol0|] eqn:Hol;
    [|done].
  simpl in Hout.
  assert (length <$> ol0 = (λ _, length ks) <$> lens_buf
          ∧ ∀ b, lens_buf = Some b → b ≠ [] → length b = length ks)
    as [Hol0 Hlb].
  { destruct lens_buf as [b|]; simplify_eq/=.
    - destruct (prepare_buffer 0 b _) as [b'|] eqn:Hb; [|done].
      apply prepare_buffer_length in Hb as [Hb Hbb]. simplify_eq/=.
      split; [by rewrite Hb|]. intros b0 [= <-] Hne. by rewrite <- (Hbb Hne).
    - done. }
  assert (length ov = length ov0 ∧ length <$> ol = length <$> ol0)
    as [Hlv Hll].
  { destruct (decide (slicer_kind = 0)).
    - destruct (Pull_merge_range _ _) as [o'|] eqn:Hm; [|done].
      simpl in Hout. injection Hout as <- <-.
      by apply Pull_merge_range_length in Hm as [Hv Hl].
    - destruct (for_loop _ _ _ _) as [st|] eqn:Hloop; [|done].
      simpl in Hout. injection Hout as <- <-.
      refine (for_loop_invariant
                (λ st, length (out_vals (mm_out st)) = length ov0
                       ∧ length <$> out_lens (mm_out st) = length <$> ol0)
                _ _ _ _ _ _ _ Hloop); [|done].
      intros st0 i st1 [H1 H2] Hb.
      by apply Pull_merge_mod_body_length in Hb as [-> ->]. }
  split_and!; try done; [lia| |congruence].
  intros Hne. rewrite Hlv. by rewrite (Hvb Hne).
Qed.

(** *** The cursor walk answers no key that it was not given *)

Lemma find_fragment_Some key kvs :
  ∀ cnt j0 j,
    find_fragment key kvs cnt j0 = Some j →
    ∃ s, kvs !! (j - j0)%nat = Some s ∧ key ∈ keys s.
Proof.
  induction kvs as [|s kvs IH]; intros cnt j0 j Hf; [done|].
  destruct cnt as [|c cnt]; [done|]. simpl in Hf.
  assert (find_fragment key kvs cnt (S j0) = Some j →
          ∃ s0, (s :: kvs) !! (j - j0)%nat = Some s0 ∧ key ∈ keys s0) as Hrec.
  { intros Hf'. assert (S j0 ≤ j)%nat as Hle.
    { clear -Hf'. revert cnt j0 Hf'.
      induction kvs as [|s kvs IH]; intros cnt j0 Hf; [done|].
      destruct cnt as [|c cnt]; [done|]. simpl in Hf.
      destruct (decide _); [apply IH in Hf; lia|].
      destruct (decide _); [simplify_eq; lia|apply IH in Hf; lia]. }
    apply IH in Hf' as (s0 & Hs0 & Hin). exists s0. split; [|done].
    replace (j - j0)%nat with (S (j - S j0)) by lia. done. }
  destruct (decide (length (keys s) ≤ c)%nat); [by apply Hrec|].
  destruct (decide (keys s !! c = Some key)) as [Hk|]; [|by apply Hrec].
  injection Hf as <-. exists s. rewrite Nat.sub_diag. split; [done|].
  by eapply list_elem_of_lookup_2.
Qed.

(** X13: under the modulo policy the closure answers no key that the
    servers did not answer: when a key of the caller is in none of the
    received fragments, the closure fails, whatever the tallies are. *)
Theorem Pull_callback_mod_missing_key slicer_kind n ks kvs vals_buf lens_buf k :
  slicer_kind ≠ 0 → k ∈ ks → (∀ s, s ∈ kvs → k ∉ keys s) →
  Pull_callback Val_zero slicer_kind n ks kvs vals_buf lens_buf = None.
Proof.
  intros Hkind Hk Hmiss.
  destruct (Pull_callback _ _ _ _ _ _ _) as [out|] eqn:Hout; [|done].
  exfalso. unfold Pull_callback in Hout.
  rewrite !decide_False in Hout by done.
  destruct (count_server _ _ _) as [cnt|]; [|done]. simpl in Hout.
  destruct (Pull_check_mod _ _ _ _ _ _) as [[[tk tv] tn]|]; [|done].
  simpl in Hout. destruct (decide _); [|done].
  destruct (prepare_buffer Val_zero _ _) as [ov0|]; [|done]. simpl in Hout.
  destruct (match lens_buf with Some b => _ | None => _ end) as [ol0|];
    [|done].
  simpl in Hout. rewrite decide_False in Hout by done.
  destruct (for_loop _ _ _ _) as [st|] eqn:Hloop; [|done].
  apply list_elem_of_lookup in Hk as [i Hi].
  apply lookup_lt_Some in Hi as Hlt.
  destruct (for_loop_Some_body _ _ _ _ _ i Hloop ltac:(lia)) as [sti [st' Hb]].
  unfold Pull_merge_mod_body in Hb. rewrite Hi in Hb. simpl in Hb.
  destruct (find_fragment _ _ _ _) as [j|] eqn:Hf; [|done].
  apply find_fragment_Some in Hf as (s & Hs & Hin).
  apply (Hmiss s); [|done].
  rewrite <- (sort_by_front_perm kvs). by eapply list_elem_of_lookup_2.
Qed.

End Pull_checks.

Lemma Pull_callback_range_checks_witness :
  let ks := [2; 12; 25] in
  let kvs := [mkKVPairs [25] [3] []; mkKVPairs [2] [1] [];
              mkKVPairs [12] [2] []] in
  Pull_callback 0 0 3 ks kvs [] None = Some ([1; 2; 3], None)
  ∧ Forall (range_fragment_ok ks false) kvs
  ∧ sum_list ((λ s : KVPairs Z, length (keys s)) <$> kvs) = 3%nat.
Proof.
  intros ks kvs.
  assert (Pull_callback 0 0 3 ks kvs [] None = Some ([1; 2; 3], None)) as H
    by (vm_compute; reflexivity).
  split; [exact H|].
  exact (Pull_callback_range_checks 0 3 ks kvs [] None _ H).
Defined.

Lemma Pull_callback_sizes_witness :
  let ks := [1; 2; 3; 4; 5] in
  let kvs := [mkKVPairs [2; 5] [20; 21; 50] [2; 1]; mkKVPairs [3] [] [0];
              mkKVPairs [1; 4] [10; 40] [1; 1]] in
  Pull_callback 0 1 3 ks kvs [] (Some [])
  = Some ([10; 20; 21; 40; 50], Some [1; 2; 0; 1; 1])
  ∧ length [10; 20; 21; 40; 50]
    = sum_list ((λ s : KVPairs Z, length (vals s)) <$> kvs).
Proof.
  intros ks kvs.
  assert (Pull_callback 0 1 3 ks kvs [] (Some [])
          = Some ([10; 20; 21; 40; 50], Some [1; 2; 0; 1; 1])) as H
    by (vm_compute; reflexivity).
  split; [exact H|].
  exact (proj1 (proj2 (Pull_callback_sizes 0 1 3 ks kvs [] (Some []) _ _ H))).
Defined.

Lemma Pull_callback_mod_missing_key_witness :
  Pull_callback 0 1 3 [1; 4] [mkKVPairs [1; 7] [10; 70] []] [] None = None.
Proof.
  apply (Pull_callback_mod_missing_key 0 1 3 [1; 4]
           [mkKVPairs [1; 7] [10; 70] []] [] None 4).
  - done.
  - apply list_elem_of_further, list_elem_of_here.
  - intros s ->%list_elem_of_singleton. simpl.
    intros [|[|[]%not_elem_of_nil]%elem_of_cons]%elem_of_cons; done.
Defined.

Lemma Pull_mod_reassembles_witness :
  let ks := [1; 2; 3; 4; 5] in
  let block := λ k : Z, [10 * k] in
  let frags := [response block false [2; 5]; response block false [3];
                response block false [1; 4]] in
  Pull_callback 0 1 3 ks frags [] None = Some ([10; 20; 30; 40; 50], None).
Proof.
  intros ks block frags.
  apply (Pull_mod_reassembles 0 1 3 ks block false frags None).
  - done.
  - done.
  - compute_done.
  - change (concat (keys <$> frags)) with [2; 5; 3; 1; 4]. unfold ks.
    apply NoDup_Permutation; [compute_done..|].
    intros x. rewrite !elem_of_cons. tauto.
  - repeat (constructor; [split_and!;
                            [reflexivity|done|reflexivity
                            |exists 1%nat; by repeat constructor]|]).
    constructor.
  - repeat (constructor; [eexists; split; [reflexivity|reflexivity]|]).
    constructor.
  - by left.
Defined.

(** ** A pull under the range policy, from the request to the buffers *)

Section Pull_data_path.
Context {Val Segment UserCallback : Type}.
Variable seg_of_keys : list Key → Segment.
Variable seg_of_vals : list Val → Segment.
Variable seg_of_lens : list Z → Segment.
Variable keys_of_seg : Segment → list Key.
Variable vals_of_seg : Segment → list Val.
Variable lens_of_seg : Segment → list Z.
Variable num_servers : nat.
Variable ranges : list Range.
Variable ServerRankToID : nat → Z.
Variable my_node_id : Z.
Variable obj_app_id : Z.
Variable obj_customer_id : Z.
Variable server_app_id : Z.
Variable sender_default : Z.
Variable Val_zero : Val.

Implicit Types (w : @Worker Val Segment UserCallback)
  (msg : @Message Segment) (sliced : SlicedKVs Val) (kvs : KVPairs Val)
  (block : Key → list Val).

#[local] Abbreviation request_p :=
  (request_msg seg_of_keys seg_of_vals seg_of_lens ServerRankToID my_node_id
     obj_app_id obj_customer_id).
#[local] Abbreviation requests_p :=
  (requests_of seg_of_keys seg_of_vals seg_of_lens ServerRankToID my_node_id
     obj_app_id obj_customer_id).
#[local] Abbreviation round_trip_p :=
  (segments_round_trip seg_of_keys seg_of_vals seg_of_lens
     keys_of_seg vals_of_seg lens_of_seg).
#[local] Abbreviation answer_p :=
  (server_answer seg_of_keys seg_of_vals seg_of_lens
     keys_of_seg vals_of_seg lens_of_seg server_app_id sender_default).
#[local] Abbreviation Response_p :=
  (KVServer_Response (Val:=Val) seg_of_keys seg_of_vals seg_of_lens
     server_app_id sender_default).
#[local] Abbreviation store_all_p :=
  (Process_store_all (Val:=Val) (UserCallback:=UserCallback)
     keys_of_seg vals_of_seg lens_of_seg).
#[local] Abbreviation received_p :=
  (received_kvs (Val:=Val) keys_of_seg vals_of_seg lens_of_seg).

(** The answer of the server to the request for a shard that has keys and
    no lengths. *)
Lemma server_answer_request block with_lens ts cmd i kvs :
  round_trip_p → keys kvs ≠ [] → lens kvs = [] →
  answer_p block with_lens (request_p ts false cmd i kvs)
  = Some (Response_p (KVMeta.mk cmd false my_node_id ts obj_customer_id)
            (response block with_lens (keys kvs))).
Proof.
  intros (Hk & Hv & Hl) Hne He. destruct kvs as [ks vs ls]. simpl in *.
  subst ls. unfold server_answer, KVServer_Process, request_msg, kv_data.
  simpl. destruct ks as [|k ks]; [done|]. simpl. by rewrite Hk.
Qed.

(** What the worker reads back from the answer. *)
Lemma received_Response block with_lens req ks :
  round_trip_p → ks ≠ [] →
  received_p (Response_p req (response block with_lens ks))
  = response block with_lens ks.
Proof.
  intros (Hk & Hv & Hl) Hne.
  unfold received_kvs, KVServer_Response, kv_data, response. simpl.
  destruct ks as [|k ks]; [done|]. simpl.
  destruct with_lens; simpl; by rewrite ?Hk, ?Hv, ?Hl.
Qed.

(** The answers to the requests of a sliced vector. *)
Lemma answers_of_imap {A} (answer : @Message Segment → option A)
    (R : KVPairs Val → A) sliced :
  ∀ f : nat → KVPairs Val → @Message Segment,
    (∀ i kvs, keys kvs ≠ [] → lens kvs = [] → answer (f i kvs) = Some (R kvs)) →
    Forall (λ sh : bool * KVPairs Val,
              sh.1 = true → keys sh.2 ≠ [] ∧ lens sh.2 = []) sliced →
    Forall2 (λ m a, answer m = Some a)
      (concat (imap (λ i (s : bool * KVPairs Val),
                       if s.1 then [f i s.2] else []) sliced))
      (R <$> active_shards sliced).
Proof.
  unfold active_shards.
  induction sliced as [|[fl kv] sliced IH]; intros f Hf Hall; [constructor|].
  apply Forall_cons in Hall as [Hsh Hall]. simpl in Hsh.
  rewrite filter_cons. simpl.
  specialize (IH (λ i, f (S i)) ltac:(intros; by apply Hf) Hall).
  destruct fl; simpl.
  - constructor; [|exact IH].
    destruct Hsh as [Hne He]; [done|]. by apply Hf.
  - exact IH.
Qed.

Lemma answers_of_requests block with_lens ts cmd sliced :
  round_trip_p →
  Forall (λ sh : bool * KVPairs Val,
            sh.1 = true → keys sh.2 ≠ [] ∧ lens sh.2 = []) sliced →
  mapM (answer_p block with_lens) (requests_p ts false cmd sliced)
  = Some ((λ sh : KVPairs Val,
             Response_p (KVMeta.mk cmd false my_node_id ts obj_customer_id)
               (response block with_lens (keys sh)))
          <$> active_shards sliced).
Proof.
  intros Hrt Hall. apply mapM_Some. unfold requests_of.
  apply (answers_of_imap (answer_p block with_lens)); [|done].
  intros i kvs Hne He. by apply server_answer_request.
Qed.

(** Storing answers to a pull of [ts] that have data appends what the
    worker reads from them, in the order of their arrival. *)
Lemma Process_store_all_pull ts (msgs : list (@Message Segment)) :
  Forall (λ msg, Meta.push (meta msg) = false
                 ∧ Meta.timestamp (meta msg) = ts
                 ∧ (2 ≤ length (data msg))%nat) msgs →
  ∀ w, ∃ w1,
    store_all_p msgs w = Some w1
    ∧ default [] (recv_kvs_ w1 !! ts)
      = default [] (recv_kvs_ w !! ts) ++ (received_p <$> msgs)
    ∧ callbacks_ w1 = callbacks_ w ∧ tracker w1 = tracker w
    ∧ log w1 = log w.
Proof.
  induction 1 as [|msg msgs (Hpush & Hts & Hdata) _ IH]; intros w.
  { exists w. simpl. by rewrite app_nil_r. }
  simpl. unfold Process_store at 1. rewrite Hpush, Hts. simpl.
  rewrite bool_decide_true by lia.
  destruct (data msg) as [|d0 [|d1 rest]] eqn:Hd; simpl in Hdata; [lia..|].
  simpl.
  match goal with |- ∃ w1, store_all_p msgs ?w0 = _ ∧ _ =>
    destruct (IH w0) as (w1 & Hw1 & Hrecv & Hcb & Htr & Hlog) end.
  exists w1. split; [done|]. simpl in *.
  rewrite lookup_insert_eq in Hrecv. simpl in Hrecv.
  rewrite Hrecv, <- app_assoc. split; [|done].
  do 2 f_equal. unfold received_kvs. by rewrite Hd.
Qed.

(** X14: a pull under the range policy, from the request to the buffers.
    For keys that increase and lie in the ranges: the range slicer returns;
    each request that [Send] builds for the sliced vector is answered, by a
    server whose handle answers a pull with the blocks that it holds for the
    requested keys; and once the worker has stored these answers, in
    whatever order they arrived, the closure of the pull fills the caller's
    empty buffer with the blocks of the caller's keys, in the order of the
    keys, fills the optional buffer with their lengths, and leaves no
    fragment stored for the timestamp. *)
Theorem pull_data_path ts cmd ks block with_lens lens_buf w :
  round_trip_p →
  StronglySorted Z.lt ks → Forall (λ k, 0 ≤ k < 2 ^ 64 - 1) ks →
  ranges_cover ranges ks →
  recv_kvs_ w !! ts = None →
  lens_buf = None ∨ lens_buf = Some [] ∧ with_lens = true →
  ∃ sliced answers,
    DefaultSlicer (mkKVPairs ks [] []) ranges = Some sliced
    ∧ mapM (answer_p block with_lens) (requests_p ts false cmd sliced)
      = Some answers
    ∧ ∀ msgs, msgs ≡ₚ answers →
        ∃ w1 w2,
          store_all_p msgs w = Some w1
          ∧ Pull_closure Val_zero 0 num_servers ts ks [] lens_buf w1
            = Some (w2, (concat (block <$> ks),
                         (λ _, (λ k, Z.of_nat (length (block k))) <$> ks)
                         <$> lens_buf))
          ∧ recv_kvs_ w2 !! ts = None.
Proof.
  intros Hrt Hsorted Hbound Hcover Hfresh Hbuf.
  destruct (DefaultSlicer_coverage (mkKVPairs ks ([] : list Val) []) ranges)
    as (sliced & Hs & _);
    [unfold sliceable; simpl; apply Nat.Div0.mod_0_l|done|done|].
  exists sliced.
  assert (DefaultSlicer_pos0 ks ranges = 0%nat) as Hp0.
  { destruct Hcover as (_ & Hfirst & _).
    destruct ranges as [|r0 rs]; [done|]. by apply lower_bound_0. }
  pose proof (DefaultSlicer_Some_keys _ _ _ Hs) as Hkeys. simpl in Hkeys.
  rewrite Hp0, drop_0 in Hkeys.
  assert (Forall (λ sh : bool * KVPairs Val,
                    sh.1 = true → keys sh.2 ≠ [] ∧ lens sh.2 = []) sliced)
    as Hactive.
  { assert (sliced = run_shards (mkKVPairs ks [] []) 0 (range_shards ks ranges))
      as Hruns by (by apply DefaultSlicer_Some_runs).
    rewrite Hruns. clear.
    generalize 0%nat. induction (range_shards ks ranges) as [|piece ps IH];
      intros p; [constructor|].
    simpl. constructor; [|apply IH].
    destruct (decide (piece = [])) as [|Hne]; [done|]. intros _. simpl.
    split; [|done]. intros Hnil%(f_equal length).
    rewrite length_fmap, length_seq in Hnil. by destruct piece. }
  eexists. split; [done|].
  split; [by apply answers_of_requests|].
  intros msgs Hperm.
  set (req := KVMeta.mk cmd false my_node_id ts obj_customer_id) in *.
  set (resp := λ sh : KVPairs Val,
         Response_p req (response block with_lens (keys sh))) in *.
  assert (Forall (λ sh : KVPairs Val, keys sh ≠ []) (active_shards sliced))
    as Hne.
  { unfold active_shards. apply Forall_fmap, Forall_forall.
    intros sh [Hfl Hin]%list_elem_of_filter. simpl.
    by destruct (proj1 (Forall_forall _ _) Hactive sh Hin Hfl). }
  destruct (Process_store_all_pull ts msgs) with (w := w)
    as (w1 & Hw1 & Hrecv & _).
  { rewrite Hperm. apply Forall_fmap.
    eapply Forall_impl; [exact Hne|]. intros sh Hk. simpl.
    split_and!; [done..|]. unfold kv_data. simpl in *.
    rewrite decide_True by (by destruct (keys sh)).
    destruct (decide _); simpl; lia. }
  exists w1. eexists. split; [done|].
  rewrite Hfresh in Hrecv. simpl in Hrecv.
  unfold Pull_closure. rewrite Hrecv.
  rewrite (Pull_range_reassembles Val_zero num_servers ks ranges block
             with_lens sliced (received_p <$> msgs) lens_buf);
    try done.
  - simpl. split; [done|]. simpl. by rewrite lookup_delete_eq.
  - rewrite Hperm, <- list_fmap_compose.
    assert (received_p ∘ resp <$> active_shards sliced
            = (λ sh : KVPairs Val, response block with_lens (keys sh))
              <$> active_shards sliced) as ->; [|done].
    apply Forall_fmap_ext_1.
    eapply Forall_impl; [exact Hne|]. intros sh Hk. simpl.
    by apply received_Response.
Qed.

End Pull_data_path.

Lemma pull_data_path_witness :
  let ks := [2; 12; 25] in
  let block := λ k : Z, [10 * k] in
  let rank_id := λ r : nat, 8 + 2 * Z.of_nat r in
  ∃ sliced answers,
    DefaultSlicer (mkKVPairs ks [] []) range3 = Some sliced
    ∧ mapM (server_answer id id id id id id 0 7 block false)
           (requests_of id id id rank_id 9 0 0 5 false 0 sliced)
      = Some answers
    ∧ ∀ msgs, msgs ≡ₚ answers →
        ∃ w1 w2,
          Process_store_all id id id msgs scenario_worker = Some w1
          ∧ Pull_closure 0 0 3 5 ks [] None w1
            = Some (w2, ([20; 120; 250], None))
          ∧ recv_kvs_ w2 !! 5 = None.
Proof.
  intros ks block rank_id.
  apply (pull_data_path (Val:=Z) (UserCallback:=nat) id id id id id id 3
           range3 rank_id 9 0 0 0 7 0 5 0 ks block false None scenario_worker).
  - by split_and!.
  - repeat constructor; lia.
  - repeat constructor; lia.
  - split; [exact range3_adjacent|]. split.
    + repeat constructor; simpl; lia.
    + intros r [= <-]. repeat constructor; simpl; lia.
  - reflexivity.
  - by left.
Defined.

(** ** A push under the range policy, from the request to the stores *)

Lemma StronglySorted_lt_NoDup (l : list Z) : StronglySorted Z.lt l → NoDup l.
Proof.
  induction 1 as [|x l _ IH Hall]; constructor; [|done].
  intros Hin. pose proof (proj1 (Forall_forall _ _) Hall x Hin). lia.
Qed.

Section Push_data_path.
Context {Val Segment ReqHandle : Type}.
Variable seg_of_keys : list Key → Segment.
Variable seg_of_vals : list Val → Segment.
Variable seg_of_lens : list Z → Segment.
Variable keys_of_seg : Segment → list Key.
Variable vals_of_seg : Segment → list Val.
Variable lens_of_seg : Segment → list Z.
Variable ranges : list Range.
Variable ServerRankToID : nat → Z.
Variable my_node_id : Z.
Variable obj_app_id : Z.
Variable obj_customer_id : Z.
Variable Val_zero : Val.
Variable Val_add : Val → Val → Val.

Implicit Types (kvs : KVPairs Val) (store : gmap Key Val).

#[local] Abbreviation request_q :=
  (request_msg seg_of_keys seg_of_vals seg_of_lens ServerRankToID my_node_id
     obj_app_id obj_customer_id).
#[local] Abbreviation round_trip_q :=
  (segments_round_trip seg_of_keys seg_of_vals seg_of_lens
     keys_of_seg vals_of_seg lens_of_seg).

(** What the server reads from the request for a shard that has keys and
    no lengths. *)
Lemma request_decodes_uniform (h : ReqHandle) ts push cmd i kvs :
  round_trip_q → keys kvs ≠ [] → lens kvs = [] →
  KVServer_Process keys_of_seg vals_of_seg lens_of_seg (Some h)
    (request_q ts push cmd i kvs)
  = Some (CallRequestHandle h
            (KVMeta.mk cmd push my_node_id ts obj_customer_id) kvs).
Proof.
  intros (Hk & Hv & Hl) Hne He. destruct kvs as [ks vs ls]. simpl in *.
  subst ls. unfold KVServer_Process, request_msg, kv_data.
  simpl. destruct ks as [|k ks]; [done|]. simpl. by rewrite Hk, Hv.
Qed.

(** The run of [len] pairs from position [p] of a batch with one value for
    each key. *)
Lemma select_single_values (ks : list Key) (vs : list Val) p len :
  length vs = length ks → (p + len ≤ length ks)%nat →
  select (mkKVPairs ks vs []) (seq p len)
  = mkKVPairs (take len (drop p ks)) (take len (drop p vs)) [].
Proof.
  intros Hlen Hp. unfold select. simpl.
  rewrite lookup_total_seq by done. f_equal.
  rewrite concat_block_of_uniform by done. simpl. rewrite Hlen.
  destruct (decide (length ks = 0%nat)) as [H0|H0].
  - assert (len = 0%nat) as -> by lia. by rewrite !take_0.
  - rewrite Nat.div_same by done. by rewrite !Nat.mul_1_r.
Qed.

(** X15: a push under the range policy, from the request to the stores.
    For a batch of increasing keys within the ranges, with one value for
    each key and no lengths: the range slicer returns, and for every
    server with an active shard, [KVServer::Process] on the request that
    [Send] builds for it calls the handle with the shard; the example
    handle then accepts it, answers with an empty list, has added to each
    key of the shard the value that the batch carries for this key, and
    has left every other key of its store as it was; the keys of the shard
    lie in the range of the server, and every key of the batch is in the
    shard of one server. *)
Theorem push_data_path (h : ReqHandle) ts cmd ks vs :
  round_trip_q →
  StronglySorted Z.lt ks → length vs = length ks →
  ranges_cover ranges ks →
  ∃ sliced,
    DefaultSlicer (mkKVPairs ks vs []) ranges = Some sliced
    ∧ (∀ k, k ∈ ks →
         ∃ s sh, sliced !! s = Some sh ∧ sh.1 = true ∧ k ∈ keys sh.2)
    ∧ ∀ s sh store,
        sliced !! s = Some sh → sh.1 = true →
        let req_meta := KVMeta.mk cmd true my_node_id ts obj_customer_id in
        KVServer_Process keys_of_seg vals_of_seg lens_of_seg (Some h)
          (request_q ts true cmd s sh.2)
        = Some (CallRequestHandle h req_meta sh.2)
        ∧ (∀ r, ranges !! s = Some r →
             Forall (λ k, begin r ≤ k < end_ r) (keys sh.2))
        ∧ ∃ store',
            KVServerDefaultHandle Val_zero Val_add req_meta sh.2 store
            = Some (store', empty_kv)
            ∧ (∀ j k v, ks !! j = Some k → vs !! j = Some v →
                 k ∈ keys sh.2 →
                 store' !! k
                 = Some (Val_add (store_ref Val_zero store k) v))
            ∧ (∀ k, k ∉ keys sh.2 → store' !! k = store !! k).
Proof.
  intros Hrt Hsorted Hlen Hcover.
  set (send := mkKVPairs ks vs []).
  assert (NoDup ks) as Hnd.
  { by apply StronglySorted_lt_NoDup. }
  destruct (DefaultSlicer_coverage send ranges) as (sliced & Hs & _).
  { unfold sliceable. simpl. rewrite Hlen. apply Nat.Div0.mod_same. }
  { done. }
  { done. }
  exists sliced. split; [done|].
  assert (DefaultSlicer_pos0 ks ranges = 0%nat) as Hp0.
  { destruct Hcover as (_ & Hfirst & _).
    destruct ranges as [|r0 rs]; [done|]. by apply lower_bound_0. }
  destruct (DefaultSlicer_Some_pos _ _ _ Hs) as [_ Hcat]. simpl in Hcat.
  rewrite Hp0, drop_0 in Hcat.
  assert (sliced = run_shards send 0 (range_shards ks ranges)) as Hruns
    by (by apply DefaultSlicer_Some_runs).
  set (pieces := range_shards ks ranges) in *.
  assert (∀ s sh, sliced !! s = Some sh → sh.1 = true →
            ∃ p len, (0 < len)%nat ∧ (p + len ≤ length ks)%nat
              ∧ sh.2 = mkKVPairs (take len (drop p ks))
                                 (take len (drop p vs)) []) as Hshard.
  { intros s sh Hsh Hfl. rewrite Hruns in Hsh.
    apply run_shards_lookup in Hsh as (piece & Hpiece & ->).
    destruct (decide (piece = [])) as [|Hne]; [done|]. simpl.
    exists (0 + length (concat (take s pieces)))%nat, (length piece).
    assert (0 + length (concat (take s pieces)) + length piece
            ≤ length ks)%nat as Hle.
    { assert (length ks = length (concat pieces)) as -> by (by rewrite Hcat).
      rewrite <- (take_drop_middle _ _ _ Hpiece) at 2.
      rewrite concat_app, length_app. simpl. rewrite length_app. lia. }
    split_and!; [destruct piece; [done|simpl; lia]|done|].
    apply (select_single_values ks vs); [done|lia]. }
  split.
  - intros k Hk. rewrite <- Hcat in Hk.
    apply elem_of_concat_lookup in Hk as (s & piece & Hpiece & Hin).
    pose proof (DefaultSlicer_Some_keys _ _ _ Hs) as Hkeys. simpl in Hkeys.
    rewrite Hp0, drop_0 in Hkeys.
    destruct (Forall2_lookup_l _ _ _ _ _ Hkeys Hpiece)
      as (sh & Hsh & Hfl & Heq & _).
    exists s, sh. split_and!; [done| |by rewrite Heq].
    rewrite Hfl. apply bool_decide_eq_true. intros ->.
    by apply not_elem_of_nil in Hin.
  - intros s sh store Hsh Hfl req_meta.
    destruct (Hshard s sh Hsh Hfl) as (p & len & Hlen0 & Hple & Hdata).
    assert (length (keys sh.2) = len) as Hklen.
    { rewrite Hdata. simpl. rewrite length_take, length_drop. lia. }
    assert (length (vals sh.2) = len) as Hvlen.
    { rewrite Hdata. simpl. rewrite length_take, length_drop. lia. }
    split_and!.
    + apply request_decodes_uniform; [done| |by rewrite Hdata].
      intros Hnil%(f_equal length). rewrite Hklen in Hnil. simpl in Hnil. lia.
    + intros r Hr. apply Forall_forall. intros k Hk.
      apply (DefaultSlicer_shard_range send ranges sliced s r sh k);
        try done.
      simpl. eapply StronglySorted_lt_le. done.
    + destruct (DefaultHandle_push_loop Val_zero Val_add sh.2 store empty_kv
                  (length (keys sh.2))) as (store' & Hloop & Hstore);
        [done|lia|].
      exists store'. unfold KVServerDefaultHandle. simpl.
      rewrite decide_True by lia. simpl. rewrite Hloop.
      split; [done|].
      rewrite firstn_all in Hstore. split.
      * intros j k v Hj Hv Hin. rewrite Hstore, decide_True by done.
        f_equal.
        rewrite Hklen, <- Hvlen, firstn_all.
        change (pushed_to (mkKVPairs (keys sh.2) (vals sh.2) []) k)
          with (pushed_to sh.2 k).
        apply list_elem_of_lookup in Hin as [i Hi].
        assert (vals sh.2 !! i = Some v) as Hvi.
        { rewrite Hdata in Hi |- *. simpl in *.
          apply lookup_take_Some in Hi as [Hi Hilt].
          rewrite lookup_drop in Hi.
          pose proof (NoDup_lookup _ _ _ _ Hnd Hi Hj) as <-.
          rewrite lookup_take_lt by done. by rewrite lookup_drop. }
        rewrite (pushed_to_unique sh.2 i k v); [done| |done..].
        rewrite Hdata. simpl.
        apply (sublist_NoDup _ ks); [done|].
        etrans; [apply sublist_take|apply sublist_drop].
      * intros k Hk. by rewrite Hstore, decide_False.
Qed.

End Push_data_path.

Lemma push_data_path_witness :
  let ks := [2; 12; 25] in
  let vs := [1; 2; 3] in
  let rank_id := λ r : nat, 8 + 2 * Z.of_nat r in
  ∃ sliced,
    DefaultSlicer (mkKVPairs ks vs []) range3 = Some sliced
    ∧ (∀ k, k ∈ ks →
         ∃ s sh, sliced !! s = Some sh ∧ sh.1 = true ∧ k ∈ keys sh.2)
    ∧ ∀ s sh (store : gmap Z Z),
        sliced !! s = Some sh → sh.1 = true →
        let req_meta := KVMeta.mk 0 true 9 5 0 in
        KVServer_Process id id id (Some 1%nat)
          (request_msg id id id rank_id 9 0 0 5 true 0 s sh.2)
        = Some (CallRequestHandle 1%nat req_meta sh.2)
        ∧ (∀ r, range3 !! s = Some r →
             Forall (λ k, begin r ≤ k < end_ r) (keys sh.2))
        ∧ ∃ store',
            KVServerDefaultHandle 0 Z.add req_meta sh.2 store
            = Some (store', empty_kv)
            ∧ (∀ j k v, ks !! j = Some k → vs !! j = Some v →
                 k ∈ keys sh.2 →
                 store' !! k = Some (store_ref 0 store k + v))
            ∧ (∀ k, k ∉ keys sh.2 → store' !! k = store !! k).
Proof.
  intros ks vs rank_id.
  apply (push_data_path (Val:=Z) id id id id id id range3 rank_id 9 0 0 0
           Z.add 1%nat 5 0 ks vs).
  - by split_and!.
  - repeat constructor; lia.
  - reflexivity.
  - split; [exact range3_adjacent|]. split.
    + repeat constructor; simpl; lia.
    + intros r [= <-]. repeat constructor; simpl; lia.
Defined.

(** ** A pull from the call to the filled buffers *)

Section Pull_completion.
Context {Val Segment UserCallback : Type}.
Variable seg_of_keys : list Key → Segment.
Variable seg_of_vals : list Val → Segment.
Variable seg_of_lens : list Z → Segment.
Variable keys_of_seg : Segment → list Key.
Variable vals_of_seg : Segment → list Val.
Variable lens_of_seg : Segment → list Z.
Variable Val_zero : Val.
Variable num_servers : nat.
Variable ranges : list Range.
Variable ServerRankToID : nat → Z.
Variable my_node_id : Z.
Variable obj_app_id : Z.
Variable obj_customer_id : Z.
Variable server_app_id : Z.
Variable sender_default : Z.
Variable SimpleApp_Process :
  @Message Segment → @Worker Val Segment UserCallback
  → option (@Worker Val Segment UserCallback).

Implicit Types (w : @Worker Val Segment UserCallback)
  (msg : @Message Segment) (sliced : SlicedKVs Val) (kvs : KVPairs Val)
  (block : Key → list Val).

#[local] Abbreviation Pull_c :=
  (Pull_ seg_of_keys seg_of_vals seg_of_lens Val_zero 0 num_servers ranges
         ServerRankToID my_node_id obj_app_id obj_customer_id DefaultSlicer).
#[local] Abbreviation Send_shards_c :=
  (Send_shards (Val:=Val) (UserCallback:=UserCallback)
     seg_of_keys seg_of_vals seg_of_lens ServerRankToID my_node_id
     obj_app_id obj_customer_id).
#[local] Abbreviation Run_c :=
  (RunCallback (Segment:=Segment) (UserCallback:=UserCallback)
     Val_zero 0 num_servers).
#[local] Abbreviation deliver_c :=
  (Customer_deliver keys_of_seg vals_of_seg lens_of_seg Val_zero 0
     num_servers SimpleApp_Process).
#[local] Abbreviation deliver_all_c :=
  (Customer_deliver_all keys_of_seg vals_of_seg lens_of_seg Val_zero 0
     num_servers SimpleApp_Process).
#[local] Abbreviation store_c :=
  (Process_store (Val:=Val) (UserCallback:=UserCallback)
     keys_of_seg vals_of_seg lens_of_seg).
#[local] Abbreviation requests_c :=
  (requests_of seg_of_keys seg_of_vals seg_of_lens ServerRankToID my_node_id
     obj_app_id obj_customer_id).
#[local] Abbreviation round_trip_c :=
  (segments_round_trip seg_of_keys seg_of_vals seg_of_lens
     keys_of_seg vals_of_seg lens_of_seg).
#[local] Abbreviation answer_c :=
  (server_answer seg_of_keys seg_of_vals seg_of_lens
     keys_of_seg vals_of_seg lens_of_seg server_app_id sender_default).
#[local] Abbreviation Response_c :=
  (KVServer_Response (Val:=Val) seg_of_keys seg_of_vals seg_of_lens
     server_app_id sender_default).
#[local] Abbreviation received_c :=
  (received_kvs (Val:=Val) keys_of_seg vals_of_seg lens_of_seg).

Lemma deliver_all_app (msgs1 msgs2 : list (@Message Segment)) w :
  deliver_all_c (msgs1 ++ msgs2) w
  = w1 ← deliver_all_c msgs1 w; deliver_all_c msgs2 w1.
Proof.
  revert w. induction msgs1 as [|msg msgs1 IH]; intros w; simpl; [done|].
  destruct (deliver_c msg w) as [w1|]; simpl; [apply IH|done].
Qed.

(** The first half of [Process] on an answer to a pull that has data. *)
Lemma Process_store_answer msg w :
  Meta.push (meta msg) = false → (2 ≤ length (data msg))%nat →
  ∃ w0, store_c msg w = Some w0
    ∧ next_timestamp w0 = next_timestamp w ∧ tracker w0 = tracker w
    ∧ callbacks_ w0 = callbacks_ w ∧ log w0 = log w ∧ filled w0 = filled w
    ∧ recv_kvs_ w0
      = <[Meta.timestamp (meta msg) :=
            default [] (recv_kvs_ w !! Meta.timestamp (meta msg))
            ++ [received_c msg]]> (recv_kvs_ w).
Proof.
  intros Hpush Hdata. unfold Process_store, received_kvs. rewrite Hpush.
  destruct (data msg) as [|d0 [|d1 rest]]; simpl in *; [lia..|].
  eexists. by split_and!.
Qed.

(** The answers to a pull that come before the last one are stored, and
    the callback does not run. *)
Lemma deliver_stores ts (msgs : list (@Message Segment)) :
  Forall (λ msg, Meta.simple_app (meta msg) = false
                 ∧ Meta.request (meta msg) = false
                 ∧ Meta.push (meta msg) = false
                 ∧ Meta.timestamp (meta msg) = ts
                 ∧ (2 ≤ length (data msg))%nat) msgs →
  ∀ w,
    NumResponse ts w + Z.of_nat (length msgs) ≤ Z.of_nat num_servers - 1 →
    ∃ w', deliver_all_c msgs w = Some w'
      ∧ NumResponse ts w' = NumResponse ts w + Z.of_nat (length msgs)
      ∧ default [] (recv_kvs_ w' !! ts)
        = default [] (recv_kvs_ w !! ts) ++ (received_c <$> msgs)
      ∧ callbacks_ w' = callbacks_ w ∧ log w' = log w ∧ filled w' = filled w.
Proof.
  induction 1 as [|msg msgs (Hsimple & Hreq & Hpush & Hts & Hdata) _ IH];
    intros w Hnum.
  { exists w. simpl. rewrite app_nil_r, Z.add_0_r. by split_and!. }
  simpl in Hnum. simpl. unfold Customer_deliver at 1.
  rewrite Process_halves, Hreq, Hts by done.
  destruct (Process_store_answer msg w Hpush Hdata)
    as (w0 & -> & _ & Ht & Hc & Hl & Hf & Hr).
  rewrite Hts in Hr. simpl.
  assert (NumResponse ts w0 = NumResponse ts w) as Hn0
    by (unfold NumResponse; by rewrite Ht).
  rewrite decide_False by lia. simpl.
  destruct (IH (AddResponse ts 1 w0)) as (w' & Hw' & Hn' & Hr' & Hc' & Hl' & Hf').
  { unfold AddResponse, NumResponse at 1. simpl. rewrite lookup_insert_eq.
    simpl. lia. }
  exists w'. split; [done|]. simpl in *.
  rewrite Hn', Hr', Hc', Hl', Hf', Hr, lookup_insert_eq. simpl.
  unfold AddResponse, NumResponse at 1. simpl. rewrite lookup_insert_eq. simpl.
  rewrite <- app_assoc. split_and!; try done. lia.
Qed.

(** The last answer to a pull is stored, and the closure runs on all the
    fragments. *)
Lemma deliver_last ts msg w ks vals_buf lens_buf cb out :
  Meta.simple_app (meta msg) = false → Meta.request (meta msg) = false →
  Meta.push (meta msg) = false → Meta.timestamp (meta msg) = ts →
  (2 ≤ length (data msg))%nat →
  NumResponse ts w = Z.of_nat num_servers - 1 →
  callbacks_ w !! ts = Some (PullCb ks (Some vals_buf) lens_buf cb) →
  Pull_callback Val_zero 0 num_servers ks
    (default [] (recv_kvs_ w !! ts) ++ [received_c msg]) vals_buf lens_buf
  = Some out →
  ∃ w', deliver_c msg w = Some w'
    ∧ filled w' !! ts = Some out
    ∧ recv_kvs_ w' !! ts = None
    ∧ callbacks_ w' !! ts = None
    ∧ log w'
      = log w ++ [EvCallback ts (PullCb ks (Some vals_buf) lens_buf cb)].
Proof.
  intros Hsimple Hreq Hpush Hts Hdata Hnum Hcb Hout.
  unfold Customer_deliver. rewrite Process_halves, Hreq, Hts by done.
  destruct (Process_store_answer msg w Hpush Hdata)
    as (w0 & -> & _ & Ht & Hc & Hl & Hf & Hr).
  rewrite Hts in Hr. simpl.
  assert (NumResponse ts w0 = NumResponse ts w) as Hn0
    by (unfold NumResponse; by rewrite Ht).
  rewrite decide_True by lia.
  unfold RunCallback, Pull_closure. rewrite Hc, Hcb. simpl.
  rewrite Hr, lookup_insert_eq. simpl. rewrite Hout. simpl.
  eexists. split; [done|]. simpl.
  rewrite lookup_insert_eq, !lookup_delete_eq, Hl. by split_and!.
Qed.

(** The shards of a batch without lengths: an active shard has keys and no
    lengths. *)
Lemma DefaultSlicer_active_keys ks sliced :
  DefaultSlicer_pos0 ks ranges = 0%nat →
  DefaultSlicer (mkKVPairs ks ([] : list Val) []) ranges = Some sliced →
  Forall (λ sh : bool * KVPairs Val,
            sh.1 = true → keys sh.2 ≠ [] ∧ lens sh.2 = []) sliced.
Proof.
  intros Hp0 Hs.
  assert (sliced = run_shards (mkKVPairs ks [] []) 0 (range_shards ks ranges))
    as -> by (by apply DefaultSlicer_Some_runs).
  clear. generalize 0%nat.
  induction (range_shards ks ranges) as [|piece ps IH]; intros p;
    [constructor|].
  simpl. constructor; [|apply IH].
  destruct (decide (piece = [])) as [|Hne]; [done|]. intros _. simpl.
  split; [|done]. intros Hnil%(f_equal length).
  rewrite length_fmap, length_seq in Hnil. by destruct piece.
Qed.

(** X17: a pull through the worker, from the call to the filled buffers,
    under the range policy.  For keys that increase and lie in the ranges,
    and empty buffers of the caller: [Pull_] returns the fresh timestamp
    and has handed to the transport the requests for the shards of the
    range slicer; each request is answered, by a server whose handle
    answers a pull with the blocks that it holds for the requested keys;
    and when the dispatcher delivers these answers, in whatever order they
    arrive, [Process] stores them and, with the last of them, runs the
    closure of the pull, so that the caller's buffers hold the blocks of
    the caller's keys in the order of the keys, and their lengths, nothing
    is left stored for the timestamp, and the callback has run once. *)
Theorem Pull_completes cmd ks block with_lens lens_buf cb w :
  round_trip_c →
  StronglySorted Z.lt ks → Forall (λ k, 0 ≤ k < 2 ^ 64 - 1) ks →
  ranges_cover ranges ks → num_servers = length ranges →
  recv_kvs_ w !! next_timestamp w = None →
  lens_buf = None ∨ lens_buf = Some [] ∧ with_lens = true →
  ∃ sliced answers w1,
    DefaultSlicer (mkKVPairs ks [] []) ranges = Some sliced
    ∧ Pull_c ks (Some []) lens_buf cmd cb w = Some (next_timestamp w, w1)
    ∧ sent (log w1)
      = sent (log w) ++ requests_c (next_timestamp w) false cmd sliced
    ∧ mapM (answer_c block with_lens)
           (requests_c (next_timestamp w) false cmd sliced)
      = Some answers
    ∧ ∀ msgs, msgs ≡ₚ answers →
        ∃ w2,
          Customer_deliver_all keys_of_seg vals_of_seg lens_of_seg Val_zero 0
            num_servers SimpleApp_Process msgs w1 = Some w2
          ∧ filled w2 !! next_timestamp w
            = Some (concat (block <$> ks),
                    (λ _, (λ k, Z.of_nat (length (block k))) <$> ks)
                    <$> lens_buf)
          ∧ recv_kvs_ w2 !! next_timestamp w = None
          ∧ callback_count (next_timestamp w) (log w2)
            = (callback_count (next_timestamp w) (log w) + 1)%nat.
Proof.
  intros Hrt Hsorted Hbound Hcover Hn Hfresh Hbuf.
  set (ts := next_timestamp w) in *.
  destruct (DefaultSlicer_coverage (mkKVPairs ks ([] : list Val) []) ranges)
    as (sliced & Hs & _);
    [unfold sliceable; simpl; apply Nat.Div0.mod_0_l|done|done|].
  assert (DefaultSlicer_pos0 ks ranges = 0%nat) as Hp0.
  { destruct Hcover as (_ & Hfirst & _).
    destruct ranges as [|r0 rs]; [done|]. by apply lower_bound_0. }
  pose proof (DefaultSlicer_active_keys ks sliced Hp0 Hs) as Hactive.
  pose proof (DefaultSlicer_length _ _ _ Hs) as Hlen. rewrite <- Hn in Hlen.
  set (req := KVMeta.mk cmd false my_node_id ts obj_customer_id).
  set (resp := λ sh : KVPairs Val,
         Response_c req (response block with_lens (keys sh))).
  assert (mapM (answer_c block with_lens) (requests_c ts false cmd sliced)
          = Some (resp <$> active_shards sliced)) as Hanswers
    by (by apply answers_of_requests).
  assert (Forall (λ sh : KVPairs Val, keys sh ≠ []) (active_shards sliced))
    as Hne.
  { unfold active_shards. apply Forall_fmap, Forall_forall.
    intros sh [Hfl Hin]%list_elem_of_filter. simpl.
    by destruct (proj1 (Forall_forall _ _) Hactive sh Hin Hfl). }
  (* what the closure does on the answers, in any order *)
  assert (∀ msgs, msgs ≡ₚ resp <$> active_shards sliced →
            Pull_callback Val_zero 0 num_servers ks (received_c <$> msgs) []
              lens_buf
            = Some (concat (block <$> ks),
                    (λ _, (λ k, Z.of_nat (length (block k))) <$> ks)
                    <$> lens_buf)) as Hclosure.
  { intros msgs Hperm.
    apply (Pull_range_reassembles Val_zero num_servers ks ranges block
             with_lens sliced); try done.
    rewrite Hperm, <- list_fmap_compose.
    assert (received_c ∘ resp <$> active_shards sliced
            = (λ sh : KVPairs Val, response block with_lens (keys sh))
              <$> active_shards sliced) as ->; [|done].
    apply Forall_fmap_ext_1.
    eapply Forall_impl; [exact Hne|]. intros sh Hk. simpl.
    by apply received_Response. }
  (* the answers as the dispatcher sees them *)
  assert (Forall (λ msg, Meta.simple_app (meta msg) = false
                         ∧ Meta.request (meta msg) = false
                         ∧ Meta.push (meta msg) = false
                         ∧ Meta.timestamp (meta msg) = ts
                         ∧ (2 ≤ length (data msg))%nat)
                 (resp <$> active_shards sliced)) as Hmsgs.
  { apply Forall_fmap. eapply Forall_impl; [exact Hne|]. intros sh Hk. simpl.
    split_and!; [done..|]. unfold kv_data. simpl in *.
    rewrite decide_True by (by destruct (keys sh)).
    destruct (decide _); simpl; lia. }
  (* the request *)
  set (c := PullCb ks (Some []) lens_buf cb : @Callback Val UserCallback).
  set (w0 := AddCallback ts (Some c) (NewRequest w).2).
  assert (NumResponse ts w0 = 0 ∧ callbacks_ w0 !! ts = Some c
          ∧ log w0 = log w ∧ recv_kvs_ w0 !! ts = None)
    as (Hn0 & Hc0 & Hl0 & Hr0).
  { unfold w0, ts, NumResponse, AddCallback, NewRequest. simpl.
    by rewrite !lookup_insert_eq. }
  pose proof (count_skipped_active sliced) as Hsum.
  set (wa := AddResponse ts (Z.of_nat (count_skipped sliced)) w0).
  assert (NumResponse ts wa = Z.of_nat (count_skipped sliced)
          ∧ callbacks_ wa !! ts = Some c ∧ log wa = log w
          ∧ recv_kvs_ wa !! ts = None) as (Hna & Hca & Hla & Hra).
  { unfold wa, AddResponse. unfold NumResponse at 1. simpl.
    rewrite !lookup_insert_eq, Hn0. simpl. by split_and!. }
  exists sliced, (resp <$> active_shards sliced).
  assert (Pull_c ks (Some []) lens_buf cmd cb w
          = w1 ← (wr ← (if decide (count_skipped sliced = length sliced)
                        then Run_c ts wa else Some wa);
                  Some (Send_shards_c ts false cmd 0 sliced wr));
            Some (ts, w1)) as ->.
  { unfold Pull_, Send. simpl. by rewrite Hs. }
  destruct (decide (count_skipped sliced = length sliced)) as [He|Hne'].
  - (* no shard is active: the closure runs during the request *)
    assert (active_shards sliced = []) as Hnil
      by (apply nil_length_inv; lia).
    rewrite Hnil in Hclosure |- *. simpl fmap in Hclosure |- *.
    pose proof (Hclosure [] ltac:(done)) as Hnilc.
    change (received_c <$> []) with (@nil (KVPairs Val)) in Hnilc.
    destruct (proj2 (RunCallback_is_Some Val_zero 0 num_servers ts wa))
      as [w2 Hrun].
    { intros c1 Hc1. rewrite Hca in Hc1. injection Hc1 as <-. rewrite Hra.
      exists []. split; [done|].
      change (default [] None) with (@nil (KVPairs Val)). rewrite Hnilc.
      by eexists. }
    destruct (RunCallback_filled _ _ _ _ _ _ _ _ _ _ Hrun Hca)
      as (vb & out & [= <-] & Hout & Hf2).
    rewrite Hra in Hout.
    change (default [] None) with (@nil (KVPairs Val)) in Hout.
    rewrite Hnilc in Hout. injection Hout as <-.
    destruct (RunCallback_Some _ _ _ _ _ _ Hrun) as (_ & _ & _ & Hl2 & Hr2 & _).
    rewrite Hca in Hl2, Hr2. rewrite Hla in Hl2. unfold c in Hr2.
    apply (f_equal (λ m, m !! ts)) in Hr2. rewrite lookup_delete_eq in Hr2.
    rewrite Hrun.
    simpl. eexists. split; [done|]. split; [done|].
    destruct (Send_shards_effect seg_of_keys seg_of_vals seg_of_lens
                ServerRankToID my_node_id obj_app_id obj_customer_id
                ts false cmd sliced 0%nat w2) as (Hsent & _ & _ & Hrs & _).
    destruct (Send_shards_state seg_of_keys seg_of_vals seg_of_lens
                ServerRankToID my_node_id obj_app_id obj_customer_id
                ts false cmd 0 sliced w2) as (_ & _ & _ & _ & Hfs).
    split; [|split; [by rewrite Hanswers, Hnil|]].
    + rewrite Hsent, Hl2, sent_app. simpl. by rewrite app_nil_r.
    + intros msgs ->%Permutation_nil_r. simpl. eexists. split; [done|].
      rewrite Hfs, Hrs. split_and!; [done..|].
      pose proof (completion_Send_shards seg_of_keys seg_of_vals seg_of_lens
                    ServerRankToID my_node_id obj_app_id obj_customer_id
                    ts ts false cmd 0 sliced w2) as Hcomp.
      unfold completion in Hcomp. injection Hcomp as _ _ ->.
      rewrite Hl2, callback_count_snoc. simpl.
      by rewrite bool_decide_true.
  - (* some shard is active: the closure runs with the last answer *)
    simpl. exists (Send_shards_c ts false cmd 0 sliced wa).
    split; [done|]. split; [done|].
    set (w1 := Send_shards_c ts false cmd 0 sliced wa).
    destruct (Send_shards_effect seg_of_keys seg_of_vals seg_of_lens
                ServerRankToID my_node_id obj_app_id obj_customer_id
                ts false cmd sliced 0%nat wa) as (Hsent & _ & Ht1 & Hr1 & Hc1).
    fold w1 in Hsent, Ht1, Hr1, Hc1.
    pose proof (completion_Send_shards seg_of_keys seg_of_vals seg_of_lens
                  ServerRankToID my_node_id obj_app_id obj_customer_id
                  ts ts false cmd 0 sliced wa) as Hcomp.
    fold w1 in Hcomp. unfold completion in Hcomp.
    injection Hcomp as Hn1 _ Hk1.
    split; [by rewrite Hsent, Hla|]. split; [done|].
    intros msgs Hperm.
    assert (Forall (λ msg, Meta.simple_app (meta msg) = false
                           ∧ Meta.request (meta msg) = false
                           ∧ Meta.push (meta msg) = false
                           ∧ Meta.timestamp (meta msg) = ts
                           ∧ (2 ≤ length (data msg))%nat) msgs) as Hall
      by (by rewrite Hperm).
    assert (length msgs = length (active_shards sliced)) as Hlm
      by (by rewrite Hperm, length_fmap).
    destruct msgs as [|m0 msgs0] using rev_ind; [simpl in Hlm; lia|].
    clear IHmsgs0. rewrite length_app in Hlm. simpl in Hlm.
    apply Forall_app in Hall as [Hinit Hlast].
    apply Forall_singleton in Hlast
      as (Hsimple & Hreq & Hpush & Hts & Hdata).
    destruct (deliver_stores ts msgs0 Hinit w1)
      as (wi & Hwi & Hni & Hri & Hci & Hli & Hfi).
    { rewrite Hn1, Hna. lia. }
    rewrite Hr1, Hra in Hri. simpl in Hri.
    destruct (deliver_last ts m0 wi ks [] lens_buf cb
                (concat (block <$> ks),
                 (λ _, (λ k, Z.of_nat (length (block k))) <$> ks)
                 <$> lens_buf))
      as (w2 & Hw2 & Hf2 & Hr2 & Hc2 & Hl2); try done.
    { rewrite Hni, Hn1, Hna. lia. }
    { by rewrite Hci, Hc1. }
    { rewrite Hri. rewrite <- (Hclosure _ Hperm).
      by rewrite fmap_app. }
    exists w2. rewrite deliver_all_app, Hwi. simpl. rewrite Hw2.
    split_and!; [done..|].
    rewrite Hl2, Hli, callback_count_snoc, Hk1. simpl.
    by rewrite bool_decide_true.
Qed.

End Pull_completion.

Lemma Pull_completes_witness :
  let ks := [2; 12; 25] in
  let block := λ k : Z, [10 * k] in
  let rank_id := λ r : nat, 8 + 2 * Z.of_nat r in
  let w := scenario_worker in
  ∃ sliced answers w1,
    DefaultSlicer (mkKVPairs ks ([] : list Z) []) range3 = Some sliced
    ∧ Pull_ id id id 0 0 3 range3 rank_id 9 0 0 DefaultSlicer
            ks (Some []) None 0 (Some 5%nat) w = Some (1, w1)
    ∧ sent (log w1)
      = sent (log w) ++ requests_of id id id rank_id 9 0 0 1 false 0 sliced
    ∧ mapM (server_answer id id id id id id 0 7 block false)
           (requests_of id id id rank_id 9 0 0 1 false 0 sliced)
      = Some answers
    ∧ ∀ msgs, msgs ≡ₚ answers →
        ∃ w2,
          Customer_deliver_all id id id 0 0 3 (λ _ w, Some w) msgs w1 = Some w2
          ∧ filled w2 !! 1 = Some ([20; 120; 250], None)
          ∧ recv_kvs_ w2 !! 1 = None
          ∧ callback_count 1 (log w2) = 1%nat.
Proof.
  intros ks block rank_id w.
  apply (Pull_completes (Val:=Z) (UserCallback:=nat) id id id id id id 0 3
           range3 rank_id 9 0 0 0 7 (λ _ w, Some w) 0 ks block false None
           (Some 5%nat) w).
  - by split_and!.
  - repeat constructor; lia.
  - repeat constructor; lia.
  - split; [exact range3_adjacent|]. split.
    + repeat constructor; simpl; lia.
    + intros r [= <-]. repeat constructor; simpl; lia.
  - reflexivity.
  - reflexivity.
  - by left.
Defined.

(** ** The helpers of the stress test *)

(** X19: the size that [aligned_memory_alloc] asks for.  For a positive
    page size and a size of at most [2^31 - page_size] bytes, [size_aligned]
    is the least multiple of the page size that is not below [size]: the
    [size] bytes that [memset] writes lie inside the allocation. *)
Theorem size_aligned_spec size page_size :
  0 < page_size → 0 ≤ size → size + page_size ≤ 2 ^ 31 →
  ∃ a, size_aligned size page_size = Some a
    ∧ size ≤ a < size + page_size
    ∧ a `mod` page_size = 0.
Proof.
  intros Hp Hs Hle. unfold size_aligned, ROUNDUP, DIVUP.
  rewrite decide_False by lia. simpl.
  rewrite (wrap64_small (size + page_size)) by lia.
  rewrite (wrap64_small (size + page_size - 1)) by lia.
  set (d := (size + page_size - 1) / page_size).
  pose proof (Z.div_mod (size + page_size - 1) page_size ltac:(lia)) as Hdm.
  pose proof (Z.mod_pos_bound (size + page_size - 1) page_size Hp) as Hm.
  fold d in Hdm.
  assert (0 ≤ d) by (apply Z.div_pos; lia).
  assert (size ≤ d * page_size < size + page_size) as Hd by lia.
  rewrite (wrap64_small (d * page_size)) by lia.
  exists (d * page_size). split_and!; [|lia|lia|by apply Z_mod_mult].
  f_equal. unfold int_of_size_t.
  rewrite Z.mod_small by lia. lia.
Qed.

Lemma size_aligned_spec_witness :
  ∃ a, size_aligned 5000 4096 = Some a
    ∧ 5000 ≤ a < 5000 + 4096
    ∧ a `mod` 4096 = 0.
Proof. apply (size_aligned_spec 5000 4096); lia. Defined.

(** X20: [GetKeyIndex] numbers the pairs of a session rank and a target
    row by row.  When it returns, its result is [rank * stride + target],
    where the stride is [global_gpu_size] for [SCATTER], [GATHER] and
    [DATA_SCATTER] and [num_servers] for [DENSE]; so two pairs whose
    targets are below the stride and that get the same index are the same
    pair. *)
Theorem GetKeyIndex_injective type rank tgt rank' tgt' gpu_size num_servers i :
  let stride := if decide (type = DENSE) then num_servers else gpu_size in
  GetKeyIndex type rank tgt gpu_size num_servers = Some i →
  GetKeyIndex type rank' tgt' gpu_size num_servers = Some i →
  0 ≤ tgt < stride → 0 ≤ tgt' < stride →
  i = rank * stride + tgt ∧ rank = rank' ∧ tgt = tgt'.
Proof.
  intros stride H1 H2 Ht Ht'.
  assert (∀ r t, GetKeyIndex type r t gpu_size num_servers = Some i →
                 i = r * stride + t) as Hval.
  { intros r t. unfold GetKeyIndex, int_checked, stride, SCATTER,
      DATA_SCATTER, DENSE. intros H.
    destruct (decide (type = 0)) as [->|?];
      [|destruct (decide (type = 1)) as [->|?];
        [|destruct (decide (type = 2)) as [->|?]; [|done]]];
      simpl in *;
      (destruct (decide (- 2 ^ 31 ≤ r * _ < 2 ^ 31)); simpl in H; [|done]);
      (destruct (decide (- 2 ^ 31 ≤ _ + t < 2 ^ 31)); by simplify_eq). }
  apply Hval in H1, H2. split; [done|].
  assert (rank = rank') as <-; [|lia]. nia.
Qed.

Lemma GetKeyIndex_injective_witness :
  GetKeyIndex DENSE 2 1 4 3 = Some 7
  ∧ ∀ rank' tgt', GetKeyIndex DENSE rank' tgt' 4 3 = Some 7 →
                  0 ≤ tgt' < 3 → 2 = rank' ∧ 1 = tgt'.
Proof.
  split; [reflexivity|]. intros rank' tgt' H Ht.
  by destruct (GetKeyIndex_injective DENSE 2 1 rank' tgt' 4 3 7 eq_refl H
                 ltac:(simpl; lia) Ht) as (_ & ? & ?).
Defined.

Section FloatSum_properties.
Context {Float : Type}.
Variable float_add : Float → Float → Float.
Implicit Types (dst src : list Float).

Lemma float_sum_loop dst src m :
  (m ≤ length dst)%nat → (m ≤ length src)%nat →
  for_loop (float_sum_body float_add src) 0 m dst
  = Some (zip_with float_add (take m dst) (take m src) ++ drop m dst).
Proof.
  induction m as [|m IH]; intros Hd Hs.
  { simpl. by rewrite drop_0. }
  rewrite for_loop_snoc, IH by lia. simpl.
  destruct (lookup_lt_is_Some_2 dst m) as [x Hx]; [lia|].
  destruct (lookup_lt_is_Some_2 src m) as [y Hy]; [lia|].
  unfold float_sum_body.
  assert (length (zip_with float_add (take m dst) (take m src)) = m) as Hlen
    by (rewrite length_zip_with, !length_take; lia).
  rewrite lookup_app_r, Hlen, Nat.sub_diag by lia.
  rewrite lookup_drop, Nat.add_0_r, Hx. simpl. rewrite Hy. simpl.
  f_equal. rewrite insert_app_r_alt, Hlen, Nat.sub_diag by lia.
  rewrite (drop_S _ _ _ Hx). simpl.
  rewrite (take_S_r _ _ _ Hx), (take_S_r _ _ _ Hy).
  rewrite zip_with_app by (rewrite !length_take; lia).
  by rewrite <- app_assoc.
Qed.

Lemma for_loop_fails {St} (body : St → nat → option St) start count m st st' :
  (m < count)%nat → for_loop body start m st = Some st' →
  body st' (start + m)%nat = None →
  for_loop body start count st = None.
Proof.
  revert start st m. induction count as [|c IH]; intros start st m Hm Hl Hb;
    [lia|].
  destruct m as [|m]; simpl in *.
  - simplify_eq. by rewrite Nat.add_0_r in Hb; rewrite Hb.
  - destruct (body st start) as [st1|]; [|done]. simpl in *.
    apply (IH (S start) st1 m); [lia|done|].
    by replace (S start + m)%nat with (start + S m)%nat by lia.
Qed.

(** X21: [float_sum] adds the first [len / 4] floats of [src] to those of
    [dst] and leaves the rest of [dst] as it was; so nothing changes for
    fewer than four bytes, and the bytes after the last whole float are not
    summed.  It reads past the end of an array, which is a failure here,
    exactly when one of the arrays has fewer than [len / 4] floats. *)
Theorem float_sum_spec dst src len :
  float_sum float_add dst src len
  = if decide (len / 4 ≤ length dst ∧ len / 4 ≤ length src)%nat
    then Some (zip_with float_add (take (len / 4) dst) (take (len / 4) src)
               ++ drop (len / 4) dst)
    else None.
Proof.
  unfold float_sum. destruct (decide (len = 0%nat)) as [->|Hne].
  { change (0 / 4)%nat with 0%nat. rewrite decide_True by (split; lia).
    by rewrite drop_0. }
  destruct (decide (_ ∧ _)) as [[Hd Hs]|Hover].
  { by apply float_sum_loop. }
  set (m := (length dst `min` length src)%nat).
  apply (for_loop_fails _ 0 (len / 4) m dst
           (zip_with float_add (take m dst) (take m src) ++ drop m dst)).
  - unfold m. lia.
  - apply float_sum_loop; unfold m; lia.
  - unfold float_sum_body. simpl.
    assert (length (zip_with float_add (take m dst) (take m src)) = m) as Hlen
      by (rewrite length_zip_with, !length_take; unfold m; lia).
    rewrite lookup_app_r, Hlen, Nat.sub_diag by lia.
    rewrite lookup_drop, Nat.add_0_r.
    destruct (dst !! m) as [x|] eqn:Hx; [|done]. simpl.
    apply lookup_lt_Some in Hx.
    rewrite (lookup_ge_None_2 src m); [done|]. unfold m in *. lia.
Qed.

End FloatSum_properties.

(** ** The range policy: what the merge writes *)

Section Range_output.
Context {Val : Type}.
Variable Val_zero : Val.
Implicit Types (kvs sorted : list (KVPairs Val)) (s : KVPairs Val).

Lemma Pull_merge_range_vals kvs :
  ∀ done rest pl,
    (sum_list ((λ s, length (vals s)) <$> kvs) ≤ length rest)%nat →
    Pull_merge_range kvs (mkPullOut (done ++ rest) (length done) None pl)
    = Some (mkPullOut
              ((done ++ concat (vals <$> kvs))
               ++ drop (sum_list ((λ s, length (vals s)) <$> kvs)) rest)
              (length done + sum_list ((λ s, length (vals s)) <$> kvs))
              None pl).
Proof.
  induction kvs as [|s kvs IH]; intros done rest pl Hv.
  { csimpl. by rewrite !app_nil_r, !Nat.add_0_r. }
  rewrite !sum_list_fmap_cons in *.
  pose proof (IH (done ++ vals s) (drop (length (vals s)) rest) pl) as IH1.
  rewrite length_drop, length_app in IH1.
  csimpl. rewrite memcpy_app by lia. csimpl. rewrite IH1 by lia.
  by rewrite !drop_drop, <- !app_assoc, !Nat.add_assoc.
Qed.

(** X22: under the range policy the closure writes the fragments end to
    end.  Whenever it produces output, the values buffer holds the values
    of the fragments, one fragment after the other in the increasing order
    of their first keys, and the buffer for lengths, when the caller passed
    one, holds their lengths in the same order; what the caller's buffers
    held before is overwritten, and no value is matched to a key.  The
    first keys of the fragments are taken to differ: [std::sort] fixes no
    order among fragments with the same first key. *)
Theorem Pull_callback_range_output n ks kvs vals_buf lens_buf out sorted :
  Pull_callback Val_zero 0 n ks kvs vals_buf lens_buf = Some out →
  kvs ≡ₚ sorted → StronglySorted front_lt sorted →
  out = (concat (vals <$> sorted),
         (λ _, concat (lens <$> sorted)) <$> lens_buf).
Proof.
  unfold Pull_callback. intros Hout Hperm Hsorted.
  rewrite !decide_True in Hout by done.
  destruct (Pull_check_range _ _ _ _ _) as [[tk tv]|] eqn:Hchk; [|done].
  apply Pull_check_range_spec in Hchk as (Hall & Htk & Htv).
  simpl in Hout, Htk, Htv. destruct (decide _) as [Hks|]; [|done].
  rewrite (sort_by_front_unique _ _ Hperm Hsorted) in Hout.
  destruct (prepare_buffer Val_zero _ _) as [ov0|] eqn:Hov; [|done].
  apply prepare_buffer_length in Hov as [Hov _]. simpl in Hout.
  assert (sum_list ((λ s, length (vals s)) <$> sorted) = length ov0) as Hsv
    by (rewrite <- Hperm; lia).
  assert (sum_list ((λ s, length (keys s)) <$> sorted) = length ks) as Hsk
    by (rewrite <- Hperm; lia).
  destruct lens_buf as [b|]; simpl in Hout.
  - destruct (prepare_buffer 0 b _) as [ol0|] eqn:Hol; [|done].
    apply prepare_buffer_length in Hol as [Hol _]. simpl in Hout.
    assert (sum_list ((λ s, length (lens s)) <$> sorted) = length ol0) as Hsl.
    { rewrite Hol, <- Hsk. rewrite Hperm in Hall. clear -Hall.
      induction Hall as [|s l (fk & lk & _ & _ & _ & Hlen) _ IH]; [done|].
      rewrite !sum_list_fmap_cons, IH. f_equal. by apply Hlen. }
    destruct (Pull_merge_range_spec sorted [] ov0 [] ol0) as [_ Hm];
      [lia..|].
    simpl in Hm. rewrite Hm in Hout. simpl in Hout. injection Hout as <-.
    by rewrite Hsv, Hsl, !drop_all, !app_nil_r.
  - pose proof (Pull_merge_range_vals sorted [] ov0 0 ltac:(lia)) as Hm.
    simpl in Hm. rewrite Hm in Hout. simpl in Hout. injection Hout as <-.
    by rewrite Hsv, !drop_all, !app_nil_r.
Qed.

End Range_output.

Lemma Pull_callback_range_output_witness :
  let ks := [5; 15] in
  let kvs := [mkKVPairs [15] [7; 8] [2]; mkKVPairs [5] [1; 2; 3] [3]] in
  let sorted := [mkKVPairs [5] [1; 2; 3] [3]; mkKVPairs [15] [7; 8] [2]] in
  let out := ([1; 2; 3; 7; 8], Some [3; 2]) in
  Pull_callback 0 0 3 ks kvs [9; 9; 9; 9; 9] (Some []) = Some out
  ∧ out = (concat (vals <$> sorted),
           (λ _, concat (lens <$> sorted)) <$> Some ([] : list Z)).
Proof.
  intros ks kvs sorted out.
  assert (Pull_callback 0 0 3 ks kvs [9; 9; 9; 9; 9] (Some []) = Some out)
    as H by (vm_compute; reflexivity).
  split; [exact H|].
  apply (Pull_callback_range_output 0 3 ks kvs [9; 9; 9; 9; 9] (Some [])
           out sorted H).
  - apply Permutation_swap.
  - repeat constructor.
Defined.
